(** * Foreign-term detection and preference learning (src/app.py)

    A shallow embedding of the candidate detector, the preference store,
    the suggestion ranker and the replacement applier of [src/app.py],
    with the properties of the specification stated over it.

    Python values are modelled as follows.
    - [str] is a list of Unicode code points ([N]); literals are written as
      UTF-8 text and decoded by [u8].
    - [int] is [Z]; offsets inside the regular-expression engine are [nat]
      and are injected into [Z] where the source reads [m.start()] and
      [m.end()].
    - [set] and [dict] are stdpp's [gset] and [gmap].
    - The SQLite table [prefs] is a [gmap] from its primary key to the score.
    - The [re] module is a backtracking matcher over a regular-expression
      syntax tree, with the priorities of Python's engine (ordered
      alternation, greedy and lazy repetition, leftmost match). *)

From Stdlib Require Import ZArith NArith Lia Bool List Ascii String Sorted Permutation.
From stdpp Require Import base decidable option list countable gmap.
Import ListNotations.

Local Open Scope nat_scope.

(* ===================================================================== *)
(** ** Python strings *)
(* ===================================================================== *)

Module Py.

Abbreviation char := N.
Abbreviation str := (list N).

(** UTF-8 decoding of a literal written in this file. *)
Fixpoint utf8_decode (bs : list N) : list N :=
  match bs with
  | [] => []
  | b :: r =>
      if (b <? 128)%N then b :: utf8_decode r
      else if (b <? 224)%N then
        match r with
        | b1 :: r1 => ((b mod 32) * 64 + b1 mod 64)%N :: utf8_decode r1
        | _ => []
        end
      else if (b <? 240)%N then
        match r with
        | b1 :: b2 :: r2 =>
            ((b mod 16) * 4096 + (b1 mod 64) * 64 + b2 mod 64)%N :: utf8_decode r2
        | _ => []
        end
      else
        match r with
        | b1 :: b2 :: b3 :: r3 =>
            ((b mod 8) * 262144 + (b1 mod 64) * 4096 + (b2 mod 64) * 64 + b3 mod 64)%N
              :: utf8_decode r3
        | _ => []
        end
  end.

Definition u8 (s : string) : list N :=
  utf8_decode (map N_of_ascii (list_ascii_of_string s)).

Definition str_eqb (a b : list N) : bool := bool_decide (a = b).

Definition len (s : list N) : Z := Z.of_nat (length s).

(** [s[a:b]] with Python's treatment of negative and out-of-range bounds. *)
Definition clamp_index (n i : Z) : Z :=
  if (i <? 0)%Z then Z.max 0 (i + n) else Z.min i n.

Definition slice {A} (s : list A) (a b : Z) : list A :=
  let n := Z.of_nat (length s) in
  let a' := clamp_index n a in
  let b' := clamp_index n b in
  firstn (Z.to_nat (b' - a')) (skipn (Z.to_nat a') s).

Definition slice_from {A} (s : list A) (a : Z) : list A :=
  skipn (Z.to_nat (clamp_index (Z.of_nat (length s)) a)) s.

Definition slice_to {A} (s : list A) (b : Z) : list A :=
  firstn (Z.to_nat (clamp_index (Z.of_nat (length s)) b)) s.

(** *** Character classes

    The case tables cover the alphabet the tokenizer accepts (the ASCII
    letters and the Turkish letters of [TOKEN_RE]); every other code point
    is treated as caseless. *)

Definition in_range (lo hi c : N) : bool := (lo <=? c)%N && (c <=? hi)%N.

Definition is_upper_cp (c : N) : bool :=
  in_range 65 90 c
  || (c =? 199)%N (* Ç *) || (c =? 286)%N (* Ğ *) || (c =? 304)%N (* İ *)
  || (c =? 214)%N (* Ö *) || (c =? 350)%N (* Ş *) || (c =? 220)%N (* Ü *).

Definition is_lower_cp (c : N) : bool :=
  in_range 97 122 c
  || (c =? 231)%N (* ç *) || (c =? 287)%N (* ğ *) || (c =? 305)%N (* ı *)
  || (c =? 246)%N (* ö *) || (c =? 351)%N (* ş *) || (c =? 252)%N (* ü *).

(** [str.lower]: the dotted capital I lowers to [i] followed by U+0307. *)
Definition lower_cp (c : N) : list N :=
  if in_range 65 90 c then [(c + 32)%N]
  else if (c =? 199)%N then [231%N]
  else if (c =? 286)%N then [287%N]
  else if (c =? 304)%N then [105%N; 775%N]
  else if (c =? 214)%N then [246%N]
  else if (c =? 350)%N then [351%N]
  else if (c =? 220)%N then [252%N]
  else [c].

(** [str.upper]: both [i] and the dotless [ı] raise to [I]. *)
Definition upper_cp (c : N) : list N :=
  if in_range 97 122 c then [(c - 32)%N]
  else if (c =? 231)%N then [199%N]
  else if (c =? 287)%N then [286%N]
  else if (c =? 305)%N then [73%N]
  else if (c =? 246)%N then [214%N]
  else if (c =? 351)%N then [350%N]
  else if (c =? 252)%N then [220%N]
  else [c].

Definition lower (s : list N) : list N := flat_map lower_cp s.
Definition upper (s : list N) : list N := flat_map upper_cp s.

(** [str.isupper]: no lowercase character and at least one uppercase one. *)
Definition isupper (s : list N) : bool :=
  forallb (fun c => negb (is_lower_cp c)) s && existsb is_upper_cp s.

Definition isascii (s : list N) : bool := forallb (fun c => (c <? 128)%N) s.

(** [str.isspace] on one character; also the [\s] of [re]. *)
Definition is_space (c : N) : bool :=
  in_range 9 13 c || in_range 28 32 c || (c =? 133)%N || (c =? 160)%N
  || (c =? 5760)%N || in_range 8192 8202 c || (c =? 8232)%N || (c =? 8233)%N
  || (c =? 8239)%N || (c =? 8287)%N || (c =? 12288)%N.

(** [\w] of [re]: alphanumerics and the underscore, over Basic Latin,
    Latin-1 and Latin Extended-A/B. *)
Definition is_word (c : N) : bool :=
  in_range 48 57 c || in_range 65 90 c || in_range 97 122 c || (c =? 95)%N
  || (c =? 170)%N || (c =? 178)%N || (c =? 179)%N || (c =? 181)%N
  || (c =? 185)%N || (c =? 186)%N || in_range 188 190 c
  || in_range 192 214 c || in_range 216 246 c || in_range 248 591 c.

Fixpoint lstrip (s : list N) : list N :=
  match s with
  | c :: r => if is_space c then lstrip r else s
  | [] => []
  end.

Definition rstrip (s : list N) : list N := rev (lstrip (rev s)).

Definition strip (s : list N) : list N := rstrip (lstrip s).

(** [s.split()]: the maximal runs of non-space characters. *)
Fixpoint split_ws_aux (cur : list N) (s : list N) : list (list N) :=
  match s with
  | [] => match cur with [] => [] | _ => [rev cur] end
  | c :: r =>
      if is_space c
      then match cur with [] => split_ws_aux [] r | _ => rev cur :: split_ws_aux [] r end
      else split_ws_aux (c :: cur) r
  end.

Definition split_ws (s : list N) : list (list N) := split_ws_aux [] s.

Fixpoint starts_with (p s : list N) : bool :=
  match p, s with
  | [], _ => true
  | a :: p', b :: s' => (a =? b)%N && starts_with p' s'
  | _ :: _, [] => false
  end.

(** [s.find(sub, start)] for [0 <= start]; [-1] when there is no occurrence. *)
Fixpoint find_aux (sub s : list N) (i : nat) : Z :=
  if starts_with sub s then Z.of_nat i
  else match s with
       | [] => (-1)%Z
       | _ :: r => find_aux sub r (S i)
       end.

Definition find (s sub : list N) (start : Z) : Z :=
  if (len s <? start)%Z then (-1)%Z
  else find_aux sub (skipn (Z.to_nat start) s) (Z.to_nat start).

(** Decimal rendering of a non-negative [int], as in an f-string. *)
Fixpoint dec_digits (fuel : nat) (n : N) (acc : list N) : list N :=
  match fuel with
  | 0 => acc
  | S f =>
      let acc' := (48 + n mod 10)%N :: acc in
      if (n <? 10)%N then acc' else dec_digits f (n / 10)%N acc'
  end.

Definition str_of_int (z : Z) : list N :=
  let n := Z.to_N (Z.abs z) in
  let ds := dec_digits (S (N.to_nat (N.log2 n))) n [] in
  if (z <? 0)%Z then 45%N :: ds else ds.

(** *** Stable sorting

    [list.sort] and [sorted] are stable and compare with [<] only; with
    [reverse=True] equal elements still keep their input order. *)
Section Sort.
Context {A : Type} (lt : A -> A -> bool).

Fixpoint insert_sorted (x : A) (l : list A) : list A :=
  match l with
  | [] => [x]
  | y :: r => if lt y x then y :: insert_sorted x r else x :: l
  end.

Definition sort (l : list A) : list A := fold_right insert_sorted [] l.
End Sort.

Definition sort_by {A K} (ltk : K -> K -> bool) (key : A -> K) (reverse : bool)
    (l : list A) : list A :=
  sort (fun y x => if reverse then ltk (key x) (key y) else ltk (key y) (key x)) l.

End Py.


(* ===================================================================== *)
(** ** The [re] module *)
(* ===================================================================== *)

Module Re.
Import Py.

(** Patterns.  [Rep greedy r] is [r*] (greedy) or [r*?] (lazy); [Eol] is
    [$], [Wordb] is [\b] and [Behind p] is a one-character lookbehind. *)
Inductive regex : Type :=
| Eps
| Sym (p : N -> bool)
| Cat (r1 r2 : regex)
| Alt (r1 r2 : regex)
| Rep (greedy : bool) (r : regex)
| Grp (name : string) (r : regex)
| Eol
| Wordb
| Behind (p : N -> bool).

Definition Plus (r : regex) : regex := Cat r (Rep true r).
Definition Opt (r : regex) : regex := Alt r Eps.

Fixpoint alts (rs : list regex) : regex :=
  match rs with
  | [] => Sym (fun _ => false)
  | [r] => r
  | r :: rest => Alt r (alts rest)
  end.

Fixpoint lit_with (eqc : N -> N -> bool) (s : list N) : regex :=
  match s with
  | [] => Eps
  | [c] => Sym (eqc c)
  | c :: r => Cat (Sym (eqc c)) (lit_with eqc r)
  end.

(** A literal, as produced by [re.escape]. *)
Definition lit (s : list N) : regex := lit_with N.eqb s.

(** *** Case-insensitive matching ([re.IGNORECASE])

    The engine lowers the subject character with the simple (one to one)
    lowercase mapping and accepts the lowercase letters that share an
    uppercase letter ([i] and [ı], [s] and [ſ]) as equal. *)
Definition simple_lower (c : N) : N :=
  if in_range 65 90 c then (c + 32)%N
  else if (c =? 199)%N then 231%N
  else if (c =? 286)%N then 287%N
  else if (c =? 304)%N then 105%N
  else if (c =? 214)%N then 246%N
  else if (c =? 350)%N then 351%N
  else if (c =? 220)%N then 252%N
  else if (c =? 8490)%N (* KELVIN SIGN *) then 107%N
  else c.

Definition ci_canon (c : N) : N :=
  let l := simple_lower c in
  if (l =? 305)%N then 105%N else if (l =? 383)%N (* ſ *) then 115%N else l.

Definition ci_eqb (c d : N) : bool := (ci_canon c =? ci_canon d)%N.

Definition lit_ci (s : list N) : regex := lit_with ci_eqb s.

(** *** The matcher *)

Record mstate : Type := MState {
  m_pos : nat;                              (* offset in the subject *)
  m_prev : option N;                        (* the character before it *)
  m_rest : list N;                          (* the subject from it on *)
  m_caps : list (string * (nat * nat))      (* group spans, latest first *)
}.

Definition advance (c : N) (r : list N) (st : mstate) : mstate :=
  {| m_pos := S (m_pos st); m_prev := Some c; m_rest := r; m_caps := m_caps st |}.

Definition set_cap (name : string) (a b : nat) (st : mstate) : mstate :=
  {| m_pos := m_pos st; m_prev := m_prev st; m_rest := m_rest st;
     m_caps := (name, (a, b)) :: m_caps st |}.

Definition word_at (o : option N) : bool :=
  match o with Some c => is_word c | None => false end.

Section Matcher.
Context {R : Type}.

(** One more iteration of a repetition is tried only when the previous
    one consumed input, so [n], the number of characters left when the
    repetition was entered, bounds the iterations exactly. *)
Fixpoint rep_loop (body : mstate -> (mstate -> option R) -> option R)
    (greedy : bool) (n : nat) (st : mstate) (k : mstate -> option R) : option R :=
  match n with
  | 0 => k st
  | S n' =>
      let again (_ : unit) :=
        body st (fun st' =>
          if m_pos st <? m_pos st' then rep_loop body greedy n' st' k else None) in
      if greedy then
        match again tt with Some x => Some x | None => k st end
      else
        match k st with Some x => Some x | None => again tt end
  end.

Fixpoint rmatch (r : regex) (st : mstate) (k : mstate -> option R) : option R :=
  match r with
  | Eps => k st
  | Sym p =>
      match m_rest st with
      | c :: rest => if p c then k (advance c rest st) else None
      | [] => None
      end
  | Cat r1 r2 => rmatch r1 st (fun st' => rmatch r2 st' k)
  | Alt r1 r2 =>
      match rmatch r1 st k with
      | Some x => Some x
      | None => rmatch r2 st k
      end
  | Rep greedy r1 => rep_loop (rmatch r1) greedy (length (m_rest st)) st k
  | Grp name r1 =>
      rmatch r1 st (fun st' => k (set_cap name (m_pos st) (m_pos st') st'))
  | Eol =>
      match m_rest st with
      | [] => k st
      | [c] => if (c =? 10)%N then k st else None
      | _ => None
      end
  | Wordb =>
      if xorb (word_at (m_prev st)) (word_at (head (m_rest st))) then k st else None
  | Behind p =>
      match m_prev st with
      | Some c => if p c then k st else None
      | None => None
      end
  end.
End Matcher.

(** The first match starting exactly at the state's offset. *)
Definition match_here (r : regex) (st : mstate) : option mstate :=
  rmatch r st Some.

(** [pattern.match(s)] *)
Definition re_match (r : regex) (s : list N) : option mstate :=
  match_here r (MState 0 None s []).

(** [m.group(name)] on the subject [s] *)
Definition group (s : list N) (m : mstate) (name : string) : option (list N) :=
  match List.find (fun e => String.eqb (fst e) name) (m_caps m) with
  | Some (_, (a, b)) => Some (slice s (Z.of_nat a) (Z.of_nat b))
  | None => None
  end.

(** [pattern.finditer(s)] as the list of [(m.start(), m.end())]: leftmost
    matches, the search resuming where the previous match ended (one
    character further after an empty match). *)
Fixpoint finditer_from (r : regex) (skip pos : nat) (prev : option N) (l : list N)
    : list (nat * nat) :=
  match skip with
  | S skip' =>
      match l with
      | [] => []
      | c :: l' => finditer_from r skip' (S pos) (Some c) l'
      end
  | 0 =>
      match match_here r (MState pos prev l []) with
      | Some st' =>
          (pos, m_pos st') ::
          match l with
          | [] => []
          | c :: l' => finditer_from r (m_pos st' - pos - 1) (S pos) (Some c) l'
          end
      | None =>
          match l with
          | [] => []
          | c :: l' => finditer_from r 0 (S pos) (Some c) l'
          end
      end
  end.

Definition finditer (r : regex) (s : list N) : list (nat * nat) :=
  finditer_from r 0 0 None s.

(** [pattern.split(s)]: the pieces of [s] between the matches. *)
Fixpoint split_at (s : list N) (from : nat) (spans : list (nat * nat)) : list (list N) :=
  match spans with
  | [] => [slice_from s (Z.of_nat from)]
  | (a, b) :: rest => slice s (Z.of_nat from) (Z.of_nat a) :: split_at s b rest
  end.

Definition re_split (r : regex) (s : list N) : list (list N) :=
  split_at s 0 (finditer r s).

End Re.

(* ===================================================================== *)
(** ** The application (src/app.py) *)
(* ===================================================================== *)

Module Candidate.
Record t : Type := mk {
  id : list N;
  original : list N;
  foreign_norm : list N;
  start : Z;
  end_ : Z;
  context : list N;
  root : list N;
  suffix : list N
}.
End Candidate.

Module App.
Import Py Re.

Definition cats (rs : list regex) : regex := fold_right Cat Eps rs.

Definition normalize_token (tok : str) : str := lower tok.

Definition preserve_casing (original suggestion : str) : str :=
  if isupper original then upper suggestion
  else if isupper (slice_to original 1)
       then upper (slice_to suggestion 1) ++ slice_from suggestion 1
       else suggestion.

Definition is_all_caps (token : str) : bool :=
  isupper token && (2 <=? len token)%Z.

Definition looks_like_proper_noun (original_token : str) (token_index_in_sentence : nat) : bool :=
  match token_index_in_sentence with
  | 0 => false
  | _ => isupper (slice_to original_token 1)
  end.

(** *** Suffix analysis *)

(** [[a-zçğıöşü]] under [re.IGNORECASE] *)
Definition root_class (c : N) : bool :=
  let l := ci_canon c in
  in_range 97 122 l
  || (l =? 231)%N || (l =? 287)%N || (l =? 246)%N || (l =? 351)%N || (l =? 252)%N.

Definition morphemes (l : list string) : regex := alts (map (fun s => lit_ci (u8 s)) l).

(** The alternation of suffix morphemes, in the order of the pattern. *)
Definition TR_SUFFIXES : regex :=
  alts [
    morphemes ["lar"; "ler"];
    morphemes ["ım"; "im"; "um"; "üm"; "m"];
    morphemes ["ın"; "in"; "un"; "ün"; "n"];
    morphemes ["ı"; "i"; "u"; "ü"];
    morphemes ["a"; "e"];
    morphemes ["da"; "de"; "ta"; "te"];
    morphemes ["dan"; "den"; "tan"; "ten"];
    morphemes ["ya"; "ye"];
    morphemes ["ki"];
    morphemes ["dır"; "dir"; "dur"; "dür"; "tır"; "tir"; "tur"; "tür"];
    morphemes ["mış"; "miş"; "muş"; "müş"];
    morphemes ["acak"; "ecek"];
    morphemes ["yı"; "yi"; "yu"; "yü"];
    morphemes ["yla"; "yle"] ]%string.

(** The named group [root] is a greedy [[a-zçğıöşü]+], the named group
    [suffix] a greedy repetition of the alternation, then [$]; the pattern
    is compiled with [re.IGNORECASE]. *)
Definition TR_SUFFIX_RE : regex :=
  cats [ Grp "root" (Plus (Sym root_class));
         Grp "suffix" (Rep true TR_SUFFIXES);
         Eol ].

Definition split_root_suffix (norm : str) : str * str :=
  match re_match TR_SUFFIX_RE norm with
  | None => (norm, [])
  | Some m =>
      (default [] (group norm m "root"), default [] (group norm m "suffix"))
  end.

(** *** The preference store (table [prefs])

    The primary key is [(user_id, foreign_term, suggestion, context_tag)]. *)

Abbreviation prefs_key := (list N * list N * list N * list N)%type.
Abbreviation prefs := (gmap prefs_key Z).

(** A [dict] built from key/value pairs: a later pair replaces an earlier
    one with the same key. *)
Definition dict_of_list {K V} `{Countable K} (l : list (K * V)) : gmap K V :=
  fold_left (fun d kv => <[fst kv := snd kv]> d) l ∅.

(** [INSERT ... ON CONFLICT ... DO UPDATE SET score = score + excluded.score] *)
Definition db_add_score (user_id foreign_term suggestion context_tag : str) (delta : Z)
    (db : prefs) : prefs :=
  let key := (user_id, foreign_term, suggestion, context_tag) in
  match db !! key with
  | Some score => <[key := (score + delta)%Z]> db
  | None => <[key := delta]> db
  end.

(** The [WHERE] clause and the selected columns, on one row. *)
Definition score_row (user_id foreign_term context_tag : str) (row : prefs_key * Z)
    : option (list N * Z) :=
  let '((u, t, s, c), sc) := row in
  if bool_decide (u = user_id ∧ t = foreign_term ∧ c = context_tag)
  then Some (s, sc) else None.

(** [SELECT suggestion, score FROM prefs WHERE user_id=? AND foreign_term=?
    AND context_tag=?] *)
Definition select_scores (user_id foreign_term context_tag : str) (db : prefs)
    : list (list N * Z) :=
  omap (score_row user_id foreign_term context_tag) (map_to_list db).

Definition db_get_scores (user_id foreign_term context_tag : str) (db : prefs)
    : gmap (list N) Z :=
  dict_of_list (select_scores user_id foreign_term context_tag db).

(** *** Application data and detection *)

Definition COMMON_LOANWORDS : gset (list N) :=
  list_to_set (map u8
    ["proje"; "rapor"; "analiz"; "model"; "metod"; "metodoloji"; "test";
     "grafik"; "tablo"; "form"; "format"; "sistem"]%string).

Definition any_char (_ : N) : bool := true.
Definition non_space (c : N) : bool := negb (is_space c).

(** [```.*?```] with [re.DOTALL] *)
Definition CODE_LIKE_RE : regex :=
  cats [lit (u8 "```"); Rep false (Sym any_char); lit (u8 "```")].

(** [https?://\S+] *)
Definition URL_RE : regex :=
  cats [lit (u8 "http"); Opt (lit (u8 "s")); lit (u8 "://"); Plus (Sym non_space)].

(** [\b\S+@\S+\.\S+\b] *)
Definition EMAIL_RE : regex :=
  cats [Wordb; Plus (Sym non_space); lit (u8 "@"); Plus (Sym non_space);
       lit (u8 "."); Plus (Sym non_space); Wordb].

(** [(?<=[.!?])\s+] *)
Definition sentence_end (c : N) : bool := (c =? 46)%N || (c =? 33)%N || (c =? 63)%N.
Definition SENT_SPLIT : regex := cats [Behind sentence_end; Plus (Sym is_space)].

(** [[A-Za-zÇĞİÖŞÜçğıöşü]+(?:['’\-][A-Za-zÇĞİÖŞÜçğıöşü]+)?] *)
Definition token_letter (c : N) : bool := is_upper_cp c || is_lower_cp c.
Definition token_joiner (c : N) : bool := (c =? 39)%N || (c =? 8217)%N || (c =? 45)%N.
Definition TOKEN_RE : regex :=
  cats [Plus (Sym token_letter); Opt (cats [Sym token_joiner; Plus (Sym token_letter)])].

Definition span_ltb (p q : Z * Z) : bool :=
  (fst p <? fst q)%Z || ((fst p =? fst q)%Z && (snd p <? snd q)%Z).

Definition zspans (l : list (nat * nat)) : list (Z * Z) :=
  map (fun p => (Z.of_nat (fst p), Z.of_nat (snd p))) l.

Definition protect_spans (text : str) : list (Z * Z) :=
  let spans :=
    zspans (finditer CODE_LIKE_RE text) ++ zspans (finditer URL_RE text)
    ++ zspans (finditer EMAIL_RE text) in
  sort span_ltb spans.

Definition in_protected (a b : Z) (protected : list (Z * Z)) : bool :=
  existsb (fun p => (fst p <=? a)%Z && (b <=? snd p)%Z) protected.

Fixpoint context_scan (text : str) (idx : Z) (parts : list str) (pos : Z) : str :=
  match parts with
  | [] => strip text
  | p :: rest =>
      let e := (pos + len p)%Z in
      if (pos <=? idx)%Z && (idx <=? e)%Z then strip p
      else context_scan text idx rest (e + 1)%Z
  end.

Definition get_sentence_context (text : str) (idx : Z) : str :=
  context_scan text idx (re_split SENT_SPLIT text) 0%Z.

Definition cand_id (kind : string) (a b : Z) : str :=
  u8 kind ++ u8 ":" ++ str_of_int a ++ u8 ":" ++ str_of_int b.

Fixpoint sentence_offsets (text : str) (sentences : list str) (pos : Z) : list Z :=
  match sentences with
  | [] => []
  | s :: rest =>
      let found := find text s pos in
      let start := if (found =? -1)%Z then pos else found in
      start :: sentence_offsets text rest (start + len s)%Z
  end.

(** The sentences of a text, each with the offset recovered for it by a
    forward search from the end of the previous one. *)
Definition split_sentences (text : str) : list str :=
  match strip text with
  | [] => []
  | stripped => re_split SENT_SPLIT stripped
  end.

Definition located_sentences (text : str) : list (Z * str) :=
  let sentences := split_sentences text in
  combine (sentence_offsets text sentences 0%Z) sentences.

Definition enumerate {A} (l : list A) : list (nat * A) := combine (seq 0 (length l)) l.

(** Overlap resolution: the scan over the sorted candidates. *)
Fixpoint keep_disjoint (cands : list Candidate.t) (last_end : Z) : list Candidate.t :=
  match cands with
  | [] => []
  | c :: rest =>
      if (Candidate.start c <? last_end)%Z then keep_disjoint rest last_end
      else c :: keep_disjoint rest (Candidate.end_ c)
  end.

Definition overlap_key (c : Candidate.t) : Z * Z :=
  (Candidate.start c, - (Candidate.end_ c - Candidate.start c))%Z.

Section Detection.
(** The data files of the deployment, loaded once at start-up. *)
Variable SUGGESTIONS : gmap (list N) (list (list N)).
Variable FOREIGN_TERMS : gset (list N).
Variable WHITELIST : gset (list N).

Definition PHRASES : list str :=
  sort_by Z.ltb len true
    (List.filter (fun t => bool_decide (32%N ∈ t)) (elements FOREIGN_TERMS)).

Definition level_allows (term_norm level : str) : bool :=
  if str_eqb level (u8 "strict") then true
  else if str_eqb level (u8 "balanced")
  then negb (bool_decide (term_norm ∈ COMMON_LOANWORDS))
  else
    let is_ascii := isascii term_norm in
    bool_decide (is_Some (SUGGESTIONS !! term_norm))
    || (is_ascii && (4 <=? len term_norm)%Z).

(** Pass 1: multi-word phrases, searched in the lowercased text. *)
Definition phrase_hit (text : str) (protected : list (Z * Z)) (ph : str)
    (span : nat * nat) : list Candidate.t :=
  let a := Z.of_nat (fst span) in
  let b := Z.of_nat (snd span) in
  if in_protected a b protected then []
  else if existsb (fun w => bool_decide (w ∈ WHITELIST)) (split_ws ph) then []
  else [Candidate.mk (cand_id "ph" a b) (slice text a b) ph a b
          (get_sentence_context text a) ph []].

Definition phrase_candidates (text level : str) (protected : list (Z * Z))
    : list Candidate.t :=
  let lower_text := lower text in
  flat_map (fun ph =>
      if negb (level_allows ph level) then []
      else flat_map (phrase_hit text protected ph) (finditer (lit ph) lower_text))
    PHRASES.

(** Pass 2: single tokens, sentence by sentence. *)
Definition word_hit (level : str) (protected : list (Z * Z)) (s : str) (base : Z)
    (ti : nat) (span : nat * nat) : list Candidate.t :=
  let original := slice s (Z.of_nat (fst span)) (Z.of_nat (snd span)) in
  let a := (base + Z.of_nat (fst span))%Z in
  let b := (base + Z.of_nat (snd span))%Z in
  if in_protected a b protected then []
  else if bool_decide (original ∈ WHITELIST)
          || bool_decide (normalize_token original
                            ∈ (set_map normalize_token WHITELIST : gset (list N)))
  then []
  else if is_all_caps original then []
  else if looks_like_proper_noun original ti then []
  else
    let norm := normalize_token original in
    let '(root, suffix) := split_root_suffix norm in
    let hit :=
      if bool_decide (norm ∈ FOREIGN_TERMS) then Some norm
      else if bool_decide (root ∈ FOREIGN_TERMS) then Some root
      else None in
    match hit with
    | None => []
    | Some [] => []
    | Some h =>
        if negb (level_allows h level) then []
        else [Candidate.mk (cand_id "w" a b) original h a b s root suffix]
    end.

Definition word_candidates (text level : str) (protected : list (Z * Z))
    : list Candidate.t :=
  flat_map (fun '(base, s) =>
      flat_map (fun '(ti, span) => word_hit level protected s base ti span)
        (enumerate (finditer TOKEN_RE s)))
    (located_sentences text).

(** The candidates of both passes, before overlap resolution. *)
Definition candidate_pool (text level : str) : list Candidate.t :=
  let protected := protect_spans text in
  phrase_candidates text level protected ++ word_candidates text level protected.

Definition detect_candidates (text level : str) : list Candidate.t :=
  let cands := sort_by span_ltb overlap_key false (candidate_pool text level) in
  keep_disjoint cands (-1)%Z.

End Detection.

(** *** Ranking *)

Record Ranked : Type := mkRanked { suggestion : list N; score : Z }.

Definition rank_suggestions (db : prefs) (user_id foreign_norm : str)
    (base_suggestions : list str) (context_tag : str) : list Ranked :=
  let scores := db_get_scores user_id foreign_norm context_tag db in
  let items := map (fun s => mkRanked s (default 0%Z (scores !! s))) base_suggestions in
  sort_by Z.ltb score true items.

(** *** Replacement *)

Record Replacement : Type := mkReplacement { r_start : Z; r_end : Z; r_new : list N }.

Definition apply_replacements (text : str) (replacements : list Replacement) : str :=
  let reps := sort_by Z.ltb r_start true replacements in
  fold_left (fun out r => slice_to out (r_start r) ++ r_new r ++ slice_from out (r_end r))
    reps text.

(** *** The two requests *)

Record Item : Type := mkItem {
  i_id : list N;
  i_original : list N;
  i_foreign_norm : list N;
  i_start : Z;
  i_end : Z;
  i_context : list N;
  i_suggestions : list Ranked
}.

Record Report : Type := mkReport {
  candidates_found : nat;
  unique_foreign_terms : nat;
  level : list N
}.

Record Choice : Type := mkChoice {
  candidate_id : list N;
  chosen : option (list N);
  rejected : list (list N)
}.

Record ApplyResult : Type := mkApplyResult {
  new_text : list N;
  applied_count : nat;
  report : Report
}.

Section Requests.
Variable SUGGESTIONS : gmap (list N) (list (list N)).
Variable FOREIGN_TERMS : gset (list N).
Variable WHITELIST : gset (list N).

Definition analyze (db : prefs) (user_id text context_tag lvl : str)
    : list Item * Report :=
  let cands := detect_candidates SUGGESTIONS FOREIGN_TERMS WHITELIST text lvl in
  let results :=
    map (fun c =>
           let base := default [] (SUGGESTIONS !! Candidate.foreign_norm c) in
           let ranked :=
             rank_suggestions db user_id (Candidate.foreign_norm c) base context_tag in
           mkItem (Candidate.id c) (Candidate.original c) (Candidate.foreign_norm c)
             (Candidate.start c) (Candidate.end_ c) (Candidate.context c) ranked)
        cands in
  (results,
   mkReport (length results)
     (size (list_to_set (map i_foreign_norm results) : gset (list N))) lvl).

(** One [Choice] of an apply request: the rejected suggestions lose a
    point each, the chosen one gains two and is queued for replacement. *)
Definition apply_choice (user_id context_tag : str) (items : gmap (list N) Item)
    (acc : prefs * list Replacement) (ch : Choice) : prefs * list Replacement :=
  let '(db, replacements) := acc in
  match items !! candidate_id ch with
  | None => acc
  | Some it =>
      let foreign := i_foreign_norm it in
      let original := i_original it in
      let db1 :=
        fold_left (fun d r =>
            match r with
            | [] => d
            | _ => db_add_score user_id foreign r context_tag (-1) d
            end)
          (rejected ch) db in
      match chosen ch with
      | None | Some [] => (db1, replacements)
      | Some sel =>
          let db2 := db_add_score user_id foreign sel context_tag 2 db1 in
          let new_word := preserve_casing original sel in
          (db2, replacements ++ [mkReplacement (i_start it) (i_end it) new_word])
      end
  end.

Definition apply (db : prefs) (user_id text context_tag lvl : str)
    (choices : list Choice) : prefs * ApplyResult :=
  let analyzed := analyze db user_id text context_tag lvl in
  let items := dict_of_list (map (fun it => (i_id it, it)) (fst analyzed)) in
  let '(db', replacements) :=
    fold_left (apply_choice user_id context_tag items) choices (db, []) in
  (db', mkApplyResult (apply_replacements text replacements) (length replacements)
          (snd analyzed)).

End Requests.

End App.

(* ===================================================================== *)
(** ** Vocabulary of the statements *)
(* ===================================================================== *)

Module Spec.
Import Py Re App.

(** *** The matcher *)

(** A successful match hands a state that is not before the starting one
    to its continuation. *)
Definition forward {R} (f : mstate -> (mstate -> option R) -> option R) : Prop :=
  forall st k x, f st k = Some x ->
    exists st', m_pos st <= m_pos st' /\ k st' = Some x.

(** The state after reading all of [l]. *)
Fixpoint consume (l : list N) (st : mstate) : mstate :=
  match l with
  | [] => st
  | c :: r => consume r (advance c r st)
  end.

(** The state after reading [l] when [tail] follows it in the subject. *)
Fixpoint consume_before (tail l : list N) (st : mstate) : mstate :=
  match l with
  | [] => st
  | c :: r => consume_before tail r (advance c (r ++ tail) st)
  end.

(** A pattern that reads characters of the class [cls] only and has no
    anchors or lookarounds. *)
Fixpoint class_only (cls : N -> bool) (r : regex) : Prop :=
  match r with
  | Eps => True
  | Sym p => forall c, p c = true -> cls c = true
  | Cat r1 r2 | Alt r1 r2 => class_only cls r1 /\ class_only cls r2
  | Rep _ r1 | Grp _ r1 => class_only cls r1
  | Eol | Wordb | Behind _ => False
  end.

(** A matcher stopped by the character [d]: a success hands over a state
    that has read some of the characters before [d] and not [d] itself. *)
Definition blocked_at {R} (d : N) (rest : list N)
    (f : mstate -> (mstate -> option R) -> option R) : Prop :=
  forall st k x q, m_rest st = q ++ d :: rest -> f st k = Some x ->
    exists st' q1 q2,
      q = q1 ++ q2 /\ m_rest st' = q2 ++ d :: rest
      /\ m_pos st' = m_pos st + length q1 /\ k st' = Some x.

(** A pattern whose character tests all imply the class [cls]; anchors
    and lookarounds are allowed. *)
Fixpoint reads_only (cls : N -> bool) (r : regex) : Prop :=
  match r with
  | Eps | Eol | Wordb | Behind _ => True
  | Sym p => forall c, p c = true -> cls c = true
  | Cat r1 r2 | Alt r1 r2 => reads_only cls r1 /\ reads_only cls r2
  | Rep _ r1 | Grp _ r1 => reads_only cls r1
  end.

(** A matcher that hands over a state reached by reading from the
    subject a stretch of characters with the property [P]. *)
Definition reads {R} (P : list N -> Prop)
    (f : mstate -> (mstate -> option R) -> option R) : Prop :=
  forall st k x, f st k = Some x ->
    exists st' q,
      m_rest st = q ++ m_rest st' /\ P q
      /\ m_pos st' = m_pos st + length q /\ k st' = Some x.

(** Every character of a string is of the class [cls]. *)
Definition all_of (cls : N -> bool) (q : list N) : Prop := forallb cls q = true.

(** The lowercase form of a character that has a one-character one. *)
Definition lower1 (c : N) : N := hd c (lower_cp c).

(** The characters a token is made of. *)
Definition token_char (c : N) : bool := token_letter c || token_joiner c.

(** Spans listed from left to right inside a subject of length [n]: each
    starts at or after [from] and the end of the one before it. *)
Fixpoint chain (from n : nat) (spans : list (nat * nat)) : Prop :=
  match spans with
  | [] => True
  | (a, b) :: rest => from <= a /\ a <= b /\ b <= n /\ chain b n rest
  end.

(** [sub] occurs in [s] at offset [i]. *)
Definition occurs_at (s : list N) (i : nat) (sub : list N) : Prop :=
  exists pre tail, s = pre ++ sub ++ tail /\ length pre = i.

(** The pieces occur in [s] one after the other, the first one at or
    after [pos]. *)
Fixpoint in_order (s : list N) (pos : nat) (pieces : list (list N)) : Prop :=
  match pieces with
  | [] => True
  | p :: rest =>
      exists i, pos <= i /\ occurs_at s i p /\ in_order s (i + length p) rest
  end.

(** *** Ranking and casing *)

(** The comparison [items.sort(key=score, reverse=True)] sorts with. *)
Definition score_ltb_desc (y x : Ranked) : bool := (score x <? score y)%Z.

(** The rule in the words of the specification, section 4.8: the whole
    suggestion is uppercased only for an original that is entirely
    uppercase and at least two characters long. *)
Definition preserve_casing_spec (original suggestion : str) : str :=
  if isupper original && (2 <=? len original)%Z then upper suggestion
  else if isupper (slice_to original 1)
       then upper (slice_to suggestion 1) ++ slice_from suggestion 1
       else suggestion.

(** *** Candidates *)

(** Each candidate ends before every later one starts. *)
Fixpoint ordered_disjoint (l : list Candidate.t) : Prop :=
  match l with
  | [] => True
  | c :: r =>
      List.Forall (fun d => (Candidate.end_ c <= Candidate.start d)%Z) r
      /\ ordered_disjoint r
  end.

Definition well_formed_span (c : Candidate.t) : Prop :=
  (Candidate.start c <= Candidate.end_ c)%Z.

Definition is_word_candidate (c : Candidate.t) : bool :=
  starts_with (u8 "w:") (Candidate.id c).

Definition is_phrase_candidate (c : Candidate.t) : bool :=
  starts_with (u8 "ph:") (Candidate.id c).

Definition nth_candidate (l : list Candidate.t) (i : nat) : Candidate.t :=
  nth i l (Candidate.mk [] [] [] 0 0 [] [] []).

Section Origin.
Variable SUGGESTIONS : gmap (list N) (list (list N)).
Variable FOREIGN_TERMS : gset (list N).
Variable WHITELIST : gset (list N).

(** The lexicon entry a token is matched against: the whole normalized
    token first, else the root given by the suffix analyzer. *)
Definition lexicon_hit (norm : str) : option str :=
  if bool_decide (norm ∈ FOREIGN_TERMS) then Some norm
  else if bool_decide ((split_root_suffix norm).1 ∈ FOREIGN_TERMS)
       then Some (split_root_suffix norm).1
       else None.

(** Where a candidate of the pool comes from. *)
Inductive origin (text lvl : str) (c : Candidate.t) : Prop :=
| from_phrase (ph : str) (span : nat * nat) :
    In ph (PHRASES FOREIGN_TERMS) -> level_allows SUGGESTIONS ph lvl = true ->
    In span (finditer (lit ph) (lower text)) ->
    In c (phrase_hit WHITELIST text (protect_spans text) ph span) ->
    origin text lvl c
| from_word (base : Z) (s : str) (ti : nat) (span : nat * nat) :
    In (base, s) (located_sentences text) ->
    In (ti, span) (enumerate (finditer TOKEN_RE s)) ->
    In c (word_hit SUGGESTIONS FOREIGN_TERMS WHITELIST lvl (protect_spans text) s base ti span) ->
    origin text lvl c.

End Origin.

(** *** Requests *)

(** The items of the re-analysis an apply request looks its choices up
    in, keyed by candidate id. *)
Definition request_items (SUGGESTIONS : gmap (list N) (list (list N)))
    (FOREIGN_TERMS WHITELIST : gset (list N)) (db : prefs)
    (user_id text context_tag lvl : str) : gmap (list N) Item :=
  dict_of_list
    (map (fun it => (i_id it, it))
       (fst (analyze SUGGESTIONS FOREIGN_TERMS WHITELIST db user_id text context_tag lvl))).

(** Replacements listed by position: each span is non-empty, starts at
    or after [from] and the end of the one before it, and the last one ends
    inside a text of length [n]. *)
Fixpoint spans_in_order (from n : Z) (reps : list Replacement) : Prop :=
  match reps with
  | [] => (from <= n)%Z
  | r :: rest =>
      (from <= r_start r)%Z /\ (r_start r < r_end r)%Z /\ spans_in_order (r_end r) n rest
  end.

(** The text from [from] on with each span replaced by its new word, the
    stretches between the spans copied. *)
Fixpoint spliced (text : list N) (from : Z) (reps : list Replacement) : list N :=
  match reps with
  | [] => slice_from text from
  | r :: rest => slice text from (r_start r) ++ r_new r ++ spliced text (r_end r) rest
  end.

(** The number a string of decimal digits denotes. *)
Definition is_digit (d : N) : bool := in_range 48 57 d.
Definition digits_value (ds : list N) : N :=
  fold_left (fun v d => (10 * v + (d - 48))%N) ds 0%N.

(** The replacement an apply request makes for a candidate: that of the
    first choice that names the candidate, when it has a non-empty chosen
    suggestion. *)
Definition chosen_replacement (choices : list Choice) (c : Candidate.t)
    : option Replacement :=
  match List.find (fun ch => bool_decide (candidate_id ch = Candidate.id c)) choices with
  | Some ch =>
      match chosen ch with
      | Some (x :: sel) =>
          Some (mkReplacement (Candidate.start c) (Candidate.end_ c)
                  (preserve_casing (Candidate.original c) (x :: sel)))
      | _ => None
      end
  | None => None
  end.

(** The replacement [apply] queues for one choice, given the items of
    its re-analysis. *)
Definition made_replacement (items : gmap (list N) Item) (ch : Choice)
    : option Replacement :=
  match items !! candidate_id ch with
  | Some it =>
      match chosen ch with
      | Some (x :: sel) =>
          Some (mkReplacement (i_start it) (i_end it)
                  (preserve_casing (i_original it) (x :: sel)))
      | _ => None
      end
  | None => None
  end.

Definition expected_replacements (cands : list Candidate.t) (choices : list Choice)
    : list Replacement :=
  omap (chosen_replacement choices) cands.

(** How often a suggestion occurs among the rejected ones of a choice. *)
Definition times_rejected (s : list N) (rejected : list (list N)) : nat :=
  length (List.filter (fun r => bool_decide (r = s)) rejected).

End Spec.

(* ===================================================================== *)
(** ** Concrete inputs *)
(* ===================================================================== *)

Module Examples.
Import Py.

Definition lexicon (terms : list string) : gset (list N) := list_to_set (map u8 terms).

(** The end-to-end example of the specification. *)
Definition report_text : list N := u8 "Projenin performansını optimize ettik.".
Definition report_lexicon : gset (list N) := lexicon ["performans"; "optimize"]%string.

(** The same text with a whitelist that protects the acronym "API", and
    the first candidate detected in it. *)
Definition api_whitelist : gset (list N) := lexicon ["API"]%string.
Definition report_candidate : Candidate.t :=
  Spec.nth_candidate
    (App.detect_candidates ∅ report_lexicon api_whitelist report_text (u8 "strict")) 0.

(** The item of that example's only candidate at level "balanced" with an
    empty dictionary and store, and a choice that picks one suggestion for
    it and rejects another twice, with an empty string in between. *)
Definition report_item : App.Item :=
  App.mkItem (u8 "w:23:31") (u8 "optimize") (u8 "optimize") 23 31 report_text [].
Definition report_choice : App.Choice :=
  App.mkChoice (u8 "w:23:31") (Some (u8 "eniyilemek"))
    [u8 "iyileştirmek"; []; u8 "iyileştirmek"].

(** A phrase that is itself on the whitelist. *)
Definition ml_text : list N := u8 "machine learning".
Definition ml_lexicon : gset (list N) := lexicon ["machine learning"]%string.

(** The candidate that phrase gives with no whitelist. *)
Definition ml_candidate : Candidate.t :=
  Spec.nth_candidate (App.detect_candidates ∅ ml_lexicon ∅ ml_text (u8 "strict")) 0.

(** The same phrase after a dotted capital I, whose lowercase form is
    two code points long. *)
Definition dotted_text : list N := u8 "İ machine learning".

(** A common loanword that is plain ASCII of length five. *)
Definition proje_text : list N := u8 "proje".
Definition proje_lexicon : gset (list N) := lexicon ["proje"]%string.

(** A phrase that starts inside a token. *)
Definition model_text : list N := u8 "model art".
Definition model_lexicon : gset (list N) := lexicon ["model"; "el art"]%string.

(** The phrase candidate of that text, which the token displaces at "strict". *)
Definition model_phrase_candidate : Candidate.t :=
  Spec.nth_candidate (App.candidate_pool ∅ model_lexicon ∅ model_text (u8 "strict")) 0.
End Examples.


(* ===================================================================== *)
(** ** Properties of the matcher *)
(* ===================================================================== *)

Module ReFacts.
Import Py Re Spec.

Lemma rep_loop_forward {R} (body : mstate -> (mstate -> option R) -> option R) g n :
  forward body -> forward (rep_loop body g n).
Proof.
  intros Hb. induction n as [|n IH]; intros st k x H; simpl in H.
  - exists st. split; [lia | exact H].
  - assert (Hagain : body st (fun st' =>
        if m_pos st <? m_pos st' then rep_loop body g n st' k else None) = Some x ->
        exists st', m_pos st <= m_pos st' /\ k st' = Some x).
    { intros Ha. apply Hb in Ha. destruct Ha as (st1 & Hle & Hk).
      destruct (m_pos st <? m_pos st1) eqn:E; [|discriminate].
      apply IH in Hk. destruct Hk as (st2 & Hle2 & Hk2).
      exists st2. split; [lia | exact Hk2]. }
    destruct g.
    + destruct (body st _) eqn:E.
      * apply Hagain. congruence.
      * exists st. split; [lia | exact H].
    + destruct (k st) eqn:E.
      * exists st. split; [lia | congruence].
      * apply Hagain. exact H.
Qed.

Lemma rmatch_forward {R} (r : regex) : forward (rmatch (R:=R) r).
Proof.
  induction r; intros st k x H; simpl in H.
  - exists st. split; [lia | exact H].
  - destruct (m_rest st) as [|c rest] eqn:E; [discriminate|].
    destruct (p c); [|discriminate].
    exists (advance c rest st). split; [simpl; lia | exact H].
  - apply IHr1 in H. destruct H as (st1 & Hle1 & H).
    apply IHr2 in H. destruct H as (st2 & Hle2 & H).
    exists st2. split; [lia | exact H].
  - destruct (rmatch r1 st k) eqn:E.
    + apply IHr1. congruence.
    + apply IHr2. exact H.
  - apply (rep_loop_forward _ _ _ IHr) in H. exact H.
  - apply IHr in H. destruct H as (st1 & Hle & H).
    exists (set_cap name (m_pos st) (m_pos st1) st1). split; [simpl; lia | exact H].
  - exists st. split; [lia|].
    destruct (m_rest st) as [|c [|d rest]]; try discriminate; [exact H|].
    destruct (c =? 10)%N; [exact H | discriminate].
  - destruct (xorb _ _); [|discriminate]. exists st. split; [lia | exact H].
  - destruct (m_prev st) as [c|]; [|discriminate].
    destruct (p c); [|discriminate]. exists st. split; [lia | exact H].
Qed.

Lemma match_here_forward r st st' :
  match_here r st = Some st' -> m_pos st <= m_pos st'.
Proof.
  unfold match_here. intros H. apply rmatch_forward in H.
  destruct H as (st1 & Hle & H). congruence.
Qed.

(** Every span reported by [finditer] is well-formed and lies at or after
    the offset the search started from. *)
Lemma finditer_from_spans r l : forall skip pos prev a b,
  In (a, b) (finditer_from r skip pos prev l) -> pos <= a /\ a <= b.
Proof.
  induction l as [|c l IH]; intros skip pos prev a b H.
  - destruct skip; simpl in H; [|contradiction].
    destruct (match_here r _) as [st'|] eqn:E; [|contradiction].
    destruct H as [H|[]]. inversion H; subst.
    apply match_here_forward in E. simpl in E. lia.
  - destruct skip; simpl in H.
    + destruct (match_here r _) as [st'|] eqn:E.
      * destruct H as [H|H].
        -- inversion H; subst. apply match_here_forward in E. simpl in E. lia.
        -- apply IH in H. lia.
      * apply IH in H. lia.
    + apply IH in H. lia.
Qed.

Lemma finditer_spans r s a b : In (a, b) (finditer r s) -> a <= b.
Proof. intros H. apply finditer_from_spans in H. lia. Qed.

Lemma consume_pos l : forall st, m_pos (consume l st) = m_pos st + length l.
Proof. induction l as [|c l IH]; intros st; simpl; [lia | rewrite IH; simpl; lia]. Qed.

Lemma consume_rest l : forall st, m_rest st = l -> m_rest (consume l st) = [].
Proof. induction l as [|c l IH]; intros st H; simpl; [exact H | apply IH; reflexivity]. Qed.

Lemma consume_caps l : forall st, m_caps (consume l st) = m_caps st.
Proof. induction l as [|c l IH]; intros st; simpl; [reflexivity | rewrite IH; reflexivity]. Qed.

(** On a subject made of class characters only, the greedy repetition
    first takes all of it; if the rest of the pattern accepts there, that
    is the match. *)
Lemma rep_class_takes_all {R} (p : N -> bool) l : forall st (k : mstate -> option R) x,
  m_rest st = l -> forallb p l = true -> k (consume l st) = Some x ->
  rep_loop (rmatch (Sym p)) true (length l) st k = Some x.
Proof.
  induction l as [|c l IH]; intros st k x Hrest Hall Hk; simpl.
  - exact Hk.
  - simpl in Hall. apply andb_true_iff in Hall. destruct Hall as [Hc Hl].
    rewrite Hrest, Hc. simpl m_pos.
    replace (m_pos st <? S (m_pos st)) with true by (symmetry; apply Nat.ltb_lt; lia).
    change (fun (st0 : mstate) (k0 : mstate -> option R) =>
              match m_rest st0 with
              | [] => None
              | c0 :: rest => if p c0 then k0 (advance c0 rest st0) else None
              end) with (rmatch (R:=R) (Sym p)).
    rewrite (IH (advance c l st) k x); [reflexivity | reflexivity | exact Hl | exact Hk].
Qed.

End ReFacts.

(* ===================================================================== *)
(** ** Properties of the Python primitives *)
(* ===================================================================== *)

Module PyFacts.
Import Py.

Lemma slice_whole {A} (s : list A) : slice s 0 (Z.of_nat (length s)) = s.
Proof.
  unfold slice, clamp_index. simpl (0 <? 0)%Z. cbv iota.
  destruct (Z.of_nat (length s) <? 0)%Z eqn:E; [apply Z.ltb_lt in E; lia|].
  rewrite Z.min_id, Z.min_l by lia.
  rewrite Z.sub_0_r, Nat2Z.id. simpl. apply firstn_all.
Qed.

Lemma slice_empty {A} (s : list A) (a : Z) : slice s a a = [].
Proof. unfold slice. rewrite Z.sub_diag. reflexivity. Qed.

Section SortFacts.
Context {A : Type} (lt : A -> A -> bool).

Lemma insert_sorted_perm x l : Permutation (x :: l) (insert_sorted lt x l).
Proof.
  induction l as [|y l IH]; simpl; [reflexivity|].
  destruct (lt y x); [|reflexivity].
  rewrite perm_swap. constructor. exact IH.
Qed.

Lemma sort_perm l : Permutation l (sort lt l).
Proof.
  induction l as [|x l IH]; simpl; [reflexivity|].
  rewrite <- insert_sorted_perm. constructor. exact IH.
Qed.

Lemma sort_In l x : In x (sort lt l) <-> In x l.
Proof.
  split; intros H.
  - eapply Permutation_in; [symmetry; apply sort_perm | exact H].
  - eapply Permutation_in; [apply sort_perm | exact H].
Qed.

Lemma sort_Forall (P : A -> Prop) l : Forall P l -> Forall P (sort lt l).
Proof.
  rewrite !List.Forall_forall. intros H x Hx.
  apply H. apply (proj1 (sort_In l x)). exact Hx.
Qed.

(** Stability: when no element is smaller than another, nothing moves. *)
Lemma sort_no_lt l :
  (forall x y, In x l -> In y l -> lt y x = false) -> sort lt l = l.
Proof.
  induction l as [|x l IH]; intros H; simpl; [reflexivity|].
  rewrite IH by (intros a b Ha Hb; apply H; right; assumption).
  destruct l as [|y l]; simpl; [reflexivity|].
  rewrite H; [reflexivity | left; reflexivity | right; left; reflexivity].
Qed.
End SortFacts.

End PyFacts.

(* ===================================================================== *)
(** ** The suffix analyzer *)
(* ===================================================================== *)

Import Py Re App Spec Examples ReFacts PyFacts.

(** The rest of [TR_SUFFIX_RE] after the root group, at the end of the
    subject: the suffix group matches the empty string there. *)
Lemma suffix_tail_at_end (alt : regex) (st : mstate) :
  m_rest st = [] ->
  rmatch (cats [Grp "suffix" (Rep true alt); Eol]) st Some
  = Some (set_cap "suffix" (m_pos st) (m_pos st) st).
Proof.
  intros H. cbn [cats fold_right rmatch]. rewrite H. cbn [length rep_loop].
  cbn [set_cap m_rest]. rewrite H. reflexivity.
Qed.

Lemma rmatch_sym_cons {R} (p : N -> bool) c r st (k : mstate -> option R) :
  m_rest st = c :: r -> p c = true -> rmatch (Sym p) st k = k (advance c r st).
Proof. intros Hr Hp. simpl. rewrite Hr, Hp. reflexivity. Qed.

(** On every non-empty token made of letters of the root class, the greedy
    root group takes the whole token and no suffix is ever split off. *)
Lemma split_root_suffix_whole (norm : str) :
  norm <> [] -> forallb root_class norm = true ->
  split_root_suffix norm = (norm, []).
Proof.
  intros Hne Hall. destruct norm as [|c l]; [congruence|].
  simpl in Hall. apply andb_true_iff in Hall. destruct Hall as [Hc Hl].
  unfold split_root_suffix, re_match, match_here, TR_SUFFIX_RE.
  set (st1 := advance c l (MState 0 None (c :: l) [])).
  set (fin := set_cap "suffix" (S (length l)) (S (length l))
                (set_cap "root" 0 (S (length l)) (consume l st1))).
  assert (Hm : rmatch
      (cats [Grp "root" (Plus (Sym root_class)); Grp "suffix" (Rep true TR_SUFFIXES); Eol])
      (MState 0 None (c :: l) []) Some = Some fin).
  { change (rmatch (Sym root_class) (MState 0 None (c :: l) [])
              (fun s1 => rep_loop (rmatch (Sym root_class)) true (length (m_rest s1)) s1
                 (fun s2 => rmatch (cats [Grp "suffix" (Rep true TR_SUFFIXES); Eol])
                              (set_cap "root" 0 (m_pos s2) s2) Some)) = Some fin).
    rewrite (rmatch_sym_cons root_class c l) by (reflexivity || exact Hc).
    fold st1. change (m_rest st1) with l.
    apply rep_class_takes_all; [reflexivity | exact Hl |].
    rewrite suffix_tail_at_end by (apply consume_rest; reflexivity).
    unfold fin. cbn [set_cap m_pos]. rewrite consume_pos. reflexivity. }
  rewrite Hm. unfold fin, group. cbn [set_cap m_caps List.find fst].
  change (String.eqb "suffix" "root") with false.
  change (String.eqb "root" "root") with true.
  change (String.eqb "suffix" "suffix") with true.
  cbv iota beta.
  change (slice (c :: l) (Z.of_nat 0) (Z.of_nat (S (length l))))
    with (slice (c :: l) 0 (Z.of_nat (length (c :: l)))).
  rewrite slice_whole, slice_empty. reflexivity.
Qed.

(** C1, on the code as written: on the token "performansı" the analyzer
    returns the whole token as the root and an empty suffix; the ending
    "ı" is not split off, so the result is not ("performans", "ı"). *)
Theorem split_root_suffix_performansi :
  split_root_suffix (u8 "performansı") = (u8 "performansı", [])
  /\ split_root_suffix (u8 "performansı") <> (u8 "performans", u8 "ı").
Proof. split; [vm_compute; reflexivity | vm_compute; discriminate]. Qed.

(* ===================================================================== *)
(** ** The preference store *)
(* ===================================================================== *)

Lemma dict_of_list_rev {K V} `{Countable K} (l : list (K * V)) :
  dict_of_list l = list_to_map (rev l).
Proof.
  unfold dict_of_list. rewrite <- fold_left_rev_right.
  induction (rev l) as [|p r IH]; simpl; [reflexivity|].
  rewrite IH. reflexivity.
Qed.

Lemma dict_of_list_lookup {K V} `{Countable K} (l : list (K * V)) k v :
  NoDup (l.*1) -> dict_of_list l !! k = Some v <-> (k, v) ∈ l.
Proof.
  intros Hnd. rewrite dict_of_list_rev, rev_alt.
  change (rev_append l []) with (reverse l).
  rewrite <- elem_of_list_to_map.
  - apply elem_of_reverse.
  - rewrite fmap_reverse, reverse_Permutation. exact Hnd.
Qed.

Section Store.
Variables user_id foreign_term context_tag : list N.

Local Abbreviation pick := (score_row user_id foreign_term context_tag).

Lemma pick_Some row s sc :
  pick row = Some (s, sc) <-> row = ((user_id, foreign_term, s, context_tag), sc).
Proof.
  destruct row as [[[[u t] s'] c] sc']. unfold score_row.
  case_bool_decide as Hd.
  - destruct Hd as (-> & -> & ->). split; intros E; inversion E; reflexivity.
  - split; [discriminate|]. intros E. inversion E; subst. exfalso. apply Hd. auto.
Qed.

Lemma select_scores_elem (db : prefs) s sc :
  (s, sc) ∈ select_scores user_id foreign_term context_tag db
  <-> db !! (user_id, foreign_term, s, context_tag) = Some sc.
Proof.
  unfold select_scores. rewrite list_elem_of_omap. split.
  - intros (row & Hin & Hp). apply pick_Some in Hp. subst row.
    apply elem_of_map_to_list in Hin. exact Hin.
  - intros Hl. exists ((user_id, foreign_term, s, context_tag), sc).
    split; [apply elem_of_map_to_list; exact Hl | apply pick_Some; reflexivity].
Qed.

Lemma omap_pick_NoDup (l : list (prefs_key * Z)) :
  NoDup (l.*1) -> NoDup ((omap pick l).*1).
Proof.
  induction l as [|row l IH]; simpl; intros Hnd; [constructor|].
  apply NoDup_cons in Hnd. destruct Hnd as [Hnotin Hnd].
  destruct (pick row) as [[s sc]|] eqn:Hp; [|apply IH; exact Hnd].
  simpl. apply NoDup_cons. split; [|apply IH; exact Hnd].
  intros Hin. apply list_elem_of_fmap in Hin. destruct Hin as ([s' sc'] & Heq & Hin).
  simpl in Heq. subst s'. apply list_elem_of_omap in Hin.
  destruct Hin as (row' & Hin' & Hp'). apply pick_Some in Hp, Hp'. subst row row'.
  apply Hnotin. simpl. apply list_elem_of_fmap.
  exists ((user_id, foreign_term, s, context_tag), sc'). split; [reflexivity | exact Hin'].
Qed.

(** [db_get_scores] reads exactly the rows of its key prefix. *)
Lemma db_get_scores_lookup (db : prefs) s :
  db_get_scores user_id foreign_term context_tag db !! s
  = db !! (user_id, foreign_term, s, context_tag).
Proof.
  apply option_eq. intros sc. unfold db_get_scores.
  rewrite dict_of_list_lookup.
  - apply select_scores_elem.
  - unfold select_scores. apply omap_pick_NoDup.
    apply NoDup_fst_map_to_list.
Qed.
End Store.

Lemma db_add_score_same (u t s c : list N) (delta : Z) (db : prefs) :
  db_add_score u t s c delta db !! (u, t, s, c)
  = Some (default 0%Z (db !! (u, t, s, c)) + delta)%Z.
Proof.
  unfold db_add_score. destruct (db !! (u, t, s, c)) as [sc|] eqn:E; simpl.
  - apply lookup_insert_eq.
  - rewrite lookup_insert_eq. reflexivity.
Qed.

Lemma db_add_score_other (u t s c : list N) (delta : Z) (db : prefs) (key : prefs_key) :
  key <> (u, t, s, c) -> db_add_score u t s c delta db !! key = db !! key.
Proof.
  intros Hne. unfold db_add_score.
  destruct (db !! (u, t, s, c)); apply lookup_insert_ne; congruence.
Qed.

(** C8: scores accumulate additively per exact composite key.  From a
    state with no row for the key (u,t,s,c), adding +2 and then -1 makes
    [db_get_scores u t c] map [s] to 1; in general an update adds its
    delta to the stored score (0 when there is no row) and leaves every
    other suggestion of the prefix untouched.  A key never scored has no
    entry in [db_get_scores], and the caller, [rank_suggestions], gives it
    the score 0. *)
Theorem prefs_accumulate (db : prefs) (u t s c : list N) :
  db !! (u, t, s, c) = None ->
  db_get_scores u t c (db_add_score u t s c (-1) (db_add_score u t s c 2 db)) !! s
    = Some 1%Z
  /\ (forall (d : prefs) (delta : Z),
        db_get_scores u t c (db_add_score u t s c delta d) !! s
        = Some (default 0 (db_get_scores u t c d !! s) + delta)%Z)
  /\ (forall (d : prefs) (delta : Z) (s' : list N), s' <> s ->
        db_get_scores u t c (db_add_score u t s c delta d) !! s'
        = db_get_scores u t c d !! s')
  /\ db_get_scores u t c db !! s = None
  /\ (forall base, In s base -> In (mkRanked s 0) (rank_suggestions db u t base c)).
Proof.
  intros Hnone. repeat split.
  - rewrite db_get_scores_lookup, !db_add_score_same, Hnone. reflexivity.
  - intros d delta. rewrite !db_get_scores_lookup. apply db_add_score_same.
  - intros d delta s' Hne. rewrite !db_get_scores_lookup.
    apply db_add_score_other. congruence.
  - rewrite db_get_scores_lookup. exact Hnone.
  - intros base Hin. unfold rank_suggestions, sort_by. apply sort_In.
    apply in_map_iff. exists s. split; [|exact Hin].
    rewrite db_get_scores_lookup, Hnone. reflexivity.
Qed.

Lemma prefs_accumulate_witness :
  db_get_scores (u8 "u") (u8 "api") (u8 "akademik")
    (db_add_score (u8 "u") (u8 "api") (u8 "arayüz") (u8 "akademik") (-1)
       (db_add_score (u8 "u") (u8 "api") (u8 "arayüz") (u8 "akademik") 2 ∅))
    !! u8 "arayüz" = Some 1%Z.
Proof.
  apply (prefs_accumulate ∅ (u8 "u") (u8 "api") (u8 "arayüz") (u8 "akademik")).
  reflexivity.
Defined.

(* ===================================================================== *)
(** ** Ranking *)
(* ===================================================================== *)

Lemma insert_desc_sorted x l :
  StronglySorted (fun a b => (score b <= score a)%Z) l ->
  StronglySorted (fun a b => (score b <= score a)%Z) (insert_sorted score_ltb_desc x l).
Proof.
  induction 1 as [|y l Hs IH Hall]; simpl.
  - repeat constructor.
  - unfold score_ltb_desc at 1. destruct (score x <? score y)%Z eqn:E.
    + apply Z.ltb_lt in E. constructor; [exact IH|].
      rewrite List.Forall_forall in *. intros z Hz.
      apply (Permutation_in _ (Permutation_sym (insert_sorted_perm _ x l))) in Hz.
      destruct Hz as [<-|Hz]; [lia | apply Hall; exact Hz].
    + apply Z.ltb_ge in E. constructor; [constructor; assumption|].
      constructor; [exact E|].
      rewrite List.Forall_forall in *. intros z Hz. specialize (Hall z Hz). lia.
Qed.

Lemma insert_desc_stable v x l :
  List.filter (fun r => (score r =? v)%Z) (insert_sorted score_ltb_desc x l)
  = List.filter (fun r => (score r =? v)%Z) (x :: l).
Proof.
  induction l as [|y l IH]; [reflexivity|].
  cbn [insert_sorted]. unfold score_ltb_desc at 1.
  destruct (score x <? score y)%Z eqn:E; [|reflexivity].
  apply Z.ltb_lt in E. cbn [List.filter] in *. rewrite IH.
  destruct (score y =? v)%Z eqn:Ey, (score x =? v)%Z eqn:Ex; try reflexivity.
  apply Z.eqb_eq in Ey, Ex. lia.
Qed.

(** C9: ranking is a stable descending sort by learned score over the base
    list: the output is in descending score order, the suggestions of any
    one score keep their base order, and when all looked-up scores are
    equal (all zero when nothing was ever scored) the ranked order is the
    base order exactly. *)
Theorem rank_suggestions_stable (db : prefs) (u t c : list N) (base : list (list N)) :
  let items := map (fun s => mkRanked s (default 0%Z (db !! (u, t, s, c)))) base in
  let ranked := rank_suggestions db u t base c in
  StronglySorted (fun a b => (score b <= score a)%Z) ranked
  /\ (forall v, List.filter (fun r => (score r =? v)%Z) ranked
                = List.filter (fun r => (score r =? v)%Z) items)
  /\ ((forall s1 s2, In s1 base -> In s2 base ->
         default 0%Z (db !! (u, t, s1, c)) = default 0%Z (db !! (u, t, s2, c))) ->
      ranked = items /\ map suggestion ranked = base).
Proof.
  intros items ranked.
  assert (Hr : ranked = sort score_ltb_desc items).
  { unfold ranked, rank_suggestions, sort_by, items. f_equal.
    apply map_ext. intros s. rewrite db_get_scores_lookup. reflexivity. }
  rewrite Hr. clear Hr ranked. split; [|split].
  - induction items as [|x l IH]; simpl; [constructor | apply insert_desc_sorted, IH].
  - intros v. induction items as [|x l IH]; [reflexivity|].
    cbn [sort fold_right]. rewrite insert_desc_stable.
    cbn [List.filter]. fold (sort score_ltb_desc l). rewrite IH. reflexivity.
  - intros Heq.
    assert (Hid : sort score_ltb_desc items = items).
    { apply sort_no_lt. intros x y Hx Hy. unfold items in Hx, Hy.
      apply in_map_iff in Hx, Hy. destruct Hx as (s1 & <- & H1), Hy as (s2 & <- & H2).
      unfold score_ltb_desc. simpl. rewrite (Heq s1 s2 H1 H2). apply Z.ltb_irrefl. }
    rewrite Hid. split; [reflexivity|].
    unfold items. rewrite map_map. simpl. apply map_id.
Qed.

Lemma rank_suggestions_stable_witness :
  map suggestion
    (rank_suggestions ∅ (u8 "u") (u8 "api") [u8 "arayüz"; u8 "uygulama arayüzü"]
       (u8 "akademik"))
  = [u8 "arayüz"; u8 "uygulama arayüzü"].
Proof.
  apply (rank_suggestions_stable ∅ (u8 "u") (u8 "api") (u8 "akademik")
           [u8 "arayüz"; u8 "uygulama arayüzü"]).
  intros s1 s2 _ _. reflexivity.
Defined.

(* ===================================================================== *)
(** ** Casing preservation *)
(* ===================================================================== *)

(** C7, as stated, fails on an original that is one uppercase letter: the
    code uppercases the whole suggestion, the stated rule only its first
    character. *)
Lemma preserve_casing_single_capital :
  preserve_casing (u8 "A") (u8 "örnek") = u8 "ÖRNEK"
  /\ preserve_casing_spec (u8 "A") (u8 "örnek") = u8 "Örnek"
  /\ preserve_casing (u8 "A") (u8 "örnek") <> preserve_casing_spec (u8 "A") (u8 "örnek").
Proof. repeat split; vm_compute; congruence. Qed.

(** C7, amended: [preserve_casing] returns the fully uppercased suggestion
    when the original is uppercase, whatever its length; otherwise the
    suggestion with only its first character uppercased when the original's
    first character is uppercase; otherwise the suggestion unchanged.  It
    agrees with the stated rule on every original whose length is not 1.
    "API"/"arayüz" gives "ARAYÜZ", "Model"/"örnek" gives "Örnek" and
    "model"/"örnek" gives "örnek". *)
Theorem preserve_casing_rule (original suggestion : str) :
  (isupper original = true -> preserve_casing original suggestion = upper suggestion)
  /\ (isupper original = false -> isupper (slice_to original 1) = true ->
      preserve_casing original suggestion
      = upper (slice_to suggestion 1) ++ slice_from suggestion 1)
  /\ (isupper original = false -> isupper (slice_to original 1) = false ->
      preserve_casing original suggestion = suggestion)
  /\ (len original <> 1%Z ->
      preserve_casing original suggestion = preserve_casing_spec original suggestion)
  /\ preserve_casing (u8 "API") (u8 "arayüz") = u8 "ARAYÜZ"
  /\ preserve_casing (u8 "Model") (u8 "örnek") = u8 "Örnek"
  /\ preserve_casing (u8 "model") (u8 "örnek") = u8 "örnek".
Proof.
  unfold preserve_casing, preserve_casing_spec. repeat split.
  - intros ->. reflexivity.
  - intros -> ->. reflexivity.
  - intros -> ->. reflexivity.
  - intros Hlen. destruct (isupper original) eqn:Eu; [|reflexivity].
    destruct (2 <=? len original)%Z eqn:El; [reflexivity|].
    apply Z.leb_gt in El. unfold len in *.
    destruct original as [|a [|b r]]; simpl in *; [discriminate | lia | lia].
Qed.

Lemma preserve_casing_rule_witness :
  preserve_casing (u8 "API") (u8 "arayüz") = upper (u8 "arayüz")
  /\ preserve_casing (u8 "Model") (u8 "örnek")
     = upper (slice_to (u8 "örnek") 1) ++ slice_from (u8 "örnek") 1
  /\ preserve_casing (u8 "model") (u8 "örnek") = u8 "örnek"
  /\ preserve_casing (u8 "API") (u8 "arayüz") = preserve_casing_spec (u8 "API") (u8 "arayüz").
Proof.
  split; [|split; [|split]].
  - apply (proj1 (preserve_casing_rule (u8 "API") (u8 "arayüz"))). reflexivity.
  - apply (proj1 (proj2 (preserve_casing_rule (u8 "Model") (u8 "örnek")))); reflexivity.
  - apply (proj1 (proj2 (proj2 (preserve_casing_rule (u8 "model") (u8 "örnek")))));
      reflexivity.
  - apply (proj1 (proj2 (proj2 (proj2 (preserve_casing_rule (u8 "API") (u8 "arayüz")))))).
    vm_compute. discriminate.
Defined.

(* ===================================================================== *)
(** ** Detection *)
(* ===================================================================== *)

Section DetectionFacts.
Variable SUGGESTIONS : gmap (list N) (list (list N)).
Variable FOREIGN_TERMS : gset (list N).
Variable WHITELIST : gset (list N).

Local Abbreviation level_allows := (level_allows SUGGESTIONS).
Local Abbreviation word_hit := (word_hit SUGGESTIONS FOREIGN_TERMS WHITELIST).
Local Abbreviation phrase_hit := (phrase_hit WHITELIST).
Local Abbreviation candidate_pool := (candidate_pool SUGGESTIONS FOREIGN_TERMS WHITELIST).
Local Abbreviation detect_candidates :=
  (detect_candidates SUGGESTIONS FOREIGN_TERMS WHITELIST).

(** Detection depends on the level only through [level_allows]. *)
Lemma word_hit_level_ext l1 l2 protected s base ti span :
  (forall t, level_allows t l1 = level_allows t l2) ->
  word_hit l1 protected s base ti span = word_hit l2 protected s base ti span.
Proof.
  intros H. unfold App.word_hit.
  destruct (in_protected _ _ _); [reflexivity|].
  destruct (_ || _); [reflexivity|].
  destruct (is_all_caps _); [reflexivity|].
  destruct (looks_like_proper_noun _ _); [reflexivity|].
  destruct (split_root_suffix _) as [root suffix].
  destruct (if bool_decide _ then _ else _) as [[|h0 h]|]; try reflexivity.
  rewrite H. reflexivity.
Qed.

Lemma candidate_pool_level_ext l1 l2 text :
  (forall t, level_allows t l1 = level_allows t l2) ->
  candidate_pool text l1 = candidate_pool text l2.
Proof.
  intros H. unfold App.candidate_pool, phrase_candidates, word_candidates. f_equal.
  - apply flat_map_ext. intros ph. rewrite H. reflexivity.
  - apply flat_map_ext. intros [base s]. apply flat_map_ext. intros [ti span].
    apply word_hit_level_ext. exact H.
Qed.

Lemma level_allows_unknown (lvl t : list N) :
  lvl <> u8 "strict" -> lvl <> u8 "balanced" ->
  level_allows t lvl
  = (bool_decide (is_Some (SUGGESTIONS !! t)) || (isascii t && (4 <=? len t)%Z)).
Proof.
  intros Hs Hb. unfold App.level_allows, str_eqb.
  rewrite !bool_decide_eq_false_2 by assumption. reflexivity.
Qed.

(** C10: every level string other than "strict" and "balanced" is
    evaluated with the predicate of "light" (a dictionary key, or pure
    ASCII of length at least 4), so detection treats an unrecognized level
    exactly like "light" and never rejects it. *)
Theorem unknown_level_is_light (lvl : list N) :
  lvl <> u8 "strict" -> lvl <> u8 "balanced" ->
  (forall t, level_allows t lvl = level_allows t (u8 "light"))
  /\ (forall t, level_allows t lvl
                = (bool_decide (is_Some (SUGGESTIONS !! t))
                   || (isascii t && (4 <=? len t)%Z)))
  /\ (forall text, detect_candidates text lvl = detect_candidates text (u8 "light")).
Proof.
  intros Hs Hb.
  assert (Hl : forall t, level_allows t lvl = level_allows t (u8 "light")).
  { intros t. rewrite !level_allows_unknown; try assumption; try reflexivity;
      vm_compute; discriminate. }
  split; [exact Hl|]. split.
  - intros t. apply level_allows_unknown; assumption.
  - intros text. unfold App.detect_candidates.
    rewrite (candidate_pool_level_ext lvl (u8 "light") text Hl). reflexivity.
Qed.
End DetectionFacts.

Lemma unknown_level_is_light_witness :
  detect_candidates ∅ report_lexicon ∅ report_text (u8 "aggressive")
  = detect_candidates ∅ report_lexicon ∅ report_text (u8 "light").
Proof.
  refine (proj2 (proj2 (unknown_level_is_light ∅ report_lexicon ∅ (u8 "aggressive") _ _))
            report_text);
    vm_compute; discriminate.
Defined.

(** *** Overlap resolution *)

Lemma keep_disjoint_sub cands : forall last c,
  In c (keep_disjoint cands last) -> In c cands.
Proof.
  induction cands as [|d cands IH]; intros last c H; simpl in H; [contradiction|].
  destruct (Candidate.start d <? last)%Z.
  - right. eapply IH, H.
  - destruct H as [<-|H]; [left; reflexivity | right; eapply IH, H].
Qed.

Lemma keep_disjoint_ordered cands : forall last,
  List.Forall well_formed_span cands ->
  List.Forall (fun c => (last <= Candidate.start c)%Z) (keep_disjoint cands last)
  /\ ordered_disjoint (keep_disjoint cands last).
Proof.
  induction cands as [|d cands IH]; intros last Hwf; simpl.
  - split; [constructor | exact I].
  - inversion Hwf as [|? ? Hd Hrest]; subst.
    destruct (Candidate.start d <? last)%Z eqn:E.
    + apply IH. exact Hrest.
    + apply Z.ltb_ge in E.
      destruct (IH (Candidate.end_ d) Hrest) as [Hall Hord].
      split; [|split; assumption].
      constructor; [exact E|].
      rewrite List.Forall_forall in *. intros c Hc. specialize (Hall c Hc).
      unfold well_formed_span in Hd. lia.
Qed.

Lemma ordered_disjoint_lookup (l : list Candidate.t) :
  ordered_disjoint l ->
  forall (i j : nat) ci cj, i < j -> l !! i = Some ci -> l !! j = Some cj ->
    (Candidate.end_ ci <= Candidate.start cj)%Z.
Proof.
  induction l as [|c r IH]; intros Hord i j ci cj Hlt Hi Hj; [discriminate|].
  destruct Hord as [Hall Hord]. destruct j as [|j]; [lia|]. simpl in Hj.
  destruct i as [|i]; simpl in Hi.
  - inversion Hi; subst ci. rewrite List.Forall_forall in Hall. apply Hall.
    apply list_elem_of_In. eapply list_elem_of_lookup_2. exact Hj.
  - eapply (IH Hord i j); [lia | exact Hi | exact Hj].
Qed.

Section PoolFacts.
Variable SUGGESTIONS : gmap (list N) (list (list N)).
Variable FOREIGN_TERMS : gset (list N).
Variable WHITELIST : gset (list N).

Local Abbreviation level_allows := (level_allows SUGGESTIONS).
Local Abbreviation PHRASES := (PHRASES FOREIGN_TERMS).
Local Abbreviation word_hit := (word_hit SUGGESTIONS FOREIGN_TERMS WHITELIST).
Local Abbreviation lexicon_hit := (lexicon_hit FOREIGN_TERMS).
Local Abbreviation phrase_hit := (phrase_hit WHITELIST).
Local Abbreviation candidate_pool := (candidate_pool SUGGESTIONS FOREIGN_TERMS WHITELIST).
Local Abbreviation detect_candidates :=
  (detect_candidates SUGGESTIONS FOREIGN_TERMS WHITELIST).

(** What a phrase occurrence must pass to become a candidate. *)
Lemma phrase_hit_In text protected ph span c :
  In c (phrase_hit text protected ph span) <->
  in_protected (Z.of_nat (fst span)) (Z.of_nat (snd span)) protected = false
  /\ existsb (fun w => bool_decide (w ∈ WHITELIST)) (split_ws ph) = false
  /\ c = Candidate.mk (cand_id "ph" (Z.of_nat (fst span)) (Z.of_nat (snd span)))
           (slice text (Z.of_nat (fst span)) (Z.of_nat (snd span))) ph
           (Z.of_nat (fst span)) (Z.of_nat (snd span))
           (get_sentence_context text (Z.of_nat (fst span))) ph [].
Proof.
  unfold App.phrase_hit.
  destruct (in_protected _ _ _); [split; [contradiction | intros (? & _); discriminate]|].
  destruct (existsb _ _);
    [split; [contradiction | intros (_ & ? & _); discriminate]|].
  split.
  - intros [<-|[]]. auto.
  - intros (_ & _ & ->). left. reflexivity.
Qed.

(** What a token must pass to become a candidate. *)
Lemma word_hit_In lvl protected s base ti span c :
  let original := slice s (Z.of_nat (fst span)) (Z.of_nat (snd span)) in
  let a := (base + Z.of_nat (fst span))%Z in
  let b := (base + Z.of_nat (snd span))%Z in
  In c (word_hit lvl protected s base ti span) <->
  in_protected a b protected = false
  /\ bool_decide (original ∈ WHITELIST) = false
  /\ bool_decide (normalize_token original
                    ∈ (set_map normalize_token WHITELIST : gset (list N))) = false
  /\ is_all_caps original = false
  /\ looks_like_proper_noun original ti = false
  /\ exists h,
       lexicon_hit (normalize_token original) = Some h /\ h <> []
       /\ level_allows h lvl = true
       /\ c = Candidate.mk (cand_id "w" a b) original h a b s
                (split_root_suffix (normalize_token original)).1
                (split_root_suffix (normalize_token original)).2.
Proof.
  intros original a b. unfold App.word_hit, lexicon_hit.
  fold original a b.
  destruct (in_protected a b protected);
    [split; [contradiction | intros (? & _); discriminate]|].
  destruct (bool_decide (original ∈ WHITELIST)); simpl;
    [split; [contradiction | intros (_ & ? & _); discriminate]|].
  destruct (bool_decide (normalize_token original ∈ _)); simpl;
    [split; [contradiction | intros (_ & _ & ? & _); discriminate]|].
  destruct (is_all_caps original);
    [split; [contradiction | intros (_ & _ & _ & ? & _); discriminate]|].
  destruct (looks_like_proper_noun original ti);
    [split; [contradiction | intros (_ & _ & _ & _ & ? & _); discriminate]|].
  destruct (split_root_suffix (normalize_token original)) as [root suffix]; simpl.
  destruct (if bool_decide (normalize_token original ∈ FOREIGN_TERMS) then _ else _)
    as [h|] eqn:Eh.
  - destruct h as [|h0 h].
    + split; [contradiction|]. intros (_ & _ & _ & _ & _ & h' & Hh & Hne & _).
      congruence.
    + destruct (level_allows (h0 :: h) lvl) eqn:El; simpl.
      * split.
        -- intros [<-|[]]. repeat (split; [reflexivity|]).
           exists (h0 :: h). repeat split; try assumption; discriminate.
        -- intros (_ & _ & _ & _ & _ & h' & Hh & _ & _ & ->).
           inversion Hh; subst h'. left. reflexivity.
      * split; [contradiction|].
        intros (_ & _ & _ & _ & _ & h' & Hh & _ & Hl & _).
        inversion Hh; subst h'. congruence.
  - split; [contradiction|]. intros (_ & _ & _ & _ & _ & h' & Hh & _). discriminate.
Qed.
End PoolFacts.

Section DetectionClaims.
Variable SUGGESTIONS : gmap (list N) (list (list N)).
Variable FOREIGN_TERMS : gset (list N).
Variable WHITELIST : gset (list N).

Local Abbreviation level_allows := (level_allows SUGGESTIONS).
Local Abbreviation PHRASES := (PHRASES FOREIGN_TERMS).
Local Abbreviation word_hit := (word_hit SUGGESTIONS FOREIGN_TERMS WHITELIST).
Local Abbreviation origin := (origin SUGGESTIONS FOREIGN_TERMS WHITELIST).
Local Abbreviation phrase_hit := (phrase_hit WHITELIST).
Local Abbreviation candidate_pool := (candidate_pool SUGGESTIONS FOREIGN_TERMS WHITELIST).
Local Abbreviation detect_candidates :=
  (detect_candidates SUGGESTIONS FOREIGN_TERMS WHITELIST).

Lemma candidate_pool_In text lvl c :
  In c (candidate_pool text lvl) <-> origin text lvl c.
Proof.
  unfold App.candidate_pool, phrase_candidates, word_candidates.
  rewrite in_app_iff, !in_flat_map. split.
  - intros [(ph & Hph & H)|([base s] & Hs & H)].
    + destruct (level_allows ph lvl) eqn:El; simpl in H; [|contradiction].
      apply in_flat_map in H. destruct H as (span & Hspan & H).
      eapply from_phrase; eassumption.
    + apply in_flat_map in H. destruct H as ([ti span] & Ht & H).
      eapply from_word; eassumption.
  - intros [ph span Hph El Hspan H|base s ti span Hs Ht H].
    + left. exists ph. split; [exact Hph|]. rewrite El. simpl.
      apply in_flat_map. exists span. split; assumption.
    + right. exists (base, s). split; [exact Hs|].
      apply in_flat_map. exists (ti, span). split; assumption.
Qed.

Lemma detect_candidates_In text lvl c :
  In c (detect_candidates text lvl) -> origin text lvl c.
Proof.
  unfold App.detect_candidates, sort_by. intros H.
  apply keep_disjoint_sub in H. apply sort_In in H.
  apply candidate_pool_In. exact H.
Qed.

Lemma enumerate_In {A} (l : list A) i x : In (i, x) (enumerate l) -> In x l.
Proof. unfold enumerate. apply in_combine_r. Qed.

Lemma origin_well_formed text lvl c : origin text lvl c -> well_formed_span c.
Proof.
  intros [ph span _ _ Hspan H|base s ti span _ Ht H].
  - apply phrase_hit_In in H. destruct H as (_ & _ & ->).
    destruct span as [a b]. apply finditer_spans in Hspan.
    unfold well_formed_span. simpl. lia.
  - apply word_hit_In in H. destruct H as (_ & _ & _ & _ & _ & h & _ & _ & _ & ->).
    apply enumerate_In in Ht. destruct span as [a b]. apply finditer_spans in Ht.
    unfold well_formed_span. simpl. lia.
Qed.

(** C3: for every text and level the candidates returned by
    [detect_candidates] are pairwise disjoint and in position order: a
    candidate at an earlier output position ends at or before the start
    of every candidate at a later one. *)
Theorem detect_candidates_disjoint (text lvl : list N) (i j : nat)
    (ci cj : Candidate.t) :
  i < j ->
  detect_candidates text lvl !! i = Some ci ->
  detect_candidates text lvl !! j = Some cj ->
  (Candidate.end_ ci <= Candidate.start cj)%Z.
Proof.
  apply ordered_disjoint_lookup. unfold App.detect_candidates, sort_by.
  apply keep_disjoint_ordered. apply sort_Forall.
  rewrite List.Forall_forall. intros c Hc.
  apply candidate_pool_In in Hc. eapply origin_well_formed, Hc.
Qed.
End DetectionClaims.

Lemma detect_candidates_disjoint_witness :
  let l := detect_candidates ∅ (list_to_set [u8 "performans"; u8 "optimize"]) ∅
             (u8 "optimize performans") (u8 "strict") in
  (Candidate.end_ (nth_candidate l 0) <= Candidate.start (nth_candidate l 1))%Z.
Proof.
  intros l.
  apply (detect_candidates_disjoint ∅ (list_to_set [u8 "performans"; u8 "optimize"]) ∅
           (u8 "optimize performans") (u8 "strict") 0 1);
    [lia | vm_compute; reflexivity | vm_compute; reflexivity].
Defined.

Section LevelClaims.
Variable SUGGESTIONS : gmap (list N) (list (list N)).
Variable FOREIGN_TERMS : gset (list N).
Variable WHITELIST : gset (list N).

Local Abbreviation level_allows := (level_allows SUGGESTIONS).
Local Abbreviation PHRASES := (PHRASES FOREIGN_TERMS).
Local Abbreviation origin := (origin SUGGESTIONS FOREIGN_TERMS WHITELIST).
Local Abbreviation candidate_pool := (candidate_pool SUGGESTIONS FOREIGN_TERMS WHITELIST).
Local Abbreviation detect_candidates :=
  (detect_candidates SUGGESTIONS FOREIGN_TERMS WHITELIST).

Lemma level_allows_strict t : level_allows t (u8 "strict") = true.
Proof. reflexivity. Qed.

Lemma level_allows_balanced t :
  level_allows t (u8 "balanced") = negb (bool_decide (t ∈ COMMON_LOANWORDS)).
Proof. reflexivity. Qed.

Lemma origin_allowed text lvl c :
  origin text lvl c -> level_allows (Candidate.foreign_norm c) lvl = true.
Proof.
  intros [ph span _ El _ H|base s ti span _ _ H].
  - apply phrase_hit_In in H. destruct H as (_ & _ & ->). exact El.
  - apply word_hit_In in H. destruct H as (_ & _ & _ & _ & _ & h & _ & _ & El & ->).
    exact El.
Qed.

(** A candidate of the pool at one level is in the pool at any level
    that allows its term. *)
Lemma origin_relevel text l1 l2 c :
  origin text l1 c -> level_allows (Candidate.foreign_norm c) l2 = true ->
  origin text l2 c.
Proof.
  intros [ph span Hph El Hspan H|base s ti span Hs Ht H] Hl2.
  - pose proof H as H'. apply phrase_hit_In in H'. destruct H' as (_ & _ & ->).
    eapply from_phrase; eassumption.
  - eapply from_word; [eassumption | eassumption |].
    apply word_hit_In in H. apply word_hit_In.
    destruct H as (H1 & H2 & H3 & H4 & H5 & h & Hh & Hne & El & ->).
    repeat (split; [assumption|]). exists h. repeat split; assumption.
Qed.

(** C6, amended: before overlap resolution the candidates at "strict"
    include those at "balanced" and those at "light", and a candidate at
    "light" whose term is not one of the common loanwords is a candidate
    at "balanced"; every candidate returned at any level is among the
    candidates at "strict" before overlap resolution. *)
Theorem level_monotone_pool (text : list N) (c : Candidate.t) :
  (In c (candidate_pool text (u8 "balanced")) -> In c (candidate_pool text (u8 "strict")))
  /\ (In c (candidate_pool text (u8 "light")) -> In c (candidate_pool text (u8 "strict")))
  /\ (In c (candidate_pool text (u8 "light")) ->
      (Candidate.foreign_norm c ∉ COMMON_LOANWORDS) ->
      In c (candidate_pool text (u8 "balanced")))
  /\ (forall lvl, In c (detect_candidates text lvl) ->
      In c (candidate_pool text (u8 "strict"))).
Proof.
  repeat split.
  - intros H. apply candidate_pool_In in H. apply candidate_pool_In.
    eapply origin_relevel; [exact H | apply level_allows_strict].
  - intros H. apply candidate_pool_In in H. apply candidate_pool_In.
    eapply origin_relevel; [exact H | apply level_allows_strict].
  - intros H Hnot. apply candidate_pool_In in H. apply candidate_pool_In.
    eapply origin_relevel; [exact H|].
    rewrite level_allows_balanced, bool_decide_eq_false_2 by exact Hnot. reflexivity.
  - intros lvl H. apply detect_candidates_In in H. apply candidate_pool_In.
    eapply origin_relevel; [exact H | apply level_allows_strict].
Qed.

(** C5, amended: a word candidate's token is never a whitelist entry,
    neither exactly nor case-insensitively; a phrase candidate is never a
    phrase one of whose words is exactly a whitelist entry.  This holds at
    every level. *)
Theorem whitelist_exclusion (text lvl : list N) (c : Candidate.t) :
  In c (detect_candidates text lvl) ->
  (is_word_candidate c = true
   /\ (Candidate.original c ∉ WHITELIST)
   /\ forall w, w ∈ WHITELIST ->
        normalize_token (Candidate.original c) <> normalize_token w)
  \/ (is_phrase_candidate c = true
      /\ In (Candidate.foreign_norm c) PHRASES
      /\ forall w, In w (split_ws (Candidate.foreign_norm c)) -> w ∉ WHITELIST).
Proof.
  intros H. apply detect_candidates_In in H.
  destruct H as [ph span Hph _ _ H|base s ti span _ _ H].
  - right. apply phrase_hit_In in H. destruct H as (_ & Hwl & ->). simpl.
    split; [reflexivity|]. split; [exact Hph|].
    intros w Hw Hin. apply not_true_iff_false in Hwl. apply Hwl.
    apply existsb_exists. exists w. split; [exact Hw|].
    apply bool_decide_eq_true_2. exact Hin.
  - left. apply word_hit_In in H.
    destruct H as (_ & Hex & Hci & _ & _ & h & _ & _ & _ & ->). simpl.
    split; [reflexivity|]. split.
    + apply bool_decide_eq_false in Hex. exact Hex.
    + intros w Hw Heq. apply bool_decide_eq_false in Hci. apply Hci.
      rewrite Heq. apply elem_of_map_2. exact Hw.
Qed.
End LevelClaims.

(* ===================================================================== *)
(** ** Concrete runs *)
(* ===================================================================== *)


(** C5, as stated, fails for a whitelisted phrase: with "machine learning"
    both in the lexicon and on the whitelist, the text "machine learning"
    yields a candidate whose matched text is that whitelist entry. *)
Lemma whitelisted_phrase_detected :
  exists c w,
    In c (detect_candidates ∅ ml_lexicon ml_lexicon ml_text (u8 "strict"))
    /\ w ∈ ml_lexicon
    /\ Candidate.original c = w
    /\ normalize_token (Candidate.original c) = normalize_token w.
Proof.
  exists (nth_candidate (detect_candidates ∅ ml_lexicon ml_lexicon ml_text (u8 "strict")) 0),
         (u8 "machine learning").
  split; [vm_compute; left; reflexivity|].
  split; [apply elem_of_list_to_set; left|].
  split; vm_compute; reflexivity.
Qed.

(** C6, as stated, fails twice.  "proje" is allowed at "light" (pure ASCII,
    five characters) and excluded at "balanced" (a common loanword), so the
    set at "balanced" does not contain the set at "light".  And in
    "model art" the token "model", reported only at "strict", overlaps and
    displaces the phrase "el art" that "balanced" reports, so the set at
    "strict" does not contain the set at "balanced". *)
Lemma level_sets_not_nested :
  (exists c,
     In c (detect_candidates ∅ proje_lexicon ∅ proje_text (u8 "light"))
     /\ ~ In c (detect_candidates ∅ proje_lexicon ∅ proje_text (u8 "balanced")))
  /\ (exists c,
        In c (detect_candidates ∅ model_lexicon ∅ model_text (u8 "balanced"))
        /\ ~ In c (detect_candidates ∅ model_lexicon ∅ model_text (u8 "strict"))).
Proof.
  split.
  - exists (nth_candidate (detect_candidates ∅ proje_lexicon ∅ proje_text (u8 "light")) 0).
    split; [vm_compute; left; reflexivity|].
    vm_compute. intros [].
  - exists (nth_candidate (detect_candidates ∅ model_lexicon ∅ model_text (u8 "balanced")) 0).
    split; [vm_compute; left; reflexivity|].
    vm_compute. intros [H|[]]. discriminate H.
Qed.

(** C4, on the code as written: the phrase pass searches the lowercased
    text and uses the offsets it finds on the original text.  After a
    dotted capital I the lowercased text is one code point longer, so for
    "İ machine learning" (18 code points) the candidate spans 3 to 19: its
    end lies beyond the end of the text and its recorded original is
    "achine learning", not the phrase that was matched. *)
Theorem phrase_span_outside_text :
  len dotted_text = 18%Z
  /\ exists c,
       detect_candidates ∅ ml_lexicon ∅ dotted_text (u8 "strict") = [c]
       /\ Candidate.foreign_norm c = u8 "machine learning"
       /\ Candidate.start c = 3%Z /\ Candidate.end_ c = 19%Z
       /\ (len dotted_text < Candidate.end_ c)%Z
       /\ Candidate.original c = u8 "achine learning".
Proof.
  split; [reflexivity|].
  exists (nth_candidate (detect_candidates ∅ ml_lexicon ∅ dotted_text (u8 "strict")) 0).
  repeat split; vm_compute; reflexivity.
Qed.

Lemma whitelist_exclusion_witness :
  (is_word_candidate report_candidate = true
   /\ (Candidate.original report_candidate ∉ api_whitelist)
   /\ forall w, w ∈ api_whitelist ->
        normalize_token (Candidate.original report_candidate) <> normalize_token w)
  \/ (is_phrase_candidate report_candidate = true
      /\ In (Candidate.foreign_norm report_candidate) (PHRASES report_lexicon)
      /\ forall w, In w (split_ws (Candidate.foreign_norm report_candidate)) ->
           w ∉ api_whitelist).
Proof.
  apply (whitelist_exclusion ∅ report_lexicon api_whitelist report_text (u8 "strict")
           report_candidate).
  vm_compute. left. reflexivity.
Defined.

Lemma level_monotone_pool_witness :
  In (nth_candidate (candidate_pool ∅ report_lexicon ∅ report_text (u8 "light")) 0)
     (candidate_pool ∅ report_lexicon ∅ report_text (u8 "balanced")).
Proof.
  apply (proj1 (proj2 (proj2
           (level_monotone_pool ∅ report_lexicon ∅ report_text
              (nth_candidate (candidate_pool ∅ report_lexicon ∅ report_text (u8 "light")) 0))))).
  - vm_compute. left. reflexivity.
  - vm_compute. intros H. discriminate H.
Defined.

(* ===================================================================== *)
(** ** The end-to-end example *)
(* ===================================================================== *)

Lemma report_detection (SUGGESTIONS : gmap (list N) (list (list N))) :
  detect_candidates SUGGESTIONS report_lexicon ∅ report_text (u8 "balanced")
  = [Candidate.mk (u8 "w:23:31") (u8 "optimize") (u8 "optimize") 23 31
       report_text (u8 "optimize") []].
Proof. vm_compute. reflexivity. Qed.

Lemma report_apply (SUGGESTIONS : gmap (list N) (list (list N)))
    (db : prefs) (user context_tag : list N) :
  apply SUGGESTIONS report_lexicon ∅ db user report_text context_tag (u8 "balanced")
    [mkChoice (u8 "w:23:31") (Some (u8 "eniyilemek")) []]
  = (db_add_score user (u8 "optimize") (u8 "eniyilemek") context_tag 2 db,
     mkApplyResult (u8 "Projenin performansını eniyilemek ettik.") 1
       (mkReport 1 1 (u8 "balanced"))).
Proof.
  unfold apply, analyze. rewrite report_detection.
  cbn [map fst snd Candidate.id Candidate.original Candidate.foreign_norm
       Candidate.start Candidate.end_ Candidate.context i_id i_foreign_norm].
  unfold dict_of_list. cbn [fold_left fst snd candidate_id].
  unfold apply_choice. cbn [candidate_id]. rewrite lookup_insert_eq.
  cbn [i_foreign_norm i_original i_start i_end rejected chosen fold_left].
  destruct (u8 "eniyilemek") as [|e0 el] eqn:E; [vm_compute in E; discriminate E|].
  rewrite <- E. clear E e0 el.
  f_equal.
Qed.

(** C2: for "Projenin performansını optimize ettik." with the lexicon
    {"performans", "optimize"} and level "balanced", detection returns
    exactly one candidate, matched to "optimize"; applying the choice
    "eniyilemek" for it gives "Projenin performansını eniyilemek ettik."
    and raises the stored score of (user, "optimize", "eniyilemek",
    context_tag) by exactly 2, leaving every other key as it was. *)
Theorem example_end_to_end (SUGGESTIONS : gmap (list N) (list (list N)))
    (db : prefs) (user context_tag : list N) :
  exists c,
    detect_candidates SUGGESTIONS report_lexicon ∅ report_text (u8 "balanced") = [c]
    /\ Candidate.foreign_norm c = u8 "optimize"
    /\ let applied :=
         apply SUGGESTIONS report_lexicon ∅ db user report_text context_tag
           (u8 "balanced") [mkChoice (Candidate.id c) (Some (u8 "eniyilemek")) []] in
       let key := (user, u8 "optimize", u8 "eniyilemek", context_tag) in
       new_text (snd applied) = u8 "Projenin performansını eniyilemek ettik."
       /\ applied_count (snd applied) = 1
       /\ default 0%Z (fst applied !! key) = (default 0%Z (db !! key) + 2)%Z
       /\ forall key', key' <> key -> fst applied !! key' = db !! key'.
Proof.
  eexists. split; [apply report_detection|]. split; [reflexivity|].
  cbv zeta. cbn [Candidate.id]. rewrite report_apply. cbn [fst snd new_text applied_count].
  split; [reflexivity|]. split; [reflexivity|]. split.
  - rewrite db_add_score_same. reflexivity.
  - intros key' Hne. apply db_add_score_other. exact Hne.
Qed.

(* ===================================================================== *)
(** ** More on the preference store *)
(* ===================================================================== *)

Lemma db_add_score_lookup (u t s c : list N) (delta : Z) (db : prefs) (key : prefs_key) :
  db_add_score u t s c delta db !! key
  = if bool_decide (key = (u, t, s, c))
    then Some (default 0 (db !! key) + delta)%Z
    else db !! key.
Proof.
  case_bool_decide as Hk.
  - subst key. apply db_add_score_same.
  - apply db_add_score_other. exact Hk.
Qed.

(** X14: Updates of the store commute, whatever their keys, and two updates of
    one key amount to one update by the sum of their deltas: the stored
    score of a key is the sum of all deltas ever added to it. *)
Theorem db_add_score_commute_merge (db : prefs)
    (u1 t1 s1 c1 u2 t2 s2 c2 : list N) (d1 d2 : Z) :
  db_add_score u1 t1 s1 c1 d1 (db_add_score u2 t2 s2 c2 d2 db)
  = db_add_score u2 t2 s2 c2 d2 (db_add_score u1 t1 s1 c1 d1 db)
  /\ db_add_score u1 t1 s1 c1 d2 (db_add_score u1 t1 s1 c1 d1 db)
     = db_add_score u1 t1 s1 c1 (d1 + d2) db.
Proof.
  split; apply map_eq; intros key; rewrite !db_add_score_lookup;
    repeat case_bool_decide; simpl; try reflexivity; f_equal; lia.
Qed.

(* ===================================================================== *)
(** ** The apply request *)
(* ===================================================================== *)

Lemma dict_of_list_lookup_None {K V} `{Countable K} (l : list (K * V)) k :
  dict_of_list l !! k = None <-> k ∉ l.*1.
Proof.
  rewrite dict_of_list_rev, rev_alt. change (rev_append l []) with (reverse l).
  rewrite <- not_elem_of_list_to_map, fmap_reverse, elem_of_reverse. reflexivity.
Qed.

Lemma dict_of_list_lookup_Some_elem {K V} `{Countable K} (l : list (K * V)) k v :
  dict_of_list l !! k = Some v -> (k, v) ∈ l.
Proof.
  rewrite dict_of_list_rev, rev_alt. change (rev_append l []) with (reverse l).
  intros Hl. apply elem_of_list_to_map_2 in Hl.
  apply (proj1 (elem_of_reverse _ _)) in Hl. exact Hl.
Qed.

Lemma apply_replacements_nil (text : list N) : apply_replacements text [] = text.
Proof. reflexivity. Qed.

Section ApplyFacts.
Variable SUGGESTIONS : gmap (list N) (list (list N)).
Variable FOREIGN_TERMS : gset (list N).
Variable WHITELIST : gset (list N).
Variables (db0 : prefs) (user_id text context_tag lvl : list N).

Local Abbreviation detected :=
  (detect_candidates SUGGESTIONS FOREIGN_TERMS WHITELIST text lvl).
Local Abbreviation analyzed :=
  (analyze SUGGESTIONS FOREIGN_TERMS WHITELIST db0 user_id text context_tag lvl).
Local Abbreviation items :=
  (request_items SUGGESTIONS FOREIGN_TERMS WHITELIST db0 user_id text context_tag lvl).
Local Abbreviation step := (apply_choice user_id context_tag items).
Local Abbreviation apply_req :=
  (apply SUGGESTIONS FOREIGN_TERMS WHITELIST db0 user_id text context_tag lvl).

Lemma apply_unfold (choices : list Choice) :
  apply_req choices
  = ((fold_left step choices (db0, [])).1,
     mkApplyResult (apply_replacements text (fold_left step choices (db0, [])).2)
       (length (fold_left step choices (db0, [])).2) (snd analyzed)).
Proof.
  unfold apply. fold items. destruct (fold_left step choices (db0, [])). reflexivity.
Qed.

Lemma items_lookup_None (cid : list N) :
  ~ In cid (map Candidate.id detected) -> items !! cid = None.
Proof.
  intros Hn. apply dict_of_list_lookup_None. unfold analyze. cbn [fst].
  rewrite <- list_fmap_compose. intros Hin. apply Hn.
  apply list_elem_of_fmap in Hin. destruct Hin as (it & -> & Hit).
  apply list_elem_of_In, in_map_iff in Hit. destruct Hit as (c & <- & Hc).
  simpl. apply in_map. exact Hc.
Qed.

Lemma items_lookup_Some (cid : list N) (it : Item) :
  items !! cid = Some it ->
  exists c, In c detected /\ Candidate.id c = cid
            /\ i_foreign_norm it = Candidate.foreign_norm c
            /\ i_original it = Candidate.original c
            /\ i_start it = Candidate.start c /\ i_end it = Candidate.end_ c.
Proof.
  intros Hl. apply dict_of_list_lookup_Some_elem in Hl.
  apply list_elem_of_fmap in Hl. destruct Hl as (it' & Heq & Hin).
  inversion Heq; subst. unfold analyze in Hin. cbn [fst] in Hin.
  apply list_elem_of_In, in_map_iff in Hin. destruct Hin as (c & <- & Hc).
  exists c. repeat split; assumption || reflexivity.
Qed.
(** The rejected suggestions of one choice, as [apply] scores them. *)
Lemma reject_fold_other (u f c : list N) (key : prefs_key) (rejected : list (list N)) :
  (forall s, s <> [] -> key <> (u, f, s, c)) ->
  forall db : prefs,
    fold_left (fun d r => match r with
                          | [] => d
                          | _ => db_add_score u f r c (-1) d
                          end) rejected db !! key
    = db !! key.
Proof.
  intros Hk. induction rejected as [|r rejected IH]; intros db; [reflexivity|].
  cbn [fold_left]. rewrite IH. destruct r as [|r0 r]; [reflexivity|].
  apply db_add_score_other. apply Hk. discriminate.
Qed.

Lemma reject_fold_same (u f c s : list N) (rejected : list (list N)) :
  s <> [] ->
  forall db : prefs,
    default 0%Z (fold_left (fun d r => match r with
                                       | [] => d
                                       | _ => db_add_score u f r c (-1) d
                                       end) rejected db !! (u, f, s, c))
    = (default 0%Z (db !! (u, f, s, c)) - Z.of_nat (times_rejected s rejected))%Z.
Proof.
  intros Hs. unfold times_rejected.
  induction rejected as [|r rejected IH]; intros db; [simpl; lia|].
  cbn [fold_left List.filter]. rewrite IH. case_bool_decide as Hr.
  - subst r. destruct s as [|s0 s]; [congruence|].
    rewrite db_add_score_same. cbn [length default]. unfold id. lia.
  - destruct r as [|r0 r]; [reflexivity|].
    rewrite db_add_score_other by congruence. reflexivity.
Qed.

Lemma fold_step_invariant (P : prefs * list Replacement -> Prop) (choices : list Choice) :
  (forall acc ch, In ch choices -> P acc -> P (step acc ch)) ->
  forall acc, P acc -> P (fold_left step choices acc).
Proof.
  induction choices as [|ch choices IH]; intros Hstep acc Hacc; [exact Hacc|].
  cbn [fold_left]. apply IH.
  - intros acc' ch' Hin. apply Hstep. right. exact Hin.
  - apply Hstep; [left; reflexivity | exact Hacc].
Qed.

(** X17: A choice whose candidate id is not the id of a candidate detected in
    the text is skipped: when this holds for every choice of a request,
    [apply] leaves the store as it was, returns the text unchanged and
    reports zero applied replacements. *)
Theorem apply_ignores_unknown_ids (choices : list Choice) :
  (forall ch, In ch choices -> ~ In (candidate_id ch) (map Candidate.id detected)) ->
  apply_req choices = (db0, mkApplyResult text 0 (snd analyzed)).
Proof.
  intros Hunknown. rewrite apply_unfold.
  assert (Hfold : fold_left step choices (db0, []) = (db0, [])).
  { apply (fold_step_invariant (fun acc => acc = (db0, []))); [|reflexivity].
    intros acc ch Hin ->. unfold apply_choice.
    rewrite (items_lookup_None (candidate_id ch) (Hunknown ch Hin)). reflexivity. }
  rewrite Hfold. reflexivity.
Qed.

(** X18: Feedback alone never edits the text: when no choice of a request has
    a non-empty chosen suggestion, the new text is the text of the request
    and the applied count is zero, whatever is rejected. *)
Theorem apply_feedback_only_keeps_text (choices : list Choice) :
  (forall ch, In ch choices -> chosen ch = None \/ chosen ch = Some []) ->
  new_text (snd (apply_req choices)) = text
  /\ applied_count (snd (apply_req choices)) = 0.
Proof.
  intros Hnone. rewrite apply_unfold. cbn [snd new_text applied_count].
  assert (Hfold : (fold_left step choices (db0, [])).2 = []).
  { apply (fold_step_invariant (fun acc => acc.2 = [])); [|reflexivity].
    intros [db reps] ch Hin Hreps. simpl in Hreps. subst reps. unfold apply_choice.
    destruct (items !! candidate_id ch) as [it|]; [|reflexivity].
    destruct (Hnone ch Hin) as [-> | ->]; reflexivity. }
  rewrite Hfold. split; reflexivity.
Qed.

(** X19: [apply] writes only scores of the requesting user and context tag,
    for terms detected in the text, and for non-empty suggestions: the
    score of every other key is left as it was. *)
Theorem apply_touches_only_own_keys (choices : list Choice) (u t s c : list N) :
  u <> user_id \/ c <> context_tag \/ s = []
  \/ ~ In t (map Candidate.foreign_norm detected) ->
  (apply_req choices).1 !! (u, t, s, c) = db0 !! (u, t, s, c).
Proof.
  intros Hkey. rewrite apply_unfold. cbn [fst].
  apply (fold_step_invariant (fun acc => acc.1 !! (u, t, s, c) = db0 !! (u, t, s, c)));
    [|reflexivity].
  intros [db reps] ch _ Hacc. cbn [fst] in Hacc. unfold apply_choice.
  destruct (items !! candidate_id ch) as [it|] eqn:Hit; [|exact Hacc].
  apply items_lookup_Some in Hit. destruct Hit as (cand & Hc & _ & Hf & _).
  assert (Hother : forall s', s' <> [] ->
            (u, t, s, c) <> (user_id, i_foreign_norm it, s', context_tag)).
  { intros s' Hs' Heq. inversion Heq; subst.
    destruct Hkey as [H|[H|[H|H]]]; try congruence.
    apply H. rewrite Hf. apply in_map. exact Hc. }
  assert (Hrej : fold_left (fun d r => match r with
                                         | [] => d
                                         | _ => db_add_score user_id (i_foreign_norm it) r
                                                  context_tag (-1) d
                                         end) (rejected ch) db !! (u, t, s, c)
                 = db0 !! (u, t, s, c)).
  { rewrite reject_fold_other by exact Hother. exact Hacc. }
  destruct (chosen ch) as [[|s0 sel]|]; cbn [fst]; try exact Hrej.
  rewrite db_add_score_other; [exact Hrej|]. apply Hother. discriminate.
Qed.

(** X20: The effect of one choice for a known candidate on the store: every
    non-empty suggestion of the candidate's term gains 2 if it is the
    chosen one and loses 1 for each time it is listed as rejected. *)
Theorem apply_choice_score_delta (ch : Choice) (it : Item) (s : list N) :
  items !! candidate_id ch = Some it -> s <> [] ->
  default 0%Z ((apply_req [ch]).1 !! (user_id, i_foreign_norm it, s, context_tag))
  = (default 0%Z (db0 !! (user_id, i_foreign_norm it, s, context_tag))
     + (if bool_decide (chosen ch = Some s) then 2 else 0)
     - Z.of_nat (times_rejected s (rejected ch)))%Z.
Proof.
  intros Hit Hs. rewrite apply_unfold. cbn [fst fold_left]. unfold apply_choice.
  rewrite Hit.
  pose proof (reject_fold_same user_id (i_foreign_norm it) context_tag s (rejected ch)
                Hs db0) as Hrej.
  destruct (chosen ch) as [[|s0 sel]|] eqn:Hch; cbn [fst].
  - rewrite Hrej. rewrite bool_decide_eq_false_2 by congruence. lia.
  - case_bool_decide as Hsel.
    + inversion Hsel; subst s. rewrite db_add_score_same, Hrej. cbn [default]. unfold id. lia.
    + rewrite db_add_score_other by congruence. rewrite Hrej. lia.
  - rewrite Hrej. rewrite bool_decide_eq_false_2 by congruence. lia.
Qed.
End ApplyFacts.

Lemma apply_ignores_unknown_ids_witness :
  apply ∅ report_lexicon ∅ ∅ (u8 "u") report_text (u8 "akademik") (u8 "balanced")
    [mkChoice (u8 "w:0:8") (Some (u8 "eniyilemek")) [u8 "iyileştirmek"]]
  = (∅, mkApplyResult report_text 0
          (snd (analyze ∅ report_lexicon ∅ ∅ (u8 "u") report_text (u8 "akademik")
                  (u8 "balanced")))).
Proof.
  apply (apply_ignores_unknown_ids ∅ report_lexicon ∅ ∅ (u8 "u") report_text
           (u8 "akademik") (u8 "balanced")).
  intros ch [<-|[]]. vm_compute. intros [H|[]]. discriminate H.
Defined.

Lemma apply_feedback_only_keeps_text_witness :
  new_text (snd (apply ∅ report_lexicon ∅ ∅ (u8 "u") report_text (u8 "akademik")
                   (u8 "balanced") [mkChoice (u8 "w:23:31") None [u8 "eniyilemek"]]))
  = report_text
  /\ applied_count
       (snd (apply ∅ report_lexicon ∅ ∅ (u8 "u") report_text (u8 "akademik")
               (u8 "balanced") [mkChoice (u8 "w:23:31") None [u8 "eniyilemek"]]))
     = 0.
Proof.
  apply (apply_feedback_only_keeps_text ∅ report_lexicon ∅ ∅ (u8 "u") report_text
           (u8 "akademik") (u8 "balanced")).
  intros ch [<-|[]]. left. reflexivity.
Defined.

Lemma apply_touches_only_own_keys_witness :
  (apply ∅ report_lexicon ∅ ∅ (u8 "u") report_text (u8 "akademik") (u8 "balanced")
     [report_choice]).1
    !! (u8 "v", u8 "optimize", u8 "eniyilemek", u8 "akademik")
  = (∅ : prefs) !! (u8 "v", u8 "optimize", u8 "eniyilemek", u8 "akademik").
Proof.
  apply (apply_touches_only_own_keys ∅ report_lexicon ∅ ∅ (u8 "u") report_text
           (u8 "akademik") (u8 "balanced")).
  left. vm_compute. discriminate.
Defined.

Lemma apply_choice_score_delta_witness :
  default 0%Z
    ((apply ∅ report_lexicon ∅ ∅ (u8 "u") report_text (u8 "akademik") (u8 "balanced")
        [report_choice]).1
       !! (u8 "u", i_foreign_norm report_item, u8 "iyileştirmek", u8 "akademik"))
  = (default 0%Z
       ((∅ : prefs) !! (u8 "u", i_foreign_norm report_item, u8 "iyileştirmek",
                        u8 "akademik"))
     + (if bool_decide (chosen report_choice = Some (u8 "iyileştirmek")) then 2 else 0)
     - Z.of_nat (times_rejected (u8 "iyileştirmek") (rejected report_choice)))%Z.
Proof.
  apply (apply_choice_score_delta ∅ report_lexicon ∅ ∅ (u8 "u") report_text
           (u8 "akademik") (u8 "balanced") report_choice report_item (u8 "iyileştirmek")).
  - vm_compute. reflexivity.
  - vm_compute. discriminate.
Defined.

(* ===================================================================== *)
(** ** What detection lets through *)
(* ===================================================================== *)

Lemma combine_seq_lookup {A} (l : list A) : forall (k i : nat) (x : A),
  In (i, x) (combine (seq k (length l)) l) -> k <= i /\ l !! (i - k) = Some x.
Proof.
  induction l as [|y l IH]; intros k i x H; [contradiction|].
  cbn [length seq combine] in H. destruct H as [H|H].
  - inversion H; subst. split; [lia|]. replace (i - i) with 0 by lia. reflexivity.
  - apply IH in H. destruct H as [Hle H]. split; [lia|].
    replace (i - k) with (S (i - S k)) by lia. exact H.
Qed.

Lemma enumerate_lookup {A} (l : list A) (i : nat) (x : A) :
  In (i, x) (enumerate l) -> l !! i = Some x.
Proof.
  intros H. apply combine_seq_lookup in H. destruct H as [_ H].
  rewrite Nat.sub_0_r in H. exact H.
Qed.

Section Guards.
Variable SUGGESTIONS : gmap (list N) (list (list N)).
Variable FOREIGN_TERMS : gset (list N).
Variable WHITELIST : gset (list N).

Local Abbreviation level_allows := (level_allows SUGGESTIONS).
Local Abbreviation PHRASES := (PHRASES FOREIGN_TERMS).
Local Abbreviation origin := (origin SUGGESTIONS FOREIGN_TERMS WHITELIST).
Local Abbreviation detect_candidates :=
  (detect_candidates SUGGESTIONS FOREIGN_TERMS WHITELIST).

Lemma PHRASES_In (ph : list N) :
  In ph PHRASES <-> ph ∈ FOREIGN_TERMS /\ 32%N ∈ ph.
Proof.
  unfold App.PHRASES, sort_by. rewrite sort_In, filter_In.
  rewrite <- list_elem_of_In, elem_of_elements, bool_decide_eq_true. reflexivity.
Qed.

Lemma lexicon_hit_Some (norm h : list N) :
  lexicon_hit FOREIGN_TERMS norm = Some h -> h ∈ FOREIGN_TERMS.
Proof.
  unfold lexicon_hit. repeat case_bool_decide; intros E; inversion E; subst; assumption.
Qed.

Lemma in_protected_false (a b : Z) (text : list N) (r : regex) (x y : nat) :
  in_protected a b (protect_spans text) = false ->
  r = CODE_LIKE_RE \/ r = URL_RE \/ r = EMAIL_RE ->
  In (x, y) (finditer r text) ->
  ~ (Z.of_nat x <= a /\ b <= Z.of_nat y)%Z.
Proof.
  intros Hp Hr Hin [Hx Hy]. unfold in_protected in Hp.
  assert (Hmem : In (Z.of_nat x, Z.of_nat y) (protect_spans text)).
  { unfold protect_spans. apply sort_In. rewrite !in_app_iff. unfold zspans.
    destruct Hr as [-> | [-> | ->] ]; [left | right; left | right; right];
      apply in_map_iff; exists (x, y); auto. }
  assert (Hex : existsb (fun p => (fst p <=? a)%Z && (b <=? snd p)%Z) (protect_spans text)
                = true).
  { apply existsb_exists. exists (Z.of_nat x, Z.of_nat y). split; [exact Hmem|].
    cbn [fst snd]. apply andb_true_iff. split; apply Z.leb_le; assumption. }
  congruence.
Qed.

(** X6: Every reported candidate is matched to an entry of the lexicon that
    the level allows, and its span lies inside no code block, URL or
    e-mail address that the protection patterns find in the text. *)
Theorem detected_candidate_is_lexicon_term (text lvl : list N) (c : Candidate.t) :
  In c (detect_candidates text lvl) ->
  Candidate.foreign_norm c ∈ FOREIGN_TERMS
  /\ level_allows (Candidate.foreign_norm c) lvl = true
  /\ forall (r : regex) (x y : nat),
       r = CODE_LIKE_RE \/ r = URL_RE \/ r = EMAIL_RE ->
       In (x, y) (finditer r text) ->
       ~ (Z.of_nat x <= Candidate.start c /\ Candidate.end_ c <= Z.of_nat y)%Z.
Proof.
  intros H. apply detect_candidates_In in H.
  destruct H as [ph span Hph El _ H|base s ti span _ _ H].
  - apply phrase_hit_In in H. destruct H as (Hp & _ & ->). cbn.
    apply PHRASES_In in Hph. destruct Hph as [Hft _].
    split; [exact Hft|]. split; [exact El|].
    intros r x y. apply in_protected_false. exact Hp.
  - apply word_hit_In in H. destruct H as (Hp & _ & _ & _ & _ & h & Hh & _ & El & ->).
    cbn. apply lexicon_hit_Some in Hh.
    split; [exact Hh|]. split; [exact El|].
    intros r x y. apply in_protected_false. exact Hp.
Qed.

(** X7: A word candidate is a token of one sentence of the text: it is never
    an all-caps token of two or more characters, and a token that starts
    with an uppercase letter is reported only when it is the first token
    of its sentence. *)
Theorem word_candidate_is_plain_token (text lvl : list N) (c : Candidate.t) :
  In c (detect_candidates text lvl) -> is_word_candidate c = true ->
  is_all_caps (Candidate.original c) = false
  /\ exists (base : Z) (s : list N) (ti : nat) (span : nat * nat),
       In (base, s) (located_sentences text)
       /\ finditer TOKEN_RE s !! ti = Some span
       /\ Candidate.original c = slice s (Z.of_nat span.1) (Z.of_nat span.2)
       /\ Candidate.context c = s
       /\ Candidate.start c = (base + Z.of_nat span.1)%Z
       /\ Candidate.end_ c = (base + Z.of_nat span.2)%Z
       /\ (isupper (slice_to (Candidate.original c) 1) = true -> ti = 0).
Proof.
  intros H Hw. apply detect_candidates_In in H.
  destruct H as [ph span _ _ _ H|base s ti span Hs Ht H].
  - apply phrase_hit_In in H. destruct H as (_ & _ & ->). discriminate Hw.
  - apply word_hit_In in H.
    destruct H as (_ & _ & _ & Hcaps & Hproper & h & _ & _ & _ & ->). cbn.
    split; [exact Hcaps|]. exists base, s, ti, span.
    repeat split; try assumption.
    + apply enumerate_lookup. exact Ht.
    + intros Hup. unfold looks_like_proper_noun in Hproper.
      destruct ti; [reflexivity | congruence].
Qed.

Lemma empty_lexicon_no_candidates (WL : gset (list N)) (text lvl : list N) :
  App.detect_candidates SUGGESTIONS ∅ WL text lvl = [].
Proof.
  destruct (App.detect_candidates SUGGESTIONS ∅ WL text lvl) as [|c l] eqn:E; [reflexivity|].
  assert (Hin : In c (App.detect_candidates SUGGESTIONS ∅ WL text lvl))
    by (rewrite E; left; reflexivity).
  apply detect_candidates_In in Hin.
  destruct Hin as [ph span Hph _ _ _|base s ti span _ _ H].
  - unfold App.PHRASES, sort_by in Hph. apply sort_In, filter_In in Hph.
    destruct Hph as [Hph _]. rewrite elements_empty in Hph. contradiction.
  - apply word_hit_In in H. destruct H as (_ & _ & _ & _ & _ & h & Hh & _).
    unfold lexicon_hit in Hh. repeat case_bool_decide; set_solver.
Qed.
End Guards.

Lemma detected_candidate_is_lexicon_term_witness :
  Candidate.foreign_norm report_candidate ∈ report_lexicon
  /\ level_allows ∅ (Candidate.foreign_norm report_candidate) (u8 "strict") = true
  /\ forall (r : regex) (x y : nat),
       r = CODE_LIKE_RE \/ r = URL_RE \/ r = EMAIL_RE ->
       In (x, y) (finditer r report_text) ->
       ~ (Z.of_nat x <= Candidate.start report_candidate
          /\ Candidate.end_ report_candidate <= Z.of_nat y)%Z.
Proof.
  apply (detected_candidate_is_lexicon_term ∅ report_lexicon api_whitelist report_text
           (u8 "strict") report_candidate).
  vm_compute. left. reflexivity.
Defined.

Lemma word_candidate_is_plain_token_witness :
  is_all_caps (Candidate.original report_candidate) = false
  /\ exists (base : Z) (s : list N) (ti : nat) (span : nat * nat),
       In (base, s) (located_sentences report_text)
       /\ finditer TOKEN_RE s !! ti = Some span
       /\ Candidate.original report_candidate
          = slice s (Z.of_nat span.1) (Z.of_nat span.2)
       /\ Candidate.context report_candidate = s
       /\ Candidate.start report_candidate = (base + Z.of_nat span.1)%Z
       /\ Candidate.end_ report_candidate = (base + Z.of_nat span.2)%Z
       /\ (isupper (slice_to (Candidate.original report_candidate) 1) = true -> ti = 0).
Proof.
  apply (word_candidate_is_plain_token ∅ report_lexicon api_whitelist report_text
           (u8 "strict") report_candidate).
  - vm_compute. left. reflexivity.
  - vm_compute. reflexivity.
Defined.

(* ===================================================================== *)
(** ** Ranking after feedback, and the analyze request *)
(* ===================================================================== *)

Lemma insert_sorted_after {A} (lt : A -> A -> bool) (x : A) (hs l : list A) :
  (forall y, In y hs -> lt y x = true) ->
  insert_sorted lt x (hs ++ l) = hs ++ insert_sorted lt x l.
Proof.
  induction hs as [|h hs IH]; intros Hall; [reflexivity|].
  cbn [app insert_sorted]. rewrite (Hall h) by (left; reflexivity).
  rewrite IH; [reflexivity|]. intros y Hy. apply Hall. right. exact Hy.
Qed.

Lemma insert_sorted_first {A} (lt : A -> A -> bool) (x : A) (l : list A) :
  (forall y, head l = Some y -> lt y x = false) -> insert_sorted lt x l = x :: l.
Proof.
  destruct l as [|y l]; intros H; [reflexivity|].
  cbn [insert_sorted]. rewrite (H y eq_refl). reflexivity.
Qed.

Lemma head_filter_In {A} (p : A -> bool) (l : list A) (y : A) :
  head (List.filter p l) = Some y -> In y l /\ p y = true.
Proof.
  intros H. apply filter_In. destruct (List.filter p l) as [|z r]; [discriminate|].
  inversion H; subst. left. reflexivity.
Qed.

(** A stable sort whose order only separates a top group from the rest
    puts the top group first and keeps the input order inside each group. *)
Lemma sort_two_groups {A} (lt : A -> A -> bool) (top : A -> bool) (l : list A) :
  (forall x y, In x l -> In y l -> lt y x = top y && negb (top x)) ->
  sort lt l = List.filter top l ++ List.filter (fun x => negb (top x)) l.
Proof.
  induction l as [|x l IH]; intros Hlt; [reflexivity|].
  cbn [sort fold_right]. fold (sort lt l).
  rewrite IH by (intros a b Ha Hb; apply Hlt; right; assumption).
  cbn [List.filter]. destruct (top x) eqn:Hx; cbn [negb].
  - apply insert_sorted_first. intros y Hy.
    assert (Hin : In y l).
    { destruct (List.filter top l) as [|z r] eqn:E.
      - apply head_filter_In in Hy. tauto.
      - assert (Hz : In z (List.filter top l)) by (rewrite E; left; reflexivity).
        inversion Hy; subst. apply filter_In in Hz. tauto. }
    rewrite Hlt by (auto using in_eq, in_cons). rewrite Hx. apply andb_false_r.
  - rewrite insert_sorted_after.
    + f_equal. apply insert_sorted_first. intros y Hy.
      apply head_filter_In in Hy. destruct Hy as [Hin Hy].
      rewrite Hlt by (auto using in_eq, in_cons).
      apply negb_true_iff in Hy. rewrite Hy. reflexivity.
    + intros y Hy. apply filter_In in Hy. destruct Hy as [Hin Hy].
      rewrite Hlt by (auto using in_eq, in_cons). rewrite Hy, Hx. reflexivity.
Qed.

Lemma filter_map_swap {A B} (f : A -> B) (p : B -> bool) (l : list A) :
  List.filter p (map f l) = map f (List.filter (fun x => p (f x)) l).
Proof.
  induction l as [|x l IH]; [reflexivity|].
  cbn [map List.filter]. destruct (p (f x)); cbn [map]; rewrite IH; reflexivity.
Qed.

(** X12: Learning moves a suggestion up: when the suggestions of the base list
    all have the same stored score, raising the score of one of them puts
    it first in the next ranking and leaves the others in base order. *)
Theorem rank_after_reward (db : prefs) (u t c s : list N) (base : list (list N))
    (delta : Z) :
  (0 < delta)%Z ->
  (forall s1 s2, In s1 base -> In s2 base ->
     default 0%Z (db !! (u, t, s1, c)) = default 0%Z (db !! (u, t, s2, c))) ->
  map suggestion (rank_suggestions (db_add_score u t s c delta db) u t base c)
  = List.filter (fun x => bool_decide (x = s)) base
    ++ List.filter (fun x => negb (bool_decide (x = s))) base.
Proof.
  intros Hd Heq.
  set (lo := match base with
             | [] => 0%Z
             | b :: _ => default 0%Z (db !! (u, t, b, c))
             end).
  assert (Hlo : forall x, In x base -> default 0%Z (db !! (u, t, x, c)) = lo).
  { intros x Hx. unfold lo. destruct base as [|b base]; [contradiction|].
    apply Heq; [exact Hx | left; reflexivity]. }
  set (g := fun x : list N => if bool_decide (x = s) then (lo + delta)%Z else lo).
  unfold rank_suggestions, sort_by.
  rewrite (map_ext_in _ (fun x => mkRanked x (g x))).
  2:{ intros x Hx. f_equal. rewrite db_get_scores_lookup, db_add_score_lookup.
      unfold g. case_bool_decide as H1; case_bool_decide as H2; try congruence.
      - rewrite (Hlo x Hx). reflexivity.
      - apply Hlo. exact Hx. }
  rewrite (sort_two_groups _ (fun r => bool_decide (suggestion r = s))).
  - rewrite map_app, !filter_map_swap, !map_map. cbn [suggestion].
    rewrite !map_id. reflexivity.
  - intros x y Hx Hy. apply in_map_iff in Hx, Hy.
    destruct Hx as (x' & <- & _), Hy as (y' & <- & _). cbn [score suggestion]. unfold g.
    repeat case_bool_decide; cbn [andb negb];
      [apply Z.ltb_irrefl | apply Z.ltb_ge; lia | apply Z.ltb_lt; lia | apply Z.ltb_irrefl].
Qed.

Lemma rank_after_reward_witness :
  map suggestion
    (rank_suggestions
       (db_add_score (u8 "u") (u8 "optimize") (u8 "iyileştirmek") (u8 "akademik") 2 ∅)
       (u8 "u") (u8 "optimize") [u8 "eniyilemek"; u8 "iyileştirmek"] (u8 "akademik"))
  = List.filter (fun x => bool_decide (x = u8 "iyileştirmek"))
      [u8 "eniyilemek"; u8 "iyileştirmek"]
    ++ List.filter (fun x => negb (bool_decide (x = u8 "iyileştirmek")))
         [u8 "eniyilemek"; u8 "iyileştirmek"].
Proof.
  apply (rank_after_reward ∅ (u8 "u") (u8 "optimize") (u8 "akademik")
           (u8 "iyileştirmek") [u8 "eniyilemek"; u8 "iyileştirmek"] 2).
  - lia.
  - intros s1 s2 _ _. reflexivity.
Defined.

Lemma sort_desc_sorted (l : list Ranked) :
  StronglySorted (fun a b => (score b <= score a)%Z) (sort score_ltb_desc l).
Proof.
  induction l as [|x l IH]; simpl; [constructor | apply insert_desc_sorted, IH].
Qed.

Lemma size_list_to_set_le (l : list (list N)) :
  size (list_to_set l : gset (list N)) <= length l.
Proof.
  induction l as [|x l IH]; [reflexivity|].
  cbn [list_to_set length]. rewrite size_union_alt, size_singleton.
  assert (Hsub : (list_to_set l ∖ {[x]} : gset (list N)) ⊆ list_to_set l)
    by apply subseteq_difference_l, reflexivity.
  apply subseteq_size in Hsub. lia.
Qed.

(** X11: The analyze request returns one item per detected candidate, in
    detection order and with the candidate's id, text, term and span.  The
    suggestions of an item are those the dictionary lists for its term,
    none lost and none added, in descending score order; a term that is not
    a key of the dictionary gets no suggestions.  The report counts the
    items, and its number of distinct terms never exceeds that count. *)
Theorem analyze_mirrors_detection (SUGGESTIONS : gmap (list N) (list (list N)))
    (FOREIGN_TERMS WHITELIST : gset (list N)) (db : prefs)
    (user_id text context_tag lvl : list N) :
  let result := analyze SUGGESTIONS FOREIGN_TERMS WHITELIST db user_id text context_tag lvl in
  Forall2 (fun it c =>
      i_id it = Candidate.id c /\ i_original it = Candidate.original c
      /\ i_foreign_norm it = Candidate.foreign_norm c
      /\ i_start it = Candidate.start c /\ i_end it = Candidate.end_ c
      /\ i_context it = Candidate.context c
      /\ Permutation (map suggestion (i_suggestions it))
           (default [] (SUGGESTIONS !! Candidate.foreign_norm c))
      /\ StronglySorted (fun a b => (score b <= score a)%Z) (i_suggestions it)
      /\ (SUGGESTIONS !! Candidate.foreign_norm c = None -> i_suggestions it = []))
    (fst result) (detect_candidates SUGGESTIONS FOREIGN_TERMS WHITELIST text lvl)
  /\ candidates_found (snd result) = length (fst result)
  /\ unique_foreign_terms (snd result) <= candidates_found (snd result)
  /\ level (snd result) = lvl.
Proof.
  cbv zeta. unfold analyze. cbn [fst snd candidates_found unique_foreign_terms level].
  split; [|split; [reflexivity|split; [|reflexivity]]].
  - induction (detect_candidates SUGGESTIONS FOREIGN_TERMS WHITELIST text lvl)
      as [|c l IH]; cbn [map]; constructor; [|exact IH].
    cbn [i_id i_original i_foreign_norm i_start i_end i_context i_suggestions].
    repeat (split; [reflexivity|]). split; [|split].
    + unfold rank_suggestions, sort_by. rewrite <- sort_perm, map_map. cbn [suggestion].
      rewrite map_id. reflexivity.
    + unfold rank_suggestions, sort_by. apply sort_desc_sorted.
    + intros ->. reflexivity.
  - rewrite <- (length_map i_foreign_norm). apply size_list_to_set_le.
Qed.

(* ===================================================================== *)
(** ** Splicing the replacements *)
(* ===================================================================== *)

Lemma slice_to_nonneg {A} (l : list A) (b : Z) :
  (0 <= b)%Z -> slice_to l b = firstn (Z.to_nat b) l.
Proof.
  intros Hb. unfold slice_to, clamp_index.
  destruct (b <? 0)%Z eqn:E; [apply Z.ltb_lt in E; lia|].
  destruct (Z.le_gt_cases b (Z.of_nat (length l))) as [Hle|Hgt].
  - rewrite Z.min_l by lia. reflexivity.
  - rewrite Z.min_r by lia. rewrite Nat2Z.id.
    rewrite !firstn_all2 by lia. reflexivity.
Qed.

Lemma slice_from_nonneg {A} (l : list A) (a : Z) :
  (0 <= a)%Z -> slice_from l a = skipn (Z.to_nat a) l.
Proof.
  intros Ha. unfold slice_from, clamp_index.
  destruct (a <? 0)%Z eqn:E; [apply Z.ltb_lt in E; lia|].
  destruct (Z.le_gt_cases a (Z.of_nat (length l))) as [Hle|Hgt].
  - rewrite Z.min_l by lia. reflexivity.
  - rewrite Z.min_r by lia. rewrite Nat2Z.id.
    rewrite !skipn_all2 by lia. reflexivity.
Qed.

Lemma slice_nonneg {A} (l : list A) (a b : Z) :
  (0 <= a <= b)%Z ->
  slice l a b = firstn (Z.to_nat b - Z.to_nat a) (skipn (Z.to_nat a) l).
Proof.
  intros Hab. unfold slice, clamp_index.
  destruct (a <? 0)%Z eqn:Ea; [apply Z.ltb_lt in Ea; lia|].
  destruct (b <? 0)%Z eqn:Eb; [apply Z.ltb_lt in Eb; lia|].
  destruct (Z.le_gt_cases a (Z.of_nat (length l))) as [Hle|Hgt].
  - rewrite (Z.min_l a) by lia.
    destruct (Z.le_gt_cases b (Z.of_nat (length l))) as [Hble|Hbgt].
    + rewrite Z.min_l by lia. f_equal. lia.
    + rewrite Z.min_r by lia.
      rewrite !firstn_all2; [reflexivity | |]; rewrite length_skipn; lia.
  - rewrite !Z.min_r by lia. rewrite Z.sub_diag, Nat2Z.id.
    rewrite !skipn_all2 by lia. rewrite !firstn_nil. reflexivity.
Qed.

Section KeySort.
Context {A : Type} (key : A -> Z).

Lemma insert_key_desc_sorted (x : A) (l : list A) :
  StronglySorted (fun a b => (key b <= key a)%Z) l ->
  StronglySorted (fun a b => (key b <= key a)%Z)
    (insert_sorted (fun y x => (key x <? key y)%Z) x l).
Proof.
  induction 1 as [|y l Hs IH Hall]; simpl.
  - repeat constructor.
  - destruct (key x <? key y)%Z eqn:E.
    + apply Z.ltb_lt in E. constructor; [exact IH|].
      rewrite List.Forall_forall in *. intros z Hz.
      apply (Permutation_in _ (Permutation_sym (insert_sorted_perm _ x l))) in Hz.
      destruct Hz as [<-|Hz]; [lia | apply Hall; exact Hz].
    + apply Z.ltb_ge in E. constructor; [constructor; assumption|].
      constructor; [exact E|].
      rewrite List.Forall_forall in *. intros z Hz. specialize (Hall z Hz). lia.
Qed.

Lemma sort_by_desc_sorted (l : list A) :
  StronglySorted (fun a b => (key b <= key a)%Z) (sort_by Z.ltb key true l).
Proof.
  unfold sort_by. induction l as [|x l IH]; simpl; [constructor|].
  apply insert_key_desc_sorted, IH.
Qed.

(** A list in strictly descending key order is the only descending
    arrangement of its elements. *)
Lemma desc_sorted_unique (l1 : list A) : forall l2 : list A,
  StronglySorted (fun a b => (key b < key a)%Z) l1 ->
  StronglySorted (fun a b => (key b <= key a)%Z) l2 ->
  Permutation l1 l2 -> l1 = l2.
Proof.
  induction l1 as [|x l1 IH]; intros l2 H1 H2 Hp.
  - apply Permutation_nil in Hp. congruence.
  - destruct l2 as [|y l2]; [apply Permutation_sym, Permutation_nil in Hp; discriminate|].
    inversion H1 as [|? ? H1s H1a]; subst. inversion H2 as [|? ? H2s H2a]; subst.
    rewrite List.Forall_forall in H1a, H2a.
    assert (Hxy : x = y).
    { assert (Hx : In x (y :: l2)) by (eapply Permutation_in; [exact Hp | left; reflexivity]).
      assert (Hy : In y (x :: l1))
        by (eapply Permutation_in; [symmetry; exact Hp | left; reflexivity]).
      destruct Hx as [Hx|Hx]; [congruence|]. destruct Hy as [Hy|Hy]; [congruence|].
      specialize (H1a y Hy). specialize (H2a x Hx). lia. }
    subst y. f_equal. apply IH; [assumption | assumption |].
    eapply Permutation_cons_inv. exact Hp.
Qed.
End KeySort.

Lemma strongly_sorted_snoc {A} (R : A -> A -> Prop) (l : list A) (x : A) :
  StronglySorted R l -> List.Forall (fun y => R y x) l -> StronglySorted R (l ++ [x]).
Proof.
  induction 1 as [|y l Hs IH Hall]; intros Hx; cbn [app].
  - repeat constructor.
  - inversion Hx; subst. constructor; [apply IH; assumption|].
    apply List.Forall_app. split; [exact Hall | constructor; [assumption | constructor]].
Qed.

Lemma strongly_sorted_rev {A} (R : A -> A -> Prop) (l : list A) :
  StronglySorted R l -> StronglySorted (fun a b => R b a) (rev l).
Proof.
  induction 1 as [|x l Hs IH Hall]; cbn [rev]; [constructor|].
  apply strongly_sorted_snoc; [exact IH|].
  rewrite List.Forall_forall in *. intros y Hy. apply Hall. apply in_rev. exact Hy.
Qed.

Lemma spans_in_order_le (reps : list Replacement) : forall from n,
  spans_in_order from n reps -> (from <= n)%Z.
Proof.
  induction reps as [|r reps IH]; intros from n H; [exact H|].
  destruct H as (H1 & H2 & H3). apply IH in H3. lia.
Qed.

Lemma spans_in_order_ascending (reps : list Replacement) : forall from n,
  spans_in_order from n reps ->
  StronglySorted (fun a b => (r_start a < r_start b)%Z) reps
  /\ List.Forall (fun r => (from <= r_start r)%Z) reps.
Proof.
  induction reps as [|r reps IH]; intros from n H; [split; constructor|].
  destruct H as (H1 & H2 & H3). destruct (IH _ _ H3) as [Hs Hall].
  split.
  - constructor; [exact Hs|]. rewrite List.Forall_forall in *.
    intros x Hx. specialize (Hall x Hx). lia.
  - constructor; [exact H1|]. rewrite List.Forall_forall in *.
    intros x Hx. specialize (Hall x Hx). lia.
Qed.

(** Splicing from the last span to the first: what lies before the spans
    still to come is the original text, so their offsets stay valid. *)
Lemma splice_back_to_front (text : list N) (reps : list Replacement) : forall from,
  (0 <= from)%Z -> spans_in_order from (len text) reps ->
  let out := fold_right (fun r acc => slice_to acc (r_start r) ++ r_new r
                                      ++ slice_from acc (r_end r)) text reps in
  firstn (Z.to_nat from) out = firstn (Z.to_nat from) text
  /\ skipn (Z.to_nat from) out = spliced text from reps.
Proof.
  induction reps as [|r reps IH]; intros from Hfrom Hord; cbn [fold_right spliced].
  - split; [reflexivity|]. rewrite slice_from_nonneg by exact Hfrom. reflexivity.
  - destruct Hord as (H1 & H2 & H3).
    pose proof (spans_in_order_le _ _ _ H3) as Hlen. unfold len in Hlen.
    destruct (IH (r_end r) ltac:(lia) H3) as [IHa IHb].
    set (out' := fold_right _ text reps) in *.
    rewrite slice_to_nonneg, slice_from_nonneg by lia.
    assert (Hpre : firstn (Z.to_nat (r_start r)) out' = firstn (Z.to_nat (r_start r)) text).
    { replace (Z.to_nat (r_start r))
        with (Nat.min (Z.to_nat (r_start r)) (Z.to_nat (r_end r))) by lia.
      rewrite <- !firstn_firstn. rewrite IHa. reflexivity. }
    rewrite Hpre, IHb.
    assert (Hl : length (firstn (Z.to_nat (r_start r)) text) = Z.to_nat (r_start r))
      by (rewrite length_firstn; lia).
    split.
    + rewrite firstn_app, Hl.
      replace (Z.to_nat from - Z.to_nat (r_start r)) with 0 by lia.
      rewrite firstn_O, app_nil_r, firstn_firstn. f_equal. lia.
    + rewrite skipn_app, Hl.
      replace (Z.to_nat from - Z.to_nat (r_start r)) with 0 by lia.
      cbn [skipn]. f_equal. rewrite slice_nonneg by lia.
      rewrite firstn_skipn_comm. f_equal. f_equal. lia.
Qed.

(** Sorting by descending start puts disjoint replacements in reverse
    position order, whatever order they came in. *)
Lemma sorted_replacements (ordered reps : list Replacement) (from n : Z) :
  spans_in_order from n ordered -> Permutation ordered reps ->
  sort_by Z.ltb r_start true reps = rev ordered.
Proof.
  intros Hord Hperm. symmetry. apply (desc_sorted_unique r_start).
  - apply (strongly_sorted_rev (fun a b => (r_start a < r_start b)%Z)).
    apply (spans_in_order_ascending _ _ _ Hord).
  - apply sort_by_desc_sorted.
  - rewrite <- Permutation_rev. unfold sort_by. rewrite <- sort_perm. exact Hperm.
Qed.

(** X15: Replacements for spans that are non-empty, pairwise disjoint and
    inside the text may be handed to [apply_replacements] in any order:
    the result is the text with every span replaced by its new word and
    everything between the spans kept. *)
Theorem apply_replacements_disjoint (text : list N) (ordered reps : list Replacement) :
  spans_in_order 0 (len text) ordered -> Permutation ordered reps ->
  apply_replacements text reps = spliced text 0 ordered.
Proof.
  intros Hord Hperm. unfold apply_replacements.
  rewrite (sorted_replacements ordered reps 0 (len text) Hord Hperm).
  rewrite <- fold_left_rev_right, rev_involutive.
  destruct (splice_back_to_front text ordered 0 ltac:(lia) Hord) as [_ H].
  cbn [Z.to_nat skipn] in H. exact H.
Qed.

(* ===================================================================== *)
(** ** The suffix analyzer on arbitrary strings *)
(* ===================================================================== *)

Lemma rep_loop_blocked {R} (d : N) (rest : list N)
    (body : mstate -> (mstate -> option R) -> option R) (g : bool) (n : nat) :
  blocked_at d rest body -> blocked_at d rest (rep_loop body g n).
Proof.
  intros Hb. induction n as [|n IH]; intros st k x q Hrest H; simpl in H.
  - exists st, [], q. repeat split; [exact Hrest | simpl; lia | exact H].
  - assert (Hagain : body st (fun st' =>
        if m_pos st <? m_pos st' then rep_loop body g n st' k else None) = Some x ->
        exists st' q1 q2, q = q1 ++ q2 /\ m_rest st' = q2 ++ d :: rest
          /\ m_pos st' = m_pos st + length q1 /\ k st' = Some x).
    { intros Ha. apply (Hb st _ x q Hrest) in Ha.
      destruct Ha as (st1 & q1 & q2 & Hq & Hr1 & Hp1 & Hk).
      destruct (m_pos st <? m_pos st1) eqn:E; [|discriminate].
      apply (IH st1 k x q2 Hr1) in Hk.
      destruct Hk as (st2 & q3 & q4 & Hq2 & Hr2 & Hp2 & Hk2).
      exists st2, (q1 ++ q3), q4. subst q q2.
      repeat split; [apply app_assoc | exact Hr2 | rewrite length_app; lia | exact Hk2]. }
    assert (Hstay : k st = Some x ->
        exists st' q1 q2, q = q1 ++ q2 /\ m_rest st' = q2 ++ d :: rest
          /\ m_pos st' = m_pos st + length q1 /\ k st' = Some x).
    { intros Hk. exists st, [], q. repeat split; [exact Hrest | simpl; lia | exact Hk]. }
    destruct g.
    + destruct (body st _) eqn:E; [apply Hagain; congruence | apply Hstay; exact H].
    + destruct (k st) eqn:E; [apply Hstay; congruence | apply Hagain; exact H].
Qed.

Lemma class_only_blocked {R} (cls : N -> bool) (d : N) (rest : list N) (r : regex) :
  cls d = false -> class_only cls r -> blocked_at (R:=R) d rest (rmatch r).
Proof.
  intros Hd. induction r; intros Hc st k x q Hrest H; simpl in H, Hc.
  - exists st, [], q. repeat split; [exact Hrest | simpl; lia | exact H].
  - rewrite Hrest in H. destruct q as [|c q]; cbn [app] in H.
    + destruct (p d) eqn:E; [|discriminate]. apply Hc in E. congruence.
    + destruct (p c); [|discriminate].
      exists (advance c (q ++ d :: rest) st), [c], q.
      repeat split; [simpl; lia | exact H].
  - destruct Hc as [Hc1 Hc2].
    apply (IHr1 Hc1 st _ x q Hrest) in H.
    destruct H as (st1 & q1 & q2 & Hq & Hr1 & Hp1 & H).
    apply (IHr2 Hc2 st1 k x q2 Hr1) in H.
    destruct H as (st2 & q3 & q4 & Hq2 & Hr2 & Hp2 & H).
    exists st2, (q1 ++ q3), q4. subst q q2.
    repeat split; [apply app_assoc | exact Hr2 | rewrite length_app; lia | exact H].
  - destruct Hc as [Hc1 Hc2]. destruct (rmatch r1 st k) eqn:E.
    + apply (IHr1 Hc1 st k x q Hrest). congruence.
    + apply (IHr2 Hc2 st k x q Hrest). exact H.
  - eapply rep_loop_blocked; [exact (IHr Hc) | exact Hrest | exact H].
  - apply (IHr Hc st _ x q Hrest) in H.
    destruct H as (st1 & q1 & q2 & Hq & Hr1 & Hp1 & H).
    exists (set_cap name (m_pos st) (m_pos st1) st1), q1, q2.
    repeat split; assumption.
  - contradiction.
  - contradiction.
  - contradiction.
Qed.

(** A repetition of a class-only pattern in front of a character outside
    the class iterates zero times. *)
Lemma rep_at_blocker {R} (cls : N -> bool) (r : regex) (g : bool) (n : nat)
    (st : mstate) (k : mstate -> option R) (d : N) (rest : list N) :
  cls d = false -> class_only cls r -> m_rest st = d :: rest ->
  rep_loop (rmatch r) g n st k = k st.
Proof.
  intros Hd Hc Hrest. destruct n as [|n]; [reflexivity|]. cbn [rep_loop].
  assert (Hnone : rmatch r st (fun st' =>
      if m_pos st <? m_pos st' then rep_loop (rmatch r) g n st' k else None) = None).
  { destruct (rmatch r st _) as [x|] eqn:E; [|reflexivity]. exfalso.
    apply (class_only_blocked cls d rest r Hd Hc st _ x [] Hrest) in E.
    destruct E as (st1 & q1 & q2 & Hq & _ & Hp & Hk).
    destruct q1; [|discriminate]. simpl in Hp.
    replace (m_pos st <? m_pos st1) with false in Hk by (symmetry; apply Nat.ltb_ge; lia).
    discriminate. }
  rewrite Hnone. destruct g; [reflexivity|]. destruct (k st); reflexivity.
Qed.

Lemma root_class_ci (c c' : N) : ci_eqb c c' = true -> root_class c' = root_class c.
Proof.
  unfold ci_eqb, root_class. intros H. apply N.eqb_eq in H. rewrite H. reflexivity.
Qed.

Lemma class_only_lit_ci (s : list N) :
  forallb root_class s = true -> class_only root_class (lit_ci s).
Proof.
  unfold lit_ci. induction s as [|c s IH]; intros H; [exact I|].
  cbn [forallb] in H. apply andb_true_iff in H. destruct H as [Hc Hs].
  assert (Hsym : forall c', ci_eqb c c' = true -> root_class c' = true)
    by (intros c' Hc'; rewrite (root_class_ci c c' Hc'); exact Hc).
  destruct s as [|c2 s]; cbn [lit_with class_only]; [exact Hsym|].
  split; [exact Hsym | apply IH; exact Hs].
Qed.

Lemma class_only_alts (cls : N -> bool) (rs : list regex) :
  List.Forall (class_only cls) rs -> class_only cls (alts rs).
Proof.
  induction 1 as [|r rs Hr Hrs IH]; cbn [alts class_only]; [discriminate|].
  destruct rs as [|r2 rs]; [exact Hr|]. split; [exact Hr | exact IH].
Qed.

Lemma class_only_morphemes (l : list string) :
  forallb (fun m => forallb root_class (u8 m)) l = true ->
  class_only root_class (morphemes l).
Proof.
  intros H. unfold morphemes. apply class_only_alts.
  induction l as [|m l IH]; cbn [map]; constructor.
  - apply class_only_lit_ci. cbn [forallb] in H. apply andb_true_iff in H. tauto.
  - apply IH. cbn [forallb] in H. apply andb_true_iff in H. tauto.
Qed.

Lemma TR_SUFFIXES_class_only : class_only root_class TR_SUFFIXES.
Proof.
  unfold TR_SUFFIXES. apply class_only_alts.
  repeat (constructor; [apply class_only_morphemes; vm_compute; reflexivity|]).
  constructor.
Qed.

Lemma consume_before_pos tail l : forall st,
  m_pos (consume_before tail l st) = m_pos st + length l.
Proof. induction l as [|c l IH]; intros st; simpl; [lia | rewrite IH; simpl; lia]. Qed.

Lemma consume_before_rest tail l : forall st,
  m_rest st = l ++ tail -> m_rest (consume_before tail l st) = tail.
Proof. induction l as [|c l IH]; intros st H; simpl; [exact H | apply IH; reflexivity]. Qed.

Lemma consume_before_caps tail l : forall st,
  m_caps (consume_before tail l st) = m_caps st.
Proof. induction l as [|c l IH]; intros st; simpl; [reflexivity | rewrite IH; reflexivity]. Qed.

(** The greedy repetition of a class first reads the whole run of class
    characters in front of it. *)
Lemma rep_class_takes_prefix {R} (p : N -> bool) (tail l : list N) :
  forall (n : nat) st (k : mstate -> option R) x,
  m_rest st = l ++ tail -> forallb p l = true ->
  (forall d r, tail = d :: r -> p d = false) -> length l <= n ->
  k (consume_before tail l st) = Some x ->
  rep_loop (rmatch (Sym p)) true n st k = Some x.
Proof.
  induction l as [|c l IH]; intros n st k x Hrest Hall Htail Hn Hk.
  - cbn [consume_before] in Hk. destruct n as [|n]; [exact Hk|].
    cbn [rep_loop rmatch]. cbn [app] in Hrest. rewrite Hrest.
    destruct tail as [|d r]; [exact Hk|].
    rewrite (Htail d r eq_refl). exact Hk.
  - cbn [forallb] in Hall. apply andb_true_iff in Hall. destruct Hall as [Hc Hl].
    destruct n as [|n]; [simpl in Hn; lia|].
    cbn [rep_loop rmatch]. cbn [app] in Hrest. rewrite Hrest, Hc. cbn [advance m_pos].
    replace (m_pos st <? S (m_pos st)) with true by (symmetry; apply Nat.ltb_lt; lia).
    change (fun (st0 : mstate) (k0 : mstate -> option R) =>
              match m_rest st0 with
              | [] => None
              | c0 :: rest => if p c0 then k0 (advance c0 rest st0) else None
              end) with (rmatch (R:=R) (Sym p)).
    rewrite (IH n (advance c (l ++ tail) st) k x);
      [reflexivity | reflexivity | exact Hl | exact Htail | simpl in Hn; lia | exact Hk].
Qed.

Lemma class_prefix (cls : N -> bool) (s : list N) :
  exists p tail, s = p ++ tail /\ forallb cls p = true
                 /\ (tail = [] \/ exists d r, tail = d :: r /\ cls d = false).
Proof.
  induction s as [|c s IH].
  - exists [], []. auto.
  - destruct (cls c) eqn:Hc.
    + destruct IH as (p & tail & -> & Hp & Ht).
      exists (c :: p), tail. cbn [forallb app]. rewrite Hc, Hp. auto.
    + exists [], (c :: s). split; [reflexivity|]. split; [reflexivity|].
      right. exists c, s. auto.
Qed.

(** In front of a character outside the root class that is not a final
    newline, [TR_SUFFIX_RE] has no match at all. *)
Lemma TR_SUFFIX_RE_no_match (q : list N) (d : N) (rest : list N) :
  root_class d = false -> ~ (d = 10%N /\ rest = []) ->
  re_match TR_SUFFIX_RE (q ++ d :: rest) = None.
Proof.
  intros Hd Hnl. unfold re_match, match_here.
  destruct (rmatch TR_SUFFIX_RE _ Some) as [m|] eqn:E; [exfalso | reflexivity].
  change (rmatch (Cat (Grp "root" (Plus (Sym root_class)))
                    (Grp "suffix" (Rep true TR_SUFFIXES)))
            (MState 0 None (q ++ d :: rest) [])
            (fun s => rmatch (Cat Eol Eps) s Some) = Some m) in E.
  assert (Hco : class_only root_class
                  (Cat (Grp "root" (Plus (Sym root_class)))
                     (Grp "suffix" (Rep true TR_SUFFIXES)))).
  { exact (conj (conj (fun c H => H) (fun c H => H)) TR_SUFFIXES_class_only). }
  destruct (class_only_blocked (R:=mstate) root_class d rest _ Hd Hco
              (MState 0 None (q ++ d :: rest) []) _ m q eq_refl E)
    as (st' & q1 & q2 & _ & Hr & _ & Hk).
  cbn [rmatch] in Hk. rewrite Hr in Hk.
  destruct q2 as [|c q2]; cbn [app] in Hk.
  - destruct rest as [|r0 rest]; [|discriminate].
    destruct (d =? 10)%N eqn:E10; [|discriminate].
    apply N.eqb_eq in E10. apply Hnl. auto.
  - destruct (q2 ++ d :: rest) eqn:E2; [|discriminate].
    destruct q2; discriminate.
Qed.

Lemma suffix_tail_at_newline (alt : regex) (st : mstate) :
  class_only root_class alt -> m_rest st = [10%N] ->
  rmatch (cats [Grp "suffix" (Rep true alt); Eol]) st Some
  = Some (set_cap "suffix" (m_pos st) (m_pos st) st).
Proof.
  intros Hc H. cbn [cats fold_right rmatch].
  rewrite (rep_at_blocker root_class alt true _ st _ 10%N []) by (reflexivity || assumption).
  cbn [set_cap m_rest]. rewrite H. reflexivity.
Qed.

Lemma split_root_suffix_newline (c : N) (l : list N) :
  forallb root_class (c :: l) = true ->
  split_root_suffix (c :: l ++ [10%N]) = (c :: l, []).
Proof.
  intros Hall. simpl in Hall. apply andb_true_iff in Hall. destruct Hall as [Hc Hl].
  unfold split_root_suffix, re_match, match_here, TR_SUFFIX_RE.
  set (st1 := advance c (l ++ [10%N]) (MState 0 None (c :: l ++ [10%N]) [])).
  set (fin := set_cap "suffix" (S (length l)) (S (length l))
                (set_cap "root" 0 (S (length l)) (consume_before [10%N] l st1))).
  assert (Hm : rmatch
      (cats [Grp "root" (Plus (Sym root_class)); Grp "suffix" (Rep true TR_SUFFIXES); Eol])
      (MState 0 None (c :: l ++ [10%N]) []) Some = Some fin).
  { change (rmatch (Sym root_class) (MState 0 None (c :: l ++ [10%N]) [])
              (fun s1 => rep_loop (rmatch (Sym root_class)) true (length (m_rest s1)) s1
                 (fun s2 => rmatch (cats [Grp "suffix" (Rep true TR_SUFFIXES); Eol])
                              (set_cap "root" 0 (m_pos s2) s2) Some)) = Some fin).
    rewrite (rmatch_sym_cons root_class c (l ++ [10%N])) by (reflexivity || exact Hc).
    fold st1. change (m_rest st1) with (l ++ [10%N]).
    apply (rep_class_takes_prefix root_class [10%N] l);
      [reflexivity | exact Hl | | rewrite length_app; lia |].
    - intros d r E. inversion E; subst. reflexivity.
    - rewrite suffix_tail_at_newline
        by (exact TR_SUFFIXES_class_only || (apply consume_before_rest; reflexivity)).
      unfold fin. cbn [set_cap m_pos]. rewrite consume_before_pos. reflexivity. }
  rewrite Hm. unfold fin, group. cbn [set_cap m_caps List.find fst].
  change (String.eqb "suffix" "root") with false.
  change (String.eqb "root" "root") with true.
  change (String.eqb "suffix" "suffix") with true.
  cbv iota beta. cbn [default from_option]. unfold id.
  rewrite slice_empty. f_equal.
  rewrite slice_nonneg by lia. cbn [Z.to_nat Z.of_nat skipn].
  rewrite Nat2Z.id, Nat.sub_0_r. change (Z.to_nat (Z.of_nat 0)) with 0.
  cbn [skipn firstn]. f_equal.
  rewrite firstn_app, firstn_all, Nat.sub_diag. cbn [firstn]. apply app_nil_r.
Qed.

Lemma split_root_suffix_cases (norm : list N) :
  split_root_suffix norm = (norm, [])
  \/ exists p, norm = p ++ [10%N] /\ split_root_suffix norm = (p, []).
Proof.
  destruct (class_prefix root_class norm) as (p & tail & -> & Hp & Ht).
  destruct Ht as [->|(d & r & -> & Hd)].
  - rewrite app_nil_r. destruct p as [|c l]; [left; reflexivity|].
    left. apply split_root_suffix_whole; [discriminate | exact Hp].
  - destruct (decide (d = 10%N /\ r = [])) as [[-> ->]|Hnl].
    + destruct p as [|c l].
      * left. reflexivity.
      * right. exists (c :: l). split; [reflexivity|].
        apply split_root_suffix_newline. exact Hp.
    + left. unfold split_root_suffix.
      rewrite (TR_SUFFIX_RE_no_match p d r Hd Hnl). reflexivity.
Qed.

(** X1: The suffix analyzer never splits anything off, whatever string it is
    given: the suffix is always empty, and the root is the input itself,
    or the input without its final newline when there is one after a run
    of letters.  On a string without a newline the result is the input
    and the empty suffix. *)
Theorem split_root_suffix_total (norm : list N) :
  (split_root_suffix norm).2 = []
  /\ ((split_root_suffix norm).1 = norm \/ norm = (split_root_suffix norm).1 ++ [10%N])
  /\ (~ In 10%N norm -> split_root_suffix norm = (norm, [])).
Proof.
  destruct (split_root_suffix_cases norm) as [H|(p & Hn & H)]; rewrite H; cbn [fst snd].
  - auto.
  - split; [reflexivity|]. split; [right; exact Hn|].
    intros Hnot. exfalso. apply Hnot. rewrite Hn. apply in_or_app. right. left. reflexivity.
Qed.

(* ===================================================================== *)
(** ** What a match reads *)
(* ===================================================================== *)

Lemma all_of_app (cls : N -> bool) (q1 q2 : list N) :
  all_of cls q1 -> all_of cls q2 -> all_of cls (q1 ++ q2).
Proof. unfold all_of. intros H1 H2. rewrite forallb_app, H1, H2. reflexivity. Qed.

Lemma rep_loop_reads {R} (cls : N -> bool)
    (body : mstate -> (mstate -> option R) -> option R) (g : bool) (n : nat) :
  reads (all_of cls) body -> reads (all_of cls) (rep_loop body g n).
Proof.
  intros Hb. induction n as [|n IH]; intros st k x H; simpl in H.
  - exists st, []. repeat split; [simpl; lia | exact H].
  - assert (Hagain : body st (fun st' =>
        if m_pos st <? m_pos st' then rep_loop body g n st' k else None) = Some x ->
        exists st' q, m_rest st = q ++ m_rest st' /\ all_of cls q
          /\ m_pos st' = m_pos st + length q /\ k st' = Some x).
    { intros Ha. apply Hb in Ha. destruct Ha as (st1 & q1 & Hr1 & Hc1 & Hp1 & Hk).
      destruct (m_pos st <? m_pos st1) eqn:E; [|discriminate].
      apply IH in Hk. destruct Hk as (st2 & q2 & Hr2 & Hc2 & Hp2 & Hk2).
      exists st2, (q1 ++ q2). split; [|split; [|split]].
      - rewrite Hr1, Hr2. apply app_assoc.
      - apply all_of_app; assumption.
      - rewrite length_app. lia.
      - exact Hk2. }
    assert (Hstay : k st = Some x ->
        exists st' q, m_rest st = q ++ m_rest st' /\ all_of cls q
          /\ m_pos st' = m_pos st + length q /\ k st' = Some x).
    { intros Hk. exists st, []. repeat split; [simpl; lia | exact Hk]. }
    destruct g.
    + destruct (body st _) eqn:E; [apply Hagain; congruence | apply Hstay; exact H].
    + destruct (k st) eqn:E; [apply Hstay; congruence | apply Hagain; exact H].
Qed.

Lemma rmatch_reads {R} (cls : N -> bool) (r : regex) :
  reads_only cls r -> reads (R:=R) (all_of cls) (rmatch r).
Proof.
  induction r; intros Hc st k x H; simpl in H, Hc.
  - exists st, []. repeat split; [simpl; lia | exact H].
  - destruct (m_rest st) as [|c rest] eqn:E; [discriminate|].
    destruct (p c) eqn:Ep; [|discriminate].
    exists (advance c rest st), [c]. split; [reflexivity|]. split; [|split; [simpl; lia | exact H]].
    unfold all_of. cbn [forallb]. rewrite (Hc c Ep). reflexivity.
  - destruct Hc as [Hc1 Hc2]. apply (IHr1 Hc1) in H.
    destruct H as (st1 & q1 & Hr1 & Hq1 & Hp1 & H).
    apply (IHr2 Hc2) in H. destruct H as (st2 & q2 & Hr2 & Hq2 & Hp2 & H).
    exists st2, (q1 ++ q2). split; [|split; [|split]].
    + rewrite Hr1, Hr2. apply app_assoc.
    + apply all_of_app; assumption.
    + rewrite length_app. lia.
    + exact H.
  - destruct Hc as [Hc1 Hc2]. destruct (rmatch r1 st k) eqn:E.
    + apply (IHr1 Hc1). congruence.
    + apply (IHr2 Hc2). exact H.
  - eapply rep_loop_reads; [exact (IHr Hc) | exact H].
  - apply (IHr Hc) in H. destruct H as (st1 & q1 & Hr1 & Hq1 & Hp1 & H).
    exists (set_cap name (m_pos st) (m_pos st1) st1), q1. repeat split; assumption.
  - exists st, []. repeat split; [simpl; lia|].
    destruct (m_rest st) as [|c [|e rest]]; try discriminate; [exact H|].
    destruct (c =? 10)%N; [exact H | discriminate].
  - destruct (xorb _ _); [|discriminate]. exists st, []. repeat split; [simpl; lia | exact H].
  - destruct (m_prev st) as [c|]; [|discriminate].
    destruct (p c); [|discriminate]. exists st, []. repeat split; [simpl; lia | exact H].
Qed.

(** A literal reads exactly its own characters. *)
Lemma lit_reads {R} (s : list N) : reads (R:=R) (eq s) (rmatch (lit s)).
Proof.
  unfold lit. induction s as [|c s IH]; intros st k x H.
  - exists st, []. repeat split; [simpl; lia | exact H].
  - assert (Hsym : forall k', rmatch (Sym (N.eqb c)) st k' = Some x ->
              exists rest, m_rest st = c :: rest /\ k' (advance c rest st) = Some x).
    { intros k' H'. simpl in H'. destruct (m_rest st) as [|d rest]; [discriminate|].
      destruct (c =? d)%N eqn:E; [|discriminate]. apply N.eqb_eq in E. subst d.
      exists rest. auto. }
    destruct s as [|c2 s].
    + apply Hsym in H. destruct H as (rest & Hr & Hk).
      exists (advance c rest st), [c]. repeat split; [exact Hr | simpl; lia | exact Hk].
    + change (rmatch (Sym (N.eqb c)) st (fun st' => rmatch (lit_with N.eqb (c2 :: s)) st' k)
              = Some x) in H.
      apply Hsym in H. destruct H as (rest & Hr & Hk).
      apply IH in Hk. destruct Hk as (st2 & q & Hr2 & <- & Hp2 & Hk).
      exists st2, (c :: c2 :: s). cbn [m_rest m_pos advance] in *.
      repeat split; [rewrite Hr, Hr2; reflexivity | simpl in *; lia | exact Hk].
Qed.

(** What [finditer] reports about a subject [s]: each span lies inside
    [s], and the characters it covers are what the pattern reads. *)
Lemma finditer_from_reads (P : list N -> Prop) (r : regex) (l : list N) :
  reads (R:=mstate) P (rmatch r) ->
  forall skip pos prev a b, In (a, b) (finditer_from r skip pos prev l) ->
    pos + skip <= a /\ a <= pos + length l
    /\ exists q rest, skipn (a - pos) l = q ++ rest /\ P q /\ b = a + length q.
Proof.
  intros Hc. induction l as [|c l IH]; intros skip pos prev a b H.
  - destruct skip; simpl in H; [|contradiction].
    destruct (match_here r _) as [st'|] eqn:E; [|contradiction].
    destruct H as [H|[]]. inversion H; subst.
    apply Hc in E. destruct E as (st1 & q & Hr & Hq & Hp & Hk).
    inversion Hk; subst st1. cbn [m_rest m_pos] in *.
    split; [lia|]. split; [simpl; lia|].
    exists q, (m_rest st'). rewrite Nat.sub_diag. auto.
  - assert (Hrec : forall skip' prev', In (a, b) (finditer_from r skip' (S pos) prev' l) ->
              S pos + skip' <= a /\ a <= pos + length (c :: l)
              /\ exists q rest, skipn (a - pos) (c :: l) = q ++ rest
                                /\ P q /\ b = a + length q).
    { intros skip' prev' H'. apply IH in H'.
      destruct H' as (Hle & Hup & q & rest & Hs & Hq & Hb).
      split; [exact Hle|]. split; [simpl; lia|]. exists q, rest.
      replace (a - pos) with (S (a - S pos)) by lia. auto. }
    destruct skip; simpl in H.
    + destruct (match_here r _) as [st'|] eqn:E.
      * destruct H as [H|H].
        -- inversion H; subst.
           apply Hc in E.
           destruct E as (st1 & q & Hr & Hq & Hp & Hk).
           inversion Hk; subst st1. cbn [m_rest m_pos] in *.
           split; [lia|]. split; [lia|].
           exists q, (m_rest st'). rewrite Nat.sub_diag. auto.
        -- apply Hrec in H. destruct H as (Hle & Hup & H). repeat split; [lia | lia | exact H].
      * apply Hrec in H. destruct H as (Hle & Hup & H). repeat split; [lia | lia | exact H].
    + apply Hrec in H. destruct H as (Hle & Hup & H). repeat split; [lia | lia | exact H].
Qed.

Lemma finditer_reads (P : list N -> Prop) (r : regex) (s : list N) (a b : nat) :
  reads (R:=mstate) P (rmatch r) -> In (a, b) (finditer r s) ->
  a <= b /\ b <= length s
  /\ P (slice s (Z.of_nat a) (Z.of_nat b))
  /\ length (slice s (Z.of_nat a) (Z.of_nat b)) = b - a
  /\ exists rest, skipn a s = slice s (Z.of_nat a) (Z.of_nat b) ++ rest.
Proof.
  intros Hc H. apply (finditer_from_reads P r s Hc) in H.
  destruct H as (_ & Hup & q & rest & Hs & Hq & ->). rewrite Nat.sub_0_r in Hs.
  simpl in Hup.
  assert (Hlen : a + length q <= length s).
  { assert (Hl : length (skipn a s) = length q + length rest)
      by (rewrite Hs, length_app; reflexivity).
    rewrite length_skipn in Hl. lia. }
  assert (Hsl : slice s (Z.of_nat a) (Z.of_nat (a + length q)) = q).
  { rewrite slice_nonneg by lia. rewrite !Nat2Z.id.
    replace (a + length q - a) with (length q) by lia.
    rewrite Hs, firstn_app, Nat.sub_diag, firstn_all. cbn [firstn]. apply app_nil_r. }
  rewrite Hsl. repeat split; [lia | exact Hlen | exact Hq | lia |].
  exists rest. exact Hs.
Qed.

Lemma sym_reads {R} (p : N -> bool) :
  reads (R:=R) (fun q => exists c, q = [c] /\ p c = true) (rmatch (Sym p)).
Proof.
  intros st k x H. simpl in H. destruct (m_rest st) as [|c rest] eqn:E; [discriminate|].
  destruct (p c) eqn:Ep; [|discriminate].
  exists (advance c rest st), [c]. repeat split; [eauto | simpl; lia | exact H].
Qed.

Lemma cat_reads {R} (P1 P2 : list N -> Prop) (r1 r2 : regex) :
  reads (R:=R) P1 (rmatch r1) -> reads (R:=R) P2 (rmatch r2) ->
  reads (R:=R) (fun q => exists q1 q2, q = q1 ++ q2 /\ P1 q1 /\ P2 q2) (rmatch (Cat r1 r2)).
Proof.
  intros H1 H2 st k x H. simpl in H.
  apply H1 in H. destruct H as (st1 & q1 & Hr1 & Hq1 & Hp1 & H).
  apply H2 in H. destruct H as (st2 & q2 & Hr2 & Hq2 & Hp2 & H).
  exists st2, (q1 ++ q2). split; [|split; [|split]].
  - rewrite Hr1, Hr2. apply app_assoc.
  - eauto.
  - rewrite length_app. lia.
  - exact H.
Qed.

(** A token starts with a letter and consists of letters and joiners. *)
Lemma TOKEN_RE_reads {R} :
  reads (R:=R)
    (fun q => exists c rest,
       q = c :: rest /\ token_letter c = true /\ all_of token_char rest)
    (rmatch TOKEN_RE).
Proof.
  intros st k x H.
  change (rmatch (Cat (Sym token_letter)
            (cats [Rep true (Sym token_letter);
                   Opt (cats [Sym token_joiner; Plus (Sym token_letter)])])) st k = Some x) in H.
  assert (Hrest : reads_only token_char
            (cats [Rep true (Sym token_letter);
                   Opt (cats [Sym token_joiner; Plus (Sym token_letter)])])).
  { unfold token_char. cbn.
    repeat match goal with
           | |- _ /\ _ => split
           | |- True => exact I
           | |- forall c, _ => intros c Hc; rewrite Hc; auto using orb_true_r
           end. }
  apply (cat_reads _ _ _ _ (sym_reads token_letter) (rmatch_reads token_char _ Hrest)) in H.
  destruct H as (st' & q & Hr & (q1 & q2 & -> & (c & -> & Hc) & Hq2) & Hp & Hk).
  exists st', ([c] ++ q2). repeat split; try assumption. exists c, q2. auto.
Qed.

Lemma token_char_lower_cp (c : N) : token_char c = true -> ~ In 10%N (lower_cp c).
Proof.
  intros H Hin. assert (Hc : c = 10%N).
  { unfold lower_cp, in_range in Hin.
    repeat match type of Hin with
           | context [if ?b then _ else _] => destruct b eqn:?
           end;
      simpl in Hin; repeat destruct Hin as [Hin|Hin];
      try contradiction; try discriminate; lia. }
  subst c. discriminate H.
Qed.

Lemma token_lower_no_newline (q : list N) : all_of token_char q -> ~ In 10%N (lower q).
Proof.
  unfold all_of, lower. induction q as [|c q IH]; intros H; [intros []|].
  cbn [forallb] in H. apply andb_true_iff in H. destruct H as [Hc Hq].
  cbn [flat_map]. intros Hin. apply in_app_or in Hin. destruct Hin as [Hin|Hin].
  - exact (token_char_lower_cp c Hc Hin).
  - exact (IH Hq Hin).
Qed.

(** On the lowercased form of a token the suffix analyzer returns the
    token itself. *)
Lemma split_root_suffix_token (q : list N) :
  all_of token_char q -> split_root_suffix (lower q) = (lower q, []).
Proof.
  intros Hq. destruct (split_root_suffix_cases (lower q)) as [H|(p & Hn & _)]; [exact H|].
  exfalso. apply (token_lower_no_newline q Hq). rewrite Hn.
  apply in_or_app. right. left. reflexivity.
Qed.

(* ===================================================================== *)
(** ** Where the sentences of a text are found *)
(* ===================================================================== *)

Lemma starts_with_prefix (p s : list N) :
  starts_with p s = true <-> exists tail, s = p ++ tail.
Proof.
  revert s. induction p as [|a p IH]; intros s.
  - split; [intros _; exists s; reflexivity | reflexivity].
  - destruct s as [|b s]; cbn [starts_with].
    + split; [discriminate | intros (tail & H); discriminate].
    + rewrite andb_true_iff, N.eqb_eq, IH. split.
      * intros (-> & tail & ->). exists tail. reflexivity.
      * intros (tail & H). inversion H; subst. eauto.
Qed.

(** [find] returns the first occurrence at or after the start offset
    whenever there is one. *)
Lemma find_aux_first (sub : list N) (d : nat) : forall (l : list N) (i : nat),
  occurs_at l d sub ->
  exists j, find_aux sub l i = Z.of_nat (i + j) /\ j <= d /\ occurs_at l j sub.
Proof.
  induction d as [|d IH]; intros l i (pre & tail & Hl & Hlen).
  - destruct pre; [|discriminate]. cbn [app] in Hl.
    exists 0. split; [|split; [lia | exists [], tail; auto]].
    destruct l; cbn [find_aux];
      rewrite (proj2 (starts_with_prefix sub _) (ex_intro _ tail Hl)); f_equal; lia.
  - destruct (starts_with sub l) eqn:E.
    + exists 0. split; [|split; [lia|]].
      * destruct l; cbn [find_aux]; rewrite E; f_equal; lia.
      * apply starts_with_prefix in E. destruct E as (t & ->). exists [], t. auto.
    + destruct pre as [|x pre]; [discriminate|]. subst l. cbn [app] in *.
      cbn [find_aux]. rewrite E.
      destruct (IH (pre ++ sub ++ tail) (S i)) as (j & Hf & Hj & (pre2 & t2 & Hl2 & Hlen2)).
      { exists pre, tail. split; [reflexivity|]. simpl in Hlen. lia. }
      exists (S j). split; [rewrite Hf; f_equal; lia|]. split; [lia|].
      exists (x :: pre2), t2. split; [rewrite Hl2; reflexivity | simpl; lia].
Qed.

Lemma occurs_at_skipn (s sub : list N) (i pos : nat) :
  occurs_at s i sub -> pos <= i -> occurs_at (skipn pos s) (i - pos) sub.
Proof.
  intros (pre & tail & -> & Hlen) Hle.
  exists (skipn pos pre), tail. split.
  - rewrite skipn_app. replace (pos - length pre) with 0 by lia. reflexivity.
  - rewrite length_skipn. lia.
Qed.

Lemma occurs_at_unskip (s sub : list N) (j pos : nat) :
  pos <= length s -> occurs_at (skipn pos s) j sub -> occurs_at s (pos + j) sub.
Proof.
  intros Hle (pre & tail & Hs & Hlen).
  exists (firstn pos s ++ pre), tail. split.
  - rewrite <- app_assoc, <- Hs. symmetry. apply firstn_skipn.
  - rewrite length_app, length_firstn. lia.
Qed.

Lemma occurs_at_length (s sub : list N) (i : nat) :
  occurs_at s i sub -> i + length sub <= length s.
Proof. intros (pre & tail & -> & <-). rewrite !length_app. lia. Qed.

Lemma find_first (s sub : list N) (pos i : nat) :
  occurs_at s i sub -> pos <= i ->
  exists f, find s sub (Z.of_nat pos) = Z.of_nat f /\ pos <= f /\ f <= i /\ occurs_at s f sub.
Proof.
  intros Hocc Hle. pose proof (occurs_at_length _ _ _ Hocc) as Hlen.
  unfold find, len. destruct (Z.of_nat (length s) <? Z.of_nat pos)%Z eqn:E;
    [apply Z.ltb_lt in E; lia|].
  rewrite Nat2Z.id.
  destruct (find_aux_first sub (i - pos) (skipn pos s) pos (occurs_at_skipn _ _ _ _ Hocc Hle))
    as (j & Hf & Hj & Hocc').
  exists (pos + j). split; [exact Hf|]. split; [lia|]. split; [lia|].
  apply occurs_at_unskip; [lia | exact Hocc'].
Qed.

Lemma in_order_earlier (s : list N) (pieces : list (list N)) (pos pos' : nat) :
  pos' <= pos -> in_order s pos pieces -> in_order s pos' pieces.
Proof.
  destruct pieces as [|p rest]; [auto|]. intros Hle (i & Hi & H). exists i. split; [lia | exact H].
Qed.

(** The forward search recovers an occurrence of every piece. *)
Lemma sentence_offsets_occur (text : list N) (pieces : list (list N)) : forall pos,
  in_order text pos pieces ->
  forall base s, In (base, s) (combine (sentence_offsets text pieces (Z.of_nat pos)) pieces) ->
    exists f, base = Z.of_nat f /\ occurs_at text f s.
Proof.
  induction pieces as [|p rest IH]; intros pos Hord base s Hin; [contradiction|].
  destruct Hord as (i & Hi & Hocc & Hrest).
  destruct (find_first text p pos i Hocc Hi) as (f & Hf & Hpf & Hfi & Hoccf).
  cbn [sentence_offsets] in Hin. rewrite Hf in Hin.
  destruct (Z.of_nat f =? -1)%Z eqn:E; [apply Z.eqb_eq in E; lia|].
  cbn [combine] in Hin. destruct Hin as [Hin|Hin].
  - inversion Hin; subst. exists f. auto.
  - unfold len in Hin. rewrite <- Nat2Z.inj_add in Hin.
    apply (IH (f + length p)); [|exact Hin].
    apply (in_order_earlier text rest (i + length p)); [lia | exact Hrest].
Qed.

Lemma reads_only_any (r : regex) : reads_only (fun _ => true) r.
Proof. induction r; simpl; auto. Qed.

Lemma chain_earlier (spans : list (nat * nat)) (from from' n : nat) :
  from' <= from -> chain from n spans -> chain from' n spans.
Proof.
  destruct spans as [|[a b] rest]; [auto|]. cbn [chain]. intros Hle (Ha & H).
  split; [lia | exact H].
Qed.

(** The matches [finditer] yields are listed from left to right and do
    not overlap. *)
Lemma finditer_from_chain (r : regex) (l : list N) : forall skip pos prev,
  chain (pos + skip) (pos + length l) (finditer_from r skip pos prev l).
Proof.
  assert (Hend : forall pos prev l st',
            match_here r (MState pos prev l []) = Some st' ->
            pos <= m_pos st' /\ m_pos st' <= pos + length l).
  { intros pos prev l0 st' E.
    apply (rmatch_reads (fun _ => true) r (reads_only_any r)) in E.
    destruct E as (st1 & q & Hr & _ & Hp & Hk). inversion Hk; subst st1.
    cbn [m_rest m_pos] in *. rewrite Hr, length_app. lia. }
  induction l as [|c l IH]; intros skip pos prev.
  - destruct skip; simpl; [|exact I].
    destruct (match_here r _) as [st'|] eqn:E; [|exact I].
    apply Hend in E. simpl in E. cbn [chain]. repeat split; lia.
  - destruct skip; cbn [finditer_from].
    + destruct (match_here r _) as [st'|] eqn:E.
      * apply Hend in E. cbn [chain]. split; [lia|]. split; [lia|]. split; [lia|].
        apply (chain_earlier _ (S pos + (m_pos st' - pos - 1))); [lia|].
        replace (pos + length (c :: l)) with (S pos + length l) by (simpl; lia).
        apply IH.
      * apply (chain_earlier _ (S pos + 0)); [lia|].
        replace (pos + length (c :: l)) with (S pos + length l) by (simpl; lia).
        apply IH.
    + replace (pos + S skip) with (S pos + skip) by lia.
      replace (pos + length (c :: l)) with (S pos + length l) by (simpl; lia).
      apply IH.
Qed.

(** The pieces [split] returns occur in the subject one after the other. *)
Lemma split_at_in_order (s : list N) (spans : list (nat * nat)) : forall from,
  from <= length s -> chain from (length s) spans ->
  in_order s from (split_at s from spans).
Proof.
  induction spans as [|[a b] rest IH]; intros from Hle Hch.
  - cbn [split_at in_order]. exists from. split; [lia|]. split; [|exact I].
    rewrite slice_from_nonneg by lia. rewrite Nat2Z.id.
    exists (firstn from s), []. split.
    + rewrite app_nil_r. symmetry. apply firstn_skipn.
    + rewrite length_firstn. lia.
  - cbn [chain] in Hch. destruct Hch as (Ha & Hab & Hb & Hch).
    cbn [split_at in_order]. exists from. split; [lia|].
    rewrite slice_nonneg by lia. rewrite !Nat2Z.id.
    assert (Hlen : length (firstn (a - from) (skipn from s)) = a - from)
      by (rewrite length_firstn, length_skipn; lia).
    split.
    + exists (firstn from s), (skipn a s). split.
      * replace (skipn a s) with (skipn (a - from) (skipn from s))
          by (rewrite skipn_skipn; f_equal; lia).
        rewrite firstn_skipn. symmetry. apply firstn_skipn.
      * rewrite length_firstn. lia.
    + rewrite Hlen. apply (in_order_earlier s _ b); [lia|]. apply IH; [lia | exact Hch].
Qed.

Lemma lstrip_suffix (s : list N) : exists pre, s = pre ++ lstrip s.
Proof.
  induction s as [|c s (pre & IH)]; [exists []; reflexivity|].
  cbn [lstrip]. destruct (is_space c).
  - exists (c :: pre). cbn [app]. f_equal. exact IH.
  - exists []. reflexivity.
Qed.

(** [strip] returns a stretch of the string it is given. *)
Lemma strip_inside (s : list N) : exists pre post, s = pre ++ strip s ++ post.
Proof.
  unfold strip, rstrip. destruct (lstrip_suffix s) as (pre & Hs).
  destruct (lstrip_suffix (rev (lstrip s))) as (pre' & Hr).
  exists pre, (rev pre'). rewrite <- rev_app_distr, <- Hr, rev_involutive. exact Hs.
Qed.

Lemma in_order_embed (pre post s : list N) (pieces : list (list N)) : forall pos,
  in_order s pos pieces -> in_order (pre ++ s ++ post) (length pre + pos) pieces.
Proof.
  induction pieces as [|p rest IH]; intros pos H; [exact I|].
  destruct H as (i & Hi & (p1 & t & -> & Hlen) & Hrest).
  exists (length pre + i). split; [lia|]. split.
  - exists (pre ++ p1), (t ++ post). split.
    + rewrite <- !app_assoc. reflexivity.
    + rewrite length_app. lia.
  - rewrite <- Nat.add_assoc. apply IH. exact Hrest.
Qed.

(** Every sentence is located at an offset where it does occur in the
    text: the forward search never falls back to its start position. *)
Lemma located_sentences_occur (text : list N) (base : Z) (s : list N) :
  In (base, s) (located_sentences text) ->
  exists f, base = Z.of_nat f /\ occurs_at text f s.
Proof.
  unfold located_sentences, split_sentences. intros H.
  destruct (strip_inside text) as (pre & post & Ht).
  destruct (strip text) as [|c l] eqn:E; [contradiction|].
  set (stripped := c :: l) in *.
  apply (sentence_offsets_occur text (re_split SENT_SPLIT stripped) 0); [|exact H].
  apply (in_order_earlier text _ (length pre + 0)); [lia|].
  rewrite Ht. apply in_order_embed. unfold re_split.
  apply split_at_in_order; [lia|]. apply (finditer_from_chain SENT_SPLIT stripped 0 0 None).
Qed.

Lemma slice_of_occurrence (text s : list N) (f a b : nat) :
  occurs_at text f s -> a <= b -> b <= length s ->
  slice text (Z.of_nat (f + a)) (Z.of_nat (f + b)) = slice s (Z.of_nat a) (Z.of_nat b).
Proof.
  intros (pre & tail & -> & <-) Hab Hb.
  rewrite !slice_nonneg by lia. rewrite !Nat2Z.id.
  replace (length pre + b - (length pre + a)) with (b - a) by lia.
  rewrite skipn_app, skipn_all2 by lia.
  replace (length pre + a - length pre) with a by lia. cbn [app].
  rewrite skipn_app. replace (a - length s) with 0 by lia. cbn [skipn].
  rewrite firstn_app, length_skipn. replace (b - a - (length s - a)) with 0 by lia.
  cbn [firstn]. apply app_nil_r.
Qed.

(* ===================================================================== *)
(** ** The span and the term of a candidate *)
(* ===================================================================== *)

Lemma lower_cp_single (c : N) : c <> 304%N -> lower_cp c = [lower1 c].
Proof.
  intros Hc. unfold lower1, lower_cp.
  repeat match goal with
         | |- context [if ?b then _ else _] => destruct b eqn:?
         end; try reflexivity.
  apply N.eqb_eq in Heqb2. contradiction.
Qed.

Lemma lower_map (s : list N) : ~ In 304%N s -> lower s = map lower1 s.
Proof.
  unfold lower. induction s as [|c s IH]; intros H; [reflexivity|].
  cbn [flat_map map]. rewrite lower_cp_single, IH.
  - reflexivity.
  - intros Hin. apply H. right. exact Hin.
  - intros ->. apply H. left. reflexivity.
Qed.

Lemma slice_map {A B} (f : A -> B) (l : list A) (a b : Z) :
  slice (map f l) a b = map f (slice l a b).
Proof. unfold slice. rewrite length_map, skipn_map, firstn_map. reflexivity. Qed.

Lemma slice_In {A} (l : list A) (a b : Z) (x : A) : In x (slice l a b) -> In x l.
Proof.
  unfold slice. intros H.
  set (i := Z.to_nat (clamp_index (Z.of_nat (length l)) a)) in *.
  set (n := Z.to_nat (clamp_index (Z.of_nat (length l)) b - clamp_index (Z.of_nat (length l)) a)) in *.
  rewrite <- (firstn_skipn i l). apply in_or_app. right.
  rewrite <- (firstn_skipn n (skipn i l)). apply in_or_app. left. exact H.
Qed.

Section Spans.
Variable SUGGESTIONS : gmap (list N) (list (list N)).
Variable FOREIGN_TERMS : gset (list N).
Variable WHITELIST : gset (list N).

Local Abbreviation PHRASES := (PHRASES FOREIGN_TERMS).
Local Abbreviation word_hit := (word_hit SUGGESTIONS FOREIGN_TERMS WHITELIST).
Local Abbreviation phrase_hit := (phrase_hit WHITELIST).
Local Abbreviation detect_candidates :=
  (detect_candidates SUGGESTIONS FOREIGN_TERMS WHITELIST).

(** A candidate of the token pass. *)
Lemma word_origin (text lvl : list N) (base : Z) (s : list N) (ti : nat)
    (span : nat * nat) (c : Candidate.t) :
  In (base, s) (located_sentences text) ->
  In (ti, span) (enumerate (finditer TOKEN_RE s)) ->
  In c (word_hit lvl (protect_spans text) s base ti span) ->
  is_word_candidate c = true
  /\ (0 <= Candidate.start c < Candidate.end_ c)%Z
  /\ (Candidate.end_ c <= len text)%Z
  /\ slice text (Candidate.start c) (Candidate.end_ c) = Candidate.original c
  /\ len (Candidate.original c) = (Candidate.end_ c - Candidate.start c)%Z
  /\ (exists ch rest, Candidate.original c = ch :: rest
                      /\ token_letter ch = true /\ all_of token_char rest)
  /\ Candidate.foreign_norm c = lower (Candidate.original c)
  /\ Candidate.root c = Candidate.foreign_norm c
  /\ Candidate.suffix c = [].
Proof.
  intros Hs Ht H. apply located_sentences_occur in Hs. destruct Hs as (f & -> & Hocc).
  apply enumerate_In in Ht. destruct span as [a b].
  apply (finditer_reads _ _ _ _ _ TOKEN_RE_reads) in Ht.
  destruct Ht as (Hab & Hb & (ch & rest & Hq & Hch & Hrest) & Hlen & _).
  apply word_hit_In in H. destruct H as (_ & _ & _ & _ & _ & h & Hh & _ & _ & ->).
  cbn [fst snd] in *. cbn [Candidate.start Candidate.end_ Candidate.original
    Candidate.foreign_norm Candidate.root Candidate.suffix].
  pose proof (occurs_at_length _ _ _ Hocc) as Hin.
  assert (Hne : a < b) by (rewrite Hq in Hlen; simpl in Hlen; lia).
  assert (Htok : all_of token_char (slice s (Z.of_nat a) (Z.of_nat b))).
  { rewrite Hq. unfold all_of in *. cbn [forallb]. unfold token_char at 1.
    rewrite Hch, Hrest. reflexivity. }
  unfold normalize_token in *. rewrite (split_root_suffix_token _ Htok). cbn [fst snd].
  assert (Hterm : h = lower (slice s (Z.of_nat a) (Z.of_nat b))).
  { unfold lexicon_hit in Hh. rewrite (split_root_suffix_token _ Htok) in Hh. cbn [fst] in Hh.
    repeat case_bool_decide; congruence. }
  split; [reflexivity|]. split; [lia|]. split; [unfold len; lia|].
  split; [rewrite <- !Nat2Z.inj_add; apply slice_of_occurrence; [exact Hocc | lia | exact Hb]|].
  split; [unfold len; rewrite Hlen; lia|].
  split; [exists ch, rest; auto|].
  split; [exact Hterm|]. split; [symmetry; exact Hterm | reflexivity].
Qed.

(** A candidate of the phrase pass: its offsets are those of the phrase
    in the lowercased text. *)
Lemma phrase_origin (text : list N) (ph : list N) (span : nat * nat) (c : Candidate.t) :
  In ph PHRASES ->
  In span (finditer (lit ph) (lower text)) ->
  In c (phrase_hit text (protect_spans text) ph span) ->
  is_phrase_candidate c = true
  /\ (0 <= Candidate.start c < Candidate.end_ c)%Z
  /\ (Candidate.end_ c <= len (lower text))%Z
  /\ slice (lower text) (Candidate.start c) (Candidate.end_ c) = Candidate.foreign_norm c
  /\ len (Candidate.foreign_norm c) = (Candidate.end_ c - Candidate.start c)%Z
  /\ Candidate.original c = slice text (Candidate.start c) (Candidate.end_ c)
  /\ Candidate.root c = Candidate.foreign_norm c
  /\ Candidate.suffix c = [].
Proof.
  intros Hph Hspan H. destruct span as [a b].
  apply (finditer_reads _ _ _ _ _ (lit_reads ph)) in Hspan.
  destruct Hspan as (Hab & Hb & Hq & Hlen & _).
  apply phrase_hit_In in H. destruct H as (_ & _ & ->).
  cbn [fst snd] in *. cbn [Candidate.start Candidate.end_ Candidate.original
    Candidate.foreign_norm Candidate.root Candidate.suffix].
  apply PHRASES_In in Hph. destruct Hph as [_ Hsp].
  assert (Hne : a < b).
  { rewrite <- Hq in Hlen. destruct ph; [|simpl in Hlen; lia].
    apply elem_of_nil in Hsp. contradiction. }
  split; [reflexivity|]. split; [lia|]. split; [unfold len; lia|].
  split; [symmetry; exact Hq|]. split; [unfold len; rewrite Hq at 1; rewrite Hlen; lia|].
  auto.
Qed.

(** X3: Every word candidate lies inside the text it was found in, covers at
    least one character, and its original is exactly that stretch of the
    text: the offset recovered for its sentence is always one where the
    sentence does occur. *)
Theorem word_candidate_span (text lvl : list N) (c : Candidate.t) :
  In c (detect_candidates text lvl) -> is_word_candidate c = true ->
  (0 <= Candidate.start c < Candidate.end_ c)%Z
  /\ (Candidate.end_ c <= len text)%Z
  /\ slice text (Candidate.start c) (Candidate.end_ c) = Candidate.original c
  /\ len (Candidate.original c) = (Candidate.end_ c - Candidate.start c)%Z.
Proof.
  intros H Hw. apply detect_candidates_In in H.
  destruct H as [ph span Hph _ Hspan H|base s ti span Hs Ht H].
  - apply phrase_hit_In in H. destruct H as (_ & _ & ->). discriminate Hw.
  - destruct (word_origin text lvl base s ti span c Hs Ht H)
      as (_ & H1 & H2 & H3 & H4 & _). auto.
Qed.

(** X2: The term of a word candidate is its token in lowercase, whole: the
    token starts with a letter and consists of letters and joiners, the
    root equals the term and the suffix is empty.  An inflected token is
    reported only when the inflected form itself is in the lexicon. *)
Theorem word_candidate_term_is_token (text lvl : list N) (c : Candidate.t) :
  In c (detect_candidates text lvl) -> is_word_candidate c = true ->
  (exists ch rest, Candidate.original c = ch :: rest
                   /\ token_letter ch = true /\ all_of token_char rest)
  /\ Candidate.foreign_norm c = lower (Candidate.original c)
  /\ Candidate.root c = Candidate.foreign_norm c
  /\ Candidate.suffix c = []
  /\ lower (Candidate.original c) ∈ FOREIGN_TERMS.
Proof.
  intros H Hw. pose proof (detect_candidates_In _ _ _ _ _ _ H) as Ho.
  destruct Ho as [ph span Hph _ Hspan Hp|base s ti span Hs Ht Hh].
  - apply phrase_hit_In in Hp. destruct Hp as (_ & _ & ->). discriminate Hw.
  - destruct (word_origin text lvl base s ti span c Hs Ht Hh)
      as (_ & _ & _ & _ & _ & Htok & Hterm & Hroot & Hsuf).
    repeat (split; [assumption|]). rewrite <- Hterm.
    apply word_hit_In in Hh. destruct Hh as (_ & _ & _ & _ & _ & h & Hh & _ & _ & ->).
    cbn. apply lexicon_hit_Some in Hh. exact Hh.
Qed.

(** X4: The offsets of a phrase candidate index the lowercased text: there
    they delimit exactly the phrase, which is not empty.  The original is
    whatever the text itself holds between the same offsets. *)
Theorem phrase_candidate_span_in_lowered_text (text lvl : list N) (c : Candidate.t) :
  In c (detect_candidates text lvl) -> is_phrase_candidate c = true ->
  (0 <= Candidate.start c < Candidate.end_ c)%Z
  /\ (Candidate.end_ c <= len (lower text))%Z
  /\ slice (lower text) (Candidate.start c) (Candidate.end_ c) = Candidate.foreign_norm c
  /\ len (Candidate.foreign_norm c) = (Candidate.end_ c - Candidate.start c)%Z
  /\ Candidate.original c = slice text (Candidate.start c) (Candidate.end_ c).
Proof.
  intros H Hp. apply detect_candidates_In in H.
  destruct H as [ph span Hph _ Hspan H|base s ti span Hs Ht H].
  - destruct (phrase_origin text ph span c Hph Hspan H)
      as (_ & H1 & H2 & H3 & H4 & H5 & _). auto.
  - apply word_hit_In in H. destruct H as (_ & _ & _ & _ & _ & h & _ & _ & _ & ->).
    discriminate Hp.
Qed.

Lemma origin_span (text lvl : list N) (c : Candidate.t) :
  ~ In 304%N text -> origin SUGGESTIONS FOREIGN_TERMS WHITELIST text lvl c ->
  (0 <= Candidate.start c < Candidate.end_ c)%Z
  /\ (Candidate.end_ c <= len text)%Z
  /\ slice text (Candidate.start c) (Candidate.end_ c) = Candidate.original c
  /\ len (Candidate.original c) = (Candidate.end_ c - Candidate.start c)%Z
  /\ lower (Candidate.original c) = Candidate.foreign_norm c.
Proof.
  intros Hno H.
  destruct H as [ph span Hph _ Hspan H|base s ti span Hs Ht H].
  - destruct (phrase_origin text ph span c Hph Hspan H)
      as (_ & H1 & H2 & H3 & H4 & H5 & _).
    rewrite (lower_map text Hno) in H2, H3.
    unfold len in H2. rewrite length_map in H2.
    assert (Hlow : lower (Candidate.original c) = Candidate.foreign_norm c).
    { rewrite H5, lower_map, <- slice_map; [exact H3|].
      intros Hin. apply Hno. eapply slice_In. exact Hin. }
    split; [exact H1|]. split; [exact H2|]. split; [symmetry; exact H5|].
    split; [|exact Hlow].
    rewrite <- H4, <- Hlow, lower_map.
    + unfold len. rewrite length_map. reflexivity.
    + rewrite H5. intros Hin. apply Hno. eapply slice_In. exact Hin.
  - destruct (word_origin text lvl base s ti span c Hs Ht H)
      as (_ & H1 & H2 & H3 & H4 & _ & Hterm & _). auto.
Qed.
End Spans.

Lemma word_candidate_span_witness :
  (0 <= Candidate.start report_candidate < Candidate.end_ report_candidate)%Z
  /\ (Candidate.end_ report_candidate <= len report_text)%Z
  /\ slice report_text (Candidate.start report_candidate) (Candidate.end_ report_candidate)
     = Candidate.original report_candidate
  /\ len (Candidate.original report_candidate)
     = (Candidate.end_ report_candidate - Candidate.start report_candidate)%Z.
Proof.
  apply (word_candidate_span ∅ report_lexicon api_whitelist report_text
           (u8 "strict") report_candidate).
  - vm_compute. left. reflexivity.
  - vm_compute. reflexivity.
Defined.

Lemma word_candidate_term_is_token_witness :
  (exists ch rest, Candidate.original report_candidate = ch :: rest
                   /\ token_letter ch = true /\ all_of token_char rest)
  /\ Candidate.foreign_norm report_candidate = lower (Candidate.original report_candidate)
  /\ Candidate.root report_candidate = Candidate.foreign_norm report_candidate
  /\ Candidate.suffix report_candidate = []
  /\ lower (Candidate.original report_candidate) ∈ report_lexicon.
Proof.
  apply (word_candidate_term_is_token ∅ report_lexicon api_whitelist report_text
           (u8 "strict") report_candidate).
  - vm_compute. left. reflexivity.
  - vm_compute. reflexivity.
Defined.

Lemma phrase_candidate_span_in_lowered_text_witness :
  (0 <= Candidate.start ml_candidate < Candidate.end_ ml_candidate)%Z
  /\ (Candidate.end_ ml_candidate <= len (lower ml_text))%Z
  /\ slice (lower ml_text) (Candidate.start ml_candidate) (Candidate.end_ ml_candidate)
     = Candidate.foreign_norm ml_candidate
  /\ len (Candidate.foreign_norm ml_candidate)
     = (Candidate.end_ ml_candidate - Candidate.start ml_candidate)%Z
  /\ Candidate.original ml_candidate
     = slice ml_text (Candidate.start ml_candidate) (Candidate.end_ ml_candidate).
Proof.
  apply (phrase_candidate_span_in_lowered_text ∅ ml_lexicon ∅ ml_text
           (u8 "strict") ml_candidate).
  - vm_compute. left. reflexivity.
  - vm_compute. reflexivity.
Defined.


Lemma apply_replacements_disjoint_witness :
  apply_replacements (u8 "optimize performans")
    [mkReplacement 9 19 (u8 "verim"); mkReplacement 0 8 (u8 "eniyilemek")]
  = spliced (u8 "optimize performans") 0
      [mkReplacement 0 8 (u8 "eniyilemek"); mkReplacement 9 19 (u8 "verim")].
Proof.
  apply (apply_replacements_disjoint (u8 "optimize performans")
           [mkReplacement 0 8 (u8 "eniyilemek"); mkReplacement 9 19 (u8 "verim")]
           [mkReplacement 9 19 (u8 "verim"); mkReplacement 0 8 (u8 "eniyilemek")]).
  - vm_compute. repeat split; discriminate.
  - apply perm_swap.
Defined.

(* ===================================================================== *)
(** ** Candidate ids *)
(* ===================================================================== *)

Lemma dec_digits_value (f : nat) : forall (n : N) (acc : list N),
  (n < 10 ^ N.of_nat f)%N ->
  fold_left (fun v d => (10 * v + (d - 48))%N) (dec_digits f n acc) 0%N
  = fold_left (fun v d => (10 * v + (d - 48))%N) acc n.
Proof.
  induction f as [|f IH]; intros n acc H.
  - change (10 ^ N.of_nat 0)%N with 1%N in H. assert (n = 0%N) as -> by lia. reflexivity.
  - rewrite Nat2N.inj_succ, N.pow_succ_r' in H. cbn [dec_digits].
    pose proof (N.Div0.div_mod n 10) as Hdm.
    pose proof (N.mod_lt n 10 ltac:(lia)) as Hm.
    destruct (n <? 10)%N eqn:E.
    + apply N.ltb_lt in E. cbn [fold_left]. f_equal.
      rewrite N.mod_small by exact E. lia.
    + rewrite IH by (apply N.Div0.div_lt_upper_bound; lia).
      cbn [fold_left]. f_equal.
      revert Hdm Hm. generalize (n / 10)%N (n mod 10)%N. intros q r Hdm Hm. lia.
Qed.

Lemma dec_digits_all (f : nat) : forall (n : N) (acc : list N),
  forallb is_digit acc = true -> forallb is_digit (dec_digits f n acc) = true.
Proof.
  induction f as [|f IH]; intros n acc H; [exact H|].
  cbn [dec_digits].
  assert (Hacc : forallb is_digit ((48 + n mod 10)%N :: acc) = true).
  { cbn [forallb]. rewrite H, andb_true_r. unfold is_digit, in_range.
    pose proof (N.mod_lt n 10 ltac:(lia)) as Hm. revert Hm.
    generalize (n mod 10)%N. intros r Hm.
    apply andb_true_iff. split; apply N.leb_le; lia. }
  destruct (n <? 10)%N; [exact Hacc | apply IH; exact Hacc].
Qed.

Lemma str_of_int_nonneg (z : Z) :
  (0 <= z)%Z ->
  str_of_int z = dec_digits (S (N.to_nat (N.log2 (Z.to_N z)))) (Z.to_N z) [].
Proof.
  intros Hz. unfold str_of_int. rewrite Z.abs_eq by exact Hz.
  destruct (z <? 0)%Z eqn:E; [apply Z.ltb_lt in E; lia | reflexivity].
Qed.

(** The decimal rendering of an offset is a string of digits that reads
    back as the offset. *)
Lemma str_of_int_value (z : Z) :
  (0 <= z)%Z ->
  forallb is_digit (str_of_int z) = true /\ digits_value (str_of_int z) = Z.to_N z.
Proof.
  intros Hz. rewrite (str_of_int_nonneg z Hz). split; [apply dec_digits_all; reflexivity|].
  unfold digits_value. rewrite dec_digits_value; [reflexivity|].
  rewrite Nat2N.inj_succ, N2Nat.id.
  destruct (N.eq_dec (Z.to_N z) 0%N) as [->|Hn]; [reflexivity|].
  apply N.lt_le_trans with (2 ^ N.succ (N.log2 (Z.to_N z)))%N.
  - apply N.log2_spec. lia.
  - apply N.pow_le_mono_l. lia.
Qed.

Lemma str_of_int_inj (a b : Z) :
  (0 <= a)%Z -> (0 <= b)%Z -> str_of_int a = str_of_int b -> a = b.
Proof.
  intros Ha Hb H.
  destruct (str_of_int_value a Ha) as [_ Hva]. destruct (str_of_int_value b Hb) as [_ Hvb].
  rewrite H in Hva. rewrite Hva in Hvb. lia.
Qed.

Lemma digits_before_colon (A A' B B' : list N) :
  forallb is_digit A = true -> forallb is_digit A' = true ->
  A ++ 58%N :: B = A' ++ 58%N :: B' -> A = A' /\ B = B'.
Proof.
  revert A'. induction A as [|d A IH]; intros [|d' A'] HA HA' H; cbn [app] in H.
  - inversion H. auto.
  - inversion H; subst d'. discriminate HA'.
  - inversion H; subst d. discriminate HA.
  - inversion H; subst d'. cbn [forallb] in HA, HA'.
    apply andb_true_iff in HA, HA'. destruct HA as [_ HA]. destruct HA' as [_ HA'].
    destruct (IH A' HA HA' H2) as [-> ->]. auto.
Qed.

(** An id determines the span it was built from. *)
Lemma cand_id_inj (kind : string) (a b a' b' : Z) :
  (0 <= a)%Z -> (0 <= b)%Z -> (0 <= a')%Z -> (0 <= b')%Z ->
  cand_id kind a b = cand_id kind a' b' -> a = a' /\ b = b'.
Proof.
  intros Ha Hb Ha' Hb' H. unfold cand_id in H. apply app_inv_head in H.
  change (u8 ":") with [58%N] in H. cbn [app] in H. inversion H as [H1]. clear H.
  apply digits_before_colon in H1;
    [|apply (str_of_int_value a Ha) | apply (str_of_int_value a' Ha')].
  destruct H1 as [H1 H2]. split; apply str_of_int_inj; assumption.
Qed.

Lemma NoDup_map_by {A B C} (f : A -> B) (g : A -> C) (l : list A) :
  NoDup (map f l) ->
  (forall x y, In x l -> In y l -> g x = g y -> f x = f y) ->
  NoDup (map g l).
Proof.
  induction l as [|a l IH]; intros Hnd Hfg; [constructor|].
  cbn [map] in *. inversion Hnd as [|? ? Hnot Hrest]; subst.
  constructor.
  - intros Hin. apply list_elem_of_In, in_map_iff in Hin. destruct Hin as (y & Hy & Hin).
    apply Hnot. apply list_elem_of_In.
    rewrite <- (Hfg y a (or_intror Hin) (or_introl eq_refl) Hy). apply in_map. exact Hin.
  - apply IH; [exact Hrest|]. intros x y Hx Hy. apply Hfg; right; assumption.
Qed.

Lemma NoDup_map_In_inj {A B} (f : A -> B) (l : list A) (x y : A) :
  NoDup (map f l) -> In x l -> In y l -> f x = f y -> x = y.
Proof.
  induction l as [|a l IH]; intros Hnd Hx Hy Hf; [contradiction|].
  cbn [map] in Hnd. inversion Hnd as [|? ? Hnot Hrest]; subst.
  destruct Hx as [->|Hx], Hy as [->|Hy].
  - reflexivity.
  - exfalso. apply Hnot. apply list_elem_of_In. rewrite Hf. apply in_map. exact Hy.
  - exfalso. apply Hnot. apply list_elem_of_In. rewrite <- Hf. apply in_map. exact Hx.
  - apply IH; assumption.
Qed.

Lemma NoDup_omap_keys {A B K1 K2} (h : A -> option B) (k1 : A -> K1) (k2 : B -> K2)
    (l : list A) :
  NoDup (map k1 l) ->
  (forall x y x' y', In x l -> In x' l -> h x = Some y -> h x' = Some y' ->
     k2 y = k2 y' -> k1 x = k1 x') ->
  NoDup (map k2 (omap h l)).
Proof.
  induction l as [|a l IH]; intros Hnd Hk; [constructor|].
  cbn [map] in Hnd. inversion Hnd as [|? ? Hnot Hrest]; subst.
  assert (IH' : NoDup (map k2 (omap h l))).
  { apply IH; [exact Hrest|]. intros x y x' y' Hx Hx'. apply Hk; right; assumption. }
  cbn [omap list_omap]. destruct (h a) as [b|] eqn:Ea; [|exact IH'].
  cbn [map]. constructor; [|exact IH'].
  intros Hin. apply list_elem_of_In, in_map_iff in Hin. destruct Hin as (b' & Hb' & Hin).
  apply list_elem_of_In, list_elem_of_omap in Hin. destruct Hin as (a' & Ha' & Ea').
  apply list_elem_of_In in Ha'.
  apply Hnot. apply list_elem_of_In.
  rewrite (Hk a b a' b' (or_introl eq_refl) (or_intror Ha') Ea Ea' (eq_sym Hb')).
  apply in_map. exact Ha'.
Qed.

Lemma ordered_starts_NoDup (l : list Candidate.t) :
  ordered_disjoint l ->
  (forall c, In c l -> (Candidate.start c < Candidate.end_ c)%Z) ->
  NoDup (map Candidate.start l).
Proof.
  induction l as [|c l IH]; intros Hord Hne; [constructor|].
  destruct Hord as [Hall Hord]. cbn [map]. constructor.
  - intros Hin. apply list_elem_of_In, in_map_iff in Hin. destruct Hin as (d & Hd & Hin).
    rewrite List.Forall_forall in Hall. specialize (Hall d Hin).
    specialize (Hne c (or_introl eq_refl)). lia.
  - apply IH; [exact Hord|]. intros d Hd. apply Hne. right. exact Hd.
Qed.

Section Ids.
Variable SUGGESTIONS : gmap (list N) (list (list N)).
Variable FOREIGN_TERMS : gset (list N).
Variable WHITELIST : gset (list N).

Local Abbreviation origin := (origin SUGGESTIONS FOREIGN_TERMS WHITELIST).
Local Abbreviation detect_candidates :=
  (detect_candidates SUGGESTIONS FOREIGN_TERMS WHITELIST).

Lemma origin_id (text lvl : list N) (c : Candidate.t) :
  origin text lvl c ->
  (0 <= Candidate.start c < Candidate.end_ c)%Z
  /\ (Candidate.id c = cand_id "ph" (Candidate.start c) (Candidate.end_ c)
      \/ Candidate.id c = cand_id "w" (Candidate.start c) (Candidate.end_ c)).
Proof.
  intros [ph span Hph _ Hspan H|base s ti span Hs Ht H].
  - destruct (phrase_origin _ _ _ _ _ _ Hph Hspan H) as (_ & H1 & _).
    split; [exact H1|]. apply phrase_hit_In in H. destruct H as (_ & _ & ->).
    left. reflexivity.
  - destruct (word_origin _ _ _ _ _ _ _ _ _ _ Hs Ht H) as (_ & H1 & _).
    split; [exact H1|]. apply word_hit_In in H.
    destruct H as (_ & _ & _ & _ & _ & h & _ & _ & _ & ->). right. reflexivity.
Qed.

Lemma same_id_same_start (text lvl : list N) (c d : Candidate.t) :
  origin text lvl c -> origin text lvl d ->
  Candidate.id c = Candidate.id d -> Candidate.start c = Candidate.start d.
Proof.
  intros Hc Hd Hid. apply origin_id in Hc, Hd.
  destruct Hc as [Hc [Ec|Ec]], Hd as [Hd [Ed|Ed]]; rewrite Ec, Ed in Hid.
  - apply cand_id_inj in Hid; [apply Hid | lia ..].
  - unfold cand_id in Hid. change (u8 "ph") with [112%N; 104%N] in Hid.
    change (u8 "w") with [119%N] in Hid. discriminate Hid.
  - unfold cand_id in Hid. change (u8 "ph") with [112%N; 104%N] in Hid.
    change (u8 "w") with [119%N] in Hid. discriminate Hid.
  - apply cand_id_inj in Hid; [apply Hid | lia ..].
Qed.

Lemma detect_ordered (text lvl : list N) : ordered_disjoint (detect_candidates text lvl).
Proof.
  unfold App.detect_candidates, sort_by.
  apply keep_disjoint_ordered. apply sort_Forall.
  rewrite List.Forall_forall. intros c Hc.
  apply candidate_pool_In in Hc. eapply origin_well_formed, Hc.
Qed.

Lemma detect_starts_NoDup (text lvl : list N) :
  NoDup (map Candidate.start (detect_candidates text lvl)).
Proof.
  apply ordered_starts_NoDup; [apply detect_ordered|].
  intros c Hc. apply detect_candidates_In, origin_id in Hc. lia.
Qed.

Lemma detect_ids_NoDup (text lvl : list N) :
  NoDup (map Candidate.id (detect_candidates text lvl)).
Proof.
  apply (NoDup_map_by Candidate.start); [apply detect_starts_NoDup|].
  intros c d Hc Hd. apply (same_id_same_start text lvl); apply detect_candidates_In; assumption.
Qed.

(** X9: The candidates of one result have pairwise different ids, and an id
    determines the span of its candidate: equal ids mean the same
    candidate, so the id an apply request sends back names exactly one
    candidate of the re-analysis. *)
Theorem detected_ids_unique (text lvl : list N) :
  NoDup (map Candidate.id (detect_candidates text lvl))
  /\ forall c d, In c (detect_candidates text lvl) -> In d (detect_candidates text lvl) ->
       Candidate.id c = Candidate.id d -> c = d.
Proof.
  split; [apply detect_ids_NoDup|].
  intros c d Hc Hd. apply (NoDup_map_In_inj Candidate.id _ c d (detect_ids_NoDup text lvl) Hc Hd).
Qed.
End Ids.

(* ===================================================================== *)
(** ** What an apply request rewrites *)
(* ===================================================================== *)

Lemma spans_of_candidates (n : Z) (h : Candidate.t -> option Replacement) :
  (forall c r, h c = Some r ->
     r_start r = Candidate.start c /\ r_end r = Candidate.end_ c) ->
  forall (l : list Candidate.t) (from : Z),
    ordered_disjoint l ->
    (forall c, In c l ->
       (from <= Candidate.start c < Candidate.end_ c)%Z /\ (Candidate.end_ c <= n)%Z) ->
    (from <= n)%Z ->
    spans_in_order from n (omap h l).
Proof.
  intros Hh. induction l as [|c l IH]; intros from Hord Hall Hle; [exact Hle|].
  destruct Hord as [Hafter Hord]. rewrite List.Forall_forall in Hafter.
  pose proof (Hall c (or_introl eq_refl)) as Hc.
  cbn [omap list_omap]. destruct (h c) as [r|] eqn:E.
  - destruct (Hh c r E) as [Hs He]. cbn [spans_in_order]. rewrite Hs, He.
    split; [lia|]. split; [lia|].
    apply IH; [exact Hord | | lia].
    intros d Hd. specialize (Hafter d Hd). specialize (Hall d (or_intror Hd)). lia.
  - apply IH; [exact Hord | | exact Hle].
    intros d Hd. apply Hall. right. exact Hd.
Qed.

Section Rewrite.
Variable SUGGESTIONS : gmap (list N) (list (list N)).
Variable FOREIGN_TERMS : gset (list N).
Variable WHITELIST : gset (list N).
Variables (db0 : prefs) (user_id text context_tag lvl : list N).

Local Abbreviation detected :=
  (detect_candidates SUGGESTIONS FOREIGN_TERMS WHITELIST text lvl).
Local Abbreviation items :=
  (request_items SUGGESTIONS FOREIGN_TERMS WHITELIST db0 user_id text context_tag lvl).
Local Abbreviation step := (apply_choice user_id context_tag items).
Local Abbreviation apply_req :=
  (apply SUGGESTIONS FOREIGN_TERMS WHITELIST db0 user_id text context_tag lvl).

(** The replacements an apply request queues, in the order of its choices. *)
Lemma fold_replacements (choices : list Choice) : forall (db : prefs) (acc : list Replacement),
  (fold_left step choices (db, acc)).2 = acc ++ omap (made_replacement items) choices.
Proof.
  induction choices as [|ch choices IH]; intros db acc.
  - cbn. rewrite app_nil_r. reflexivity.
  - cbn [fold_left omap list_omap]. unfold apply_choice at 2, made_replacement at 1.
    destruct (items !! candidate_id ch) as [it|]; [|apply IH].
    destruct (chosen ch) as [[|x sel]|]; try apply IH.
    rewrite IH, <- app_assoc. reflexivity.
Qed.

(** The item stored for a detected candidate is its own. *)
Lemma items_lookup_detected (c : Candidate.t) :
  In c detected ->
  exists it, items !! Candidate.id c = Some it
             /\ i_original it = Candidate.original c
             /\ i_start it = Candidate.start c /\ i_end it = Candidate.end_ c.
Proof.
  intros Hc. destruct (items !! Candidate.id c) as [it|] eqn:E.
  - pose proof E as E'. apply items_lookup_Some in E'.
    destruct E' as (c' & Hc' & Hid & _ & Ho & Hs & He).
    assert (c' = c) as ->
      by exact (NoDup_map_In_inj Candidate.id _ c' c
                  (detect_ids_NoDup _ _ _ text lvl) Hc' Hc Hid).
    exists it. auto.
  - exfalso. unfold request_items in E. apply dict_of_list_lookup_None in E. apply E.
    unfold analyze. cbn [fst]. rewrite <- !list_fmap_compose.
    apply list_elem_of_fmap. exists c. split; [reflexivity|].
    apply list_elem_of_In. exact Hc.
Qed.

Lemma made_replacement_candidate (ch : Choice) (r : Replacement) :
  made_replacement items ch = Some r ->
  exists c x sel, In c detected /\ Candidate.id c = candidate_id ch
    /\ chosen ch = Some (x :: sel)
    /\ r = mkReplacement (Candidate.start c) (Candidate.end_ c)
             (preserve_casing (Candidate.original c) (x :: sel)).
Proof.
  unfold made_replacement. destruct (items !! candidate_id ch) as [it|] eqn:E; [|discriminate].
  destruct (chosen ch) as [[|x sel]|]; try discriminate. intros Hr. inversion Hr. clear Hr.
  apply items_lookup_Some in E. destruct E as (c & Hc & Hid & _ & Ho & Hs & He).
  exists c, x, sel. rewrite Ho, Hs, He. auto.
Qed.

Lemma chosen_replacement_choice (choices : list Choice) (c : Candidate.t) (r : Replacement) :
  chosen_replacement choices c = Some r ->
  exists ch x sel, In ch choices /\ candidate_id ch = Candidate.id c
    /\ chosen ch = Some (x :: sel)
    /\ r = mkReplacement (Candidate.start c) (Candidate.end_ c)
             (preserve_casing (Candidate.original c) (x :: sel)).
Proof.
  unfold chosen_replacement.
  destruct (List.find _ choices) as [ch|] eqn:E; [|discriminate].
  apply find_some in E. destruct E as [Hin Hid]. apply bool_decide_eq_true in Hid.
  destruct (chosen ch) as [[|x sel]|] eqn:Ech; try discriminate. intros Hr. inversion Hr.
  exists ch, x, sel. auto.
Qed.

Lemma replacements_agree (choices : list Choice) (r : Replacement) :
  NoDup (map candidate_id choices) ->
  In r (expected_replacements detected choices)
  <-> In r (omap (made_replacement items) choices).
Proof.
  intros Hnd. unfold expected_replacements.
  rewrite <- !list_elem_of_In, !list_elem_of_omap. split.
  - intros (c & Hc & Hr). apply list_elem_of_In in Hc.
    apply chosen_replacement_choice in Hr.
    destruct Hr as (ch & x & sel & Hch & Hid & Hsel & ->).
    exists ch. split; [apply list_elem_of_In; exact Hch|].
    destruct (items_lookup_detected c Hc) as (it & Hit & Ho & Hs & He).
    unfold made_replacement. rewrite Hid, Hit, Hsel, Ho, Hs, He. reflexivity.
  - intros (ch & Hch & Hr). apply list_elem_of_In in Hch.
    apply made_replacement_candidate in Hr.
    destruct Hr as (c & x & sel & Hc & Hid & Hsel & ->).
    exists c. split; [apply list_elem_of_In; exact Hc|].
    unfold chosen_replacement.
    destruct (List.find _ choices) as [ch'|] eqn:E.
    + apply find_some in E. destruct E as [Hin' Hid']. apply bool_decide_eq_true in Hid'.
      assert (ch' = ch) as ->
        by (apply (NoDup_map_In_inj candidate_id choices); [assumption ..|congruence]).
      rewrite Hsel. reflexivity.
    + exfalso. pose proof (find_none _ _ E ch Hch) as Hno. cbn beta in Hno.
      apply bool_decide_eq_false in Hno. apply Hno. symmetry. exact Hid.
Qed.

Lemma replacements_permutation (choices : list Choice) :
  NoDup (map candidate_id choices) ->
  Permutation (expected_replacements detected choices)
    (omap (made_replacement items) choices).
Proof.
  intros Hnd. apply NoDup_Permutation.
  - apply (NoDup_fmap_1 r_start). unfold expected_replacements.
    apply (NoDup_omap_keys _ Candidate.start r_start); [apply detect_starts_NoDup|].
    intros c r c' r' _ _ Hr Hr' Heq.
    apply chosen_replacement_choice in Hr, Hr'.
    destruct Hr as (? & ? & ? & _ & _ & _ & ->). destruct Hr' as (? & ? & ? & _ & _ & _ & ->).
    exact Heq.
  - apply (NoDup_fmap_1 r_start).
    apply (NoDup_omap_keys _ candidate_id r_start); [exact Hnd|].
    intros ch r ch' r' _ _ Hr Hr' Heq.
    apply made_replacement_candidate in Hr, Hr'.
    destruct Hr as (c & ? & ? & Hc & Hid & _ & ->).
    destruct Hr' as (c' & ? & ? & Hc' & Hid' & _ & ->). cbn [r_start] in Heq.
    rewrite <- Hid, <- Hid'. f_equal.
    exact (NoDup_map_In_inj Candidate.start _ c c'
             (detect_starts_NoDup _ _ _ text lvl) Hc Hc' Heq).
  - intros r. rewrite !list_elem_of_In. apply replacements_agree. exact Hnd.
Qed.

(** X16: An apply request whose choices name each candidate at most once, on
    a text without the dotted capital I, returns the text with exactly
    the chosen candidates rewritten: each candidate for which a choice
    carries a non-empty chosen suggestion is replaced by that suggestion
    in the casing of the original, everything else is copied, in whatever
    order the choices came.  The applied count is the number of candidates
    rewritten. *)
Theorem apply_rewrites_chosen (choices : list Choice) :
  ~ In 304%N text -> NoDup (map candidate_id choices) ->
  new_text (apply_req choices).2
  = spliced text 0 (expected_replacements detected choices)
  /\ applied_count (apply_req choices).2
     = length (expected_replacements detected choices).
Proof.
  intros Hno Hnd. rewrite apply_unfold. cbn [snd new_text applied_count].
  rewrite fold_replacements. cbn [app].
  pose proof (replacements_permutation choices Hnd) as Hperm. split.
  - assert (Hord : spans_in_order 0 (len text) (expected_replacements detected choices)).
    { apply (spans_of_candidates (len text)).
      - intros c r Hr. apply chosen_replacement_choice in Hr.
        destruct Hr as (? & ? & ? & _ & _ & _ & ->). auto.
      - apply detect_ordered.
      - intros c Hc. apply detect_candidates_In in Hc.
        destruct (origin_span _ _ _ text lvl c Hno Hc) as (H1 & H2 & _). auto.
      - unfold len. lia. }
    unfold apply_replacements.
    rewrite (sorted_replacements _ _ 0 (len text) Hord Hperm).
    rewrite <- fold_left_rev_right, rev_involutive.
    destruct (splice_back_to_front text _ 0 ltac:(lia) Hord) as [_ H].
    cbn [Z.to_nat skipn] in H. exact H.
  - symmetry. apply Permutation_length. exact Hperm.
Qed.
End Rewrite.

Lemma apply_rewrites_chosen_witness :
  new_text (apply ∅ report_lexicon api_whitelist ∅ (u8 "u1") report_text (u8 "genel")
              (u8 "balanced") [report_choice]).2
  = spliced report_text 0
      (expected_replacements
         (detect_candidates ∅ report_lexicon api_whitelist report_text (u8 "balanced"))
         [report_choice])
  /\ applied_count (apply ∅ report_lexicon api_whitelist ∅ (u8 "u1") report_text (u8 "genel")
                      (u8 "balanced") [report_choice]).2
     = length (expected_replacements
                 (detect_candidates ∅ report_lexicon api_whitelist report_text (u8 "balanced"))
                 [report_choice]).
Proof.
  apply (apply_rewrites_chosen ∅ report_lexicon api_whitelist ∅ (u8 "u1") report_text
           (u8 "genel") (u8 "balanced") [report_choice]).
  - intros H. vm_compute in H. repeat (destruct H as [H|H]; [discriminate H|]). exact H.
  - constructor; [intros H; inversion H | constructor].
Defined.

(* ===================================================================== *)
(** ** Feedback stays with its user, term and context *)
(* ===================================================================== *)

(** X13: Feedback recorded for one user, term and context tag changes neither
    the scores read nor the ranking computed for any other user, term or
    context tag. *)
Theorem feedback_is_isolated (db : prefs) (u t c u' t' s c' : list N) (delta : Z)
    (base : list (list N)) :
  (u', t', c') <> (u, t, c) ->
  db_get_scores u t c (db_add_score u' t' s c' delta db) = db_get_scores u t c db
  /\ rank_suggestions (db_add_score u' t' s c' delta db) u t base c
     = rank_suggestions db u t base c.
Proof.
  intros Hne.
  assert (Hscores : db_get_scores u t c (db_add_score u' t' s c' delta db)
                    = db_get_scores u t c db).
  { apply map_eq. intros x. rewrite !db_get_scores_lookup.
    apply db_add_score_other. congruence. }
  split; [exact Hscores|]. unfold rank_suggestions. rewrite Hscores. reflexivity.
Qed.

Lemma feedback_is_isolated_witness :
  db_get_scores (u8 "ayse") (u8 "optimize") (u8 "genel")
    (db_add_score (u8 "mehmet") (u8 "optimize") (u8 "eniyilemek") (u8 "genel") 2 ∅)
  = db_get_scores (u8 "ayse") (u8 "optimize") (u8 "genel") ∅
  /\ rank_suggestions
       (db_add_score (u8 "mehmet") (u8 "optimize") (u8 "eniyilemek") (u8 "genel") 2 ∅)
       (u8 "ayse") (u8 "optimize") [u8 "iyileştirmek"; u8 "eniyilemek"] (u8 "genel")
     = rank_suggestions ∅ (u8 "ayse") (u8 "optimize")
         [u8 "iyileştirmek"; u8 "eniyilemek"] (u8 "genel").
Proof.
  apply (feedback_is_isolated ∅ (u8 "ayse") (u8 "optimize") (u8 "genel")
           (u8 "mehmet") (u8 "optimize") (u8 "eniyilemek") (u8 "genel") 2
           [u8 "iyileştirmek"; u8 "eniyilemek"]).
  vm_compute. discriminate.
Defined.

(* ===================================================================== *)
(** ** The context of a candidate *)
(* ===================================================================== *)

Lemma in_order_occurs (s : list N) (pieces : list (list N)) : forall pos p,
  in_order s pos pieces -> In p pieces -> exists i, occurs_at s i p.
Proof.
  induction pieces as [|q rest IH]; intros pos p Hord Hin; [contradiction|].
  destruct Hord as (i & _ & Hocc & Hrest). destruct Hin as [<-|Hin].
  - exists i. exact Hocc.
  - eapply IH; eassumption.
Qed.

Lemma occurs_at_strip (s p : list N) (i : nat) :
  occurs_at s i p -> exists j, i <= j /\ occurs_at s j (strip p).
Proof.
  intros (pre & tail & -> & <-). destruct (strip_inside p) as (a & b & Hp).
  exists (length pre + length a). split; [lia|].
  exists (pre ++ a), (b ++ tail). split.
  - rewrite Hp at 1. rewrite <- !app_assoc. reflexivity.
  - apply length_app.
Qed.

Lemma context_scan_occurs (text : list N) (idx : Z) (parts : list (list N)) : forall pos,
  (forall p, In p parts -> exists i, occurs_at text i p) ->
  exists i, occurs_at text i (context_scan text idx parts pos).
Proof.
  induction parts as [|p rest IH]; intros pos Hparts; cbn [context_scan].
  - destruct (occurs_at_strip text text 0) as (j & _ & Hj); [|eauto].
    exists [], []. rewrite app_nil_r. auto.
  - destruct ((pos <=? idx)%Z && (idx <=? pos + len p)%Z).
    + destruct (Hparts p (or_introl eq_refl)) as (i & Hi).
      destruct (occurs_at_strip text p i Hi) as (j & _ & Hj). eauto.
    + apply IH. intros q Hq. apply Hparts. right. exact Hq.
Qed.

Lemma get_sentence_context_occurs (text : list N) (idx : Z) :
  exists i, occurs_at text i (get_sentence_context text idx).
Proof.
  unfold get_sentence_context. apply context_scan_occurs. intros p Hp.
  apply (in_order_occurs text (re_split SENT_SPLIT text) 0 p); [|exact Hp].
  unfold re_split. apply split_at_in_order; [lia|].
  apply (finditer_from_chain SENT_SPLIT text 0 0 None).
Qed.

Section Context.
Variable SUGGESTIONS : gmap (list N) (list (list N)).
Variable FOREIGN_TERMS : gset (list N).
Variable WHITELIST : gset (list N).

Local Abbreviation detect_candidates :=
  (detect_candidates SUGGESTIONS FOREIGN_TERMS WHITELIST).

(** X8: The context of every candidate is a stretch of the text itself.  For
    a word candidate it is a sentence that holds the candidate: the
    sentence occurs in the text at an offset at or before the start of the
    candidate and reaches at least to its end. *)
Theorem candidate_context_in_text (text lvl : list N) (c : Candidate.t) :
  In c (detect_candidates text lvl) ->
  exists i : nat,
    occurs_at text i (Candidate.context c)
    /\ (is_word_candidate c = true ->
        (Z.of_nat i <= Candidate.start c)%Z
        /\ (Candidate.end_ c <= Z.of_nat i + len (Candidate.context c))%Z).
Proof.
  intros H. apply detect_candidates_In in H.
  destruct H as [ph span _ _ _ H|base s ti span Hs Ht H].
  - apply phrase_hit_In in H. destruct H as (_ & _ & ->). cbn.
    destruct (get_sentence_context_occurs text (Z.of_nat span.1)) as (i & Hi).
    exists i. split; [exact Hi | discriminate].
  - apply word_hit_In in H. destruct H as (_ & _ & _ & _ & _ & h & _ & _ & _ & ->). cbn.
    apply located_sentences_occur in Hs. destruct Hs as (f & -> & Hocc).
    exists f. split; [exact Hocc|]. intros _.
    apply enumerate_In in Ht. destruct span as [a b].
    apply (finditer_reads _ _ _ _ _ TOKEN_RE_reads) in Ht.
    destruct Ht as (Hab & Hb & _). cbn [fst snd]. unfold len. lia.
Qed.
End Context.

Lemma candidate_context_in_text_witness :
  exists i : nat,
    occurs_at report_text i (Candidate.context report_candidate)
    /\ (is_word_candidate report_candidate = true ->
        (Z.of_nat i <= Candidate.start report_candidate)%Z
        /\ (Candidate.end_ report_candidate
            <= Z.of_nat i + len (Candidate.context report_candidate))%Z).
Proof.
  apply (candidate_context_in_text ∅ report_lexicon api_whitelist report_text
           (u8 "strict") report_candidate).
  vm_compute. left. reflexivity.
Defined.

(* ===================================================================== *)
(** ** Nothing to detect *)
(* ===================================================================== *)

(** X10: With an empty lexicon nothing is detected, in any text at any level
    and with any whitelist; and in the empty text nothing is detected,
    whatever the lexicon holds. *)
Theorem nothing_detected_without_input (SUGGESTIONS : gmap (list N) (list (list N)))
    (FOREIGN_TERMS WHITELIST : gset (list N)) (text lvl : list N) :
  detect_candidates SUGGESTIONS ∅ WHITELIST text lvl = []
  /\ detect_candidates SUGGESTIONS FOREIGN_TERMS WHITELIST [] lvl = [].
Proof.
  split; [apply empty_lexicon_no_candidates|].
  destruct (detect_candidates SUGGESTIONS FOREIGN_TERMS WHITELIST [] lvl) as [|c l] eqn:E;
    [reflexivity|].
  assert (Hin : In c (detect_candidates SUGGESTIONS FOREIGN_TERMS WHITELIST [] lvl))
    by (rewrite E; left; reflexivity).
  apply detect_candidates_In in Hin.
  destruct Hin as [ph span Hph _ Hspan H|base s ti span Hs Ht H].
  - destruct (phrase_origin _ _ _ _ _ _ Hph Hspan H) as (_ & H1 & H2 & _).
    change (len (lower [])) with 0%Z in H2. lia.
  - destruct (word_origin _ _ _ _ _ _ _ _ _ _ Hs Ht H) as (_ & H1 & H2 & _).
    change (len []) with 0%Z in H2. lia.
Qed.

(* ===================================================================== *)
(** ** What overlap resolution drops *)
(* ===================================================================== *)

Lemma span_ltb_spec (p q : Z * Z) :
  span_ltb p q = true <-> (p.1 < q.1 \/ (p.1 = q.1 /\ p.2 < q.2))%Z.
Proof.
  unfold span_ltb. rewrite orb_true_iff, andb_true_iff, !Z.ltb_lt, Z.eqb_eq. reflexivity.
Qed.

Lemma span_ltb_false (p q : Z * Z) :
  span_ltb q p = false <-> (p.1 < q.1 \/ (p.1 = q.1 /\ p.2 <= q.2))%Z.
Proof.
  destruct (span_ltb q p) eqn:E.
  - apply span_ltb_spec in E. split; [discriminate | lia].
  - split; [intros _ | reflexivity].
    destruct (Z.lt_trichotomy p.1 q.1) as [H|[H|H]]; [lia | |].
    + destruct (Z.le_gt_cases p.2 q.2) as [H2|H2]; [lia|].
      assert (Ht : span_ltb q p = true) by (apply span_ltb_spec; lia). congruence.
    + assert (Ht : span_ltb q p = true) by (apply span_ltb_spec; lia). congruence.
Qed.

Section SpanSort.
Context {A : Type} (key : A -> Z * Z).

Lemma insert_span_sorted (x : A) (l : list A) :
  StronglySorted (fun a b => span_ltb (key b) (key a) = false) l ->
  StronglySorted (fun a b => span_ltb (key b) (key a) = false)
    (insert_sorted (fun y x => span_ltb (key y) (key x)) x l).
Proof.
  induction 1 as [|y l Hs IH Hall]; simpl.
  - repeat constructor.
  - destruct (span_ltb (key y) (key x)) eqn:E.
    + constructor; [exact IH|].
      rewrite List.Forall_forall in *. intros z Hz.
      apply (Permutation_in _ (Permutation_sym (insert_sorted_perm _ x l))) in Hz.
      destruct Hz as [<-|Hz]; [|apply Hall; exact Hz].
      apply span_ltb_spec in E. apply span_ltb_false. lia.
    + constructor; [constructor; assumption|].
      constructor; [exact E|].
      rewrite List.Forall_forall in *. intros z Hz. specialize (Hall z Hz).
      apply span_ltb_false in E, Hall. apply span_ltb_false. lia.
Qed.

Lemma sort_by_span_sorted (l : list A) :
  StronglySorted (fun a b => span_ltb (key b) (key a) = false)
    (sort_by span_ltb key false l).
Proof.
  unfold sort_by. induction l as [|x l IH]; simpl; [constructor|].
  apply insert_span_sorted, IH.
Qed.
End SpanSort.

(** The scan drops a candidate only because it starts before the end of
    a candidate kept earlier in the sorted order. *)
Lemma keep_disjoint_complete (cands : list Candidate.t) : forall last,
  StronglySorted (fun a b => span_ltb (overlap_key b) (overlap_key a) = false) cands ->
  forall c, In c cands ->
    In c (keep_disjoint cands last)
    \/ (Candidate.start c < last)%Z
    \/ exists d, In d (keep_disjoint cands last)
                 /\ span_ltb (overlap_key c) (overlap_key d) = false
                 /\ (Candidate.start c < Candidate.end_ d)%Z.
Proof.
  induction cands as [|x r IH]; intros last Hs c Hc; [contradiction|].
  inversion Hs as [|? ? Hr Hall]; subst. rewrite List.Forall_forall in Hall.
  cbn [keep_disjoint]. destruct (Candidate.start x <? last)%Z eqn:E.
  - apply Z.ltb_lt in E. destruct Hc as [<-|Hc]; [right; left; exact E|].
    apply IH; assumption.
  - destruct Hc as [<-|Hc]; [left; left; reflexivity|].
    destruct (IH (Candidate.end_ x) Hr c Hc) as [H|[H|(d & Hd & Hk & Hlt)]].
    + left. right. exact H.
    + right. right. exists x. split; [left; reflexivity|]. split; [apply Hall; exact Hc | exact H].
    + right. right. exists d. split; [right; exact Hd|]. auto.
Qed.

Section Dropped.
Variable SUGGESTIONS : gmap (list N) (list (list N)).
Variable FOREIGN_TERMS : gset (list N).
Variable WHITELIST : gset (list N).

Local Abbreviation candidate_pool := (candidate_pool SUGGESTIONS FOREIGN_TERMS WHITELIST).
Local Abbreviation detect_candidates :=
  (detect_candidates SUGGESTIONS FOREIGN_TERMS WHITELIST).

(** X21: no lexicon hit is lost without cause.  A candidate that one of
    the two passes found is either returned, or a returned candidate
    covers its start: one that starts at or before it and ends after its
    start, and that, when both start at the same offset, is at least as
    long. *)
Theorem dropped_candidate_is_covered (text lvl : list N) (c : Candidate.t) :
  In c (candidate_pool text lvl) ->
  In c (detect_candidates text lvl)
  \/ exists d, In d (detect_candidates text lvl)
               /\ (Candidate.start d <= Candidate.start c < Candidate.end_ d)%Z
               /\ (Candidate.start d = Candidate.start c ->
                   Candidate.end_ c <= Candidate.end_ d)%Z.
Proof.
  intros Hc. unfold App.detect_candidates.
  destruct (keep_disjoint_complete
              (sort_by span_ltb overlap_key false (candidate_pool text lvl)) (-1)
              (sort_by_span_sorted overlap_key _) c) as [H|[H|(d & Hd & Hk & Hlt)]].
  - unfold sort_by. apply sort_In. exact Hc.
  - left. exact H.
  - apply candidate_pool_In, origin_id in Hc. lia.
  - right. exists d. split; [exact Hd|].
    apply span_ltb_false in Hk. unfold overlap_key in Hk. cbn [fst snd] in Hk. lia.
Qed.
End Dropped.

Lemma dropped_candidate_is_covered_witness :
  In model_phrase_candidate
    (detect_candidates ∅ model_lexicon ∅ model_text (u8 "strict"))
  \/ exists d,
       In d (detect_candidates ∅ model_lexicon ∅ model_text (u8 "strict"))
       /\ (Candidate.start d <= Candidate.start model_phrase_candidate
                              < Candidate.end_ d)%Z
       /\ (Candidate.start d = Candidate.start model_phrase_candidate ->
           Candidate.end_ model_phrase_candidate <= Candidate.end_ d)%Z.
Proof.
  apply (dropped_candidate_is_covered ∅ model_lexicon ∅ model_text
           (u8 "strict") model_phrase_candidate).
  vm_compute. left. reflexivity.
Defined.
